(** * Instrument agent control core

    A shallow embedding of the transaction manager, the protected-operation
    wrapper and the driver-reset state handlers of
    [ion/agents/instrumentagents/instrument_agent.py], with the properties
    the design document states about them.

    The agent is a single Python object driven by the Twisted reactor.  Its
    attributes become the fields of the record [Agent]; the parts of the
    runtime it talks to (delayed calls of the reactor, deferreds, the UUID
    source) are fields of the same record, so that every method is a
    function from an agent to an agent. *)

From stdpp Require Import gmap strings list.
From Stdlib Require Import NArith Lia Ascii.

(** ** Result codes *)

(** Modelled from the spec: [InstErrorCode] of
    [ion/agents/instrumentagents/instrument_constants.py], which is not part
    of the sources at hand.  The codes are those of the error taxonomy of the
    design document, together with [GET_OBSERVATORY_ERR], which the operation
    bodies name; [is_ok] holds of [OK] alone and [is_error] of every other
    code. *)
Module InstErrorCode.

Inductive t : Set :=
  | OK
  | LOCKED_RESOURCE
  | RESOURCE_NOT_LOCKED
  | INVALID_TRANSACTION_ID
  | TIMEOUT
  | INCORRECT_STATE
  | AGENT_INIT_FAILED
  | AGENT_DEINIT_FAILED
  | DRIVER_CONNECT_FAILED
  | DRIVER_DISCONNECT_FAILED
  | INVALID_PARAMETER
  | INVALID_PARAM_VALUE
  | INVALID_CAPABILITY
  | INVALID_STATUS
  | UNKNOWN_COMMAND
  | REQUIRED_PARAMETER
  | NOT_IMPLEMENTED
  | UNKNOWN_ERROR
  | GET_OBSERVATORY_ERR.

#[global] Instance eq_dec : EqDecision t.
Proof. solve_decision. Defined.

Definition is_ok (x : t) : bool := bool_decide (x = OK).

Definition is_error (x : t) : bool := negb (is_ok x).

End InstErrorCode.

(** ** Agent states and events *)

(** Modelled from the spec: [AgentState] of [instrument_constants.py]. *)
Module AgentState.

Inductive t : Set :=
  | POWERED_DOWN
  | UNINITIALIZED
  | INACTIVE
  | IDLE
  | STOPPED
  | OBSERVATORY_MODE
  | DIRECT_ACCESS_MODE
  | UNKNOWN.

#[global] Instance eq_dec : EqDecision t.
Proof. solve_decision. Defined.

End AgentState.

(** Modelled from the spec: [AgentEvent] of [instrument_constants.py]. *)
Module AgentEvent.

Inductive t : Set :=
  | ENTER
  | EXIT
  | INITIALIZE
  | RESET
  | GO_ACTIVE
  | GO_INACTIVE
  | RUN
  | CLEAR
  | PAUSE
  | RESUME
  | GO_OBSERVATORY_MODE
  | GO_DIRECT_ACCESS_MODE.

#[global] Instance eq_dec : EqDecision t.
Proof. solve_decision. Defined.

End AgentEvent.

(** ** Transaction tokens

    A token is [str(uuid4())]: the 128 bit value printed as 32 lower-case
    hexadecimal digits in groups of 8, 4, 4, 4 and 12 separated by dashes. *)

Definition hex_digit (n : N) : ascii :=
  nth (N.to_nat (n mod 16)) (String.list_ascii_of_string "0123456789abcdef") "0"%char.

Fixpoint hex (width : nat) (n : N) : string :=
  match width with
  | O => ""
  | S w => hex w (n / 16) +:+ String (hex_digit n) ""
  end.

Definition uuid_str (n : N) : string :=
  hex 8 (n / 16 ^ 24) +:+ "-" +:+ hex 4 (n / 16 ^ 20) +:+ "-" +:+
  hex 4 (n / 16 ^ 16) +:+ "-" +:+ hex 4 (n / 16 ^ 12) +:+ "-" +:+ hex 12 n.

(** ** Runtime objects *)

(** A [defer.Deferred] and a reactor [DelayedCall] are objects compared by
    identity; they are numbered in creation order. *)
Abbreviation Deferred := nat (only parsing).
Abbreviation DelayedCall := nat (only parsing).

(** The two closures handed to [reactor.callLater]. *)
Inductive Callback : Set :=
  | cb_transaction_expired
  | cb_acquisition_timeout (d : Deferred).

#[global] Instance Callback_eq_dec : EqDecision Callback.
Proof. solve_decision. Defined.

(** The value a transaction deferred fires with: [(success, tid)]. *)
Definition Grant : Set := InstErrorCode.t * option string.

(** An entry of [_pending_transactions]:
    [(d, acq_timeout_call, exp_timeout, requester)]. *)
Definition Pending : Set := Deferred * DelayedCall * N * string.

Definition pending_d (item : Pending) : Deferred := item.1.1.1.
Definition pending_call (item : Pending) : DelayedCall := item.1.1.2.
Definition pending_exp_timeout (item : Pending) : N := item.1.2.
Definition pending_requester (item : Pending) : string := item.2.

(** ** The agent *)

Record Agent : Type := mkAgent {
  (* attributes set in plc_init *)
  _driver_pid : option nat;
  _condemned_drivers : list nat;
  _driver_client : option nat;
  transaction_id : option string;
  _transaction_timed_out : bool;
  _transaction_timeout_call : option DelayedCall;
  _pending_transactions : list Pending;
  _max_acq_timeout : N;
  _min_exp_timeout : N;
  _default_exp_timeout : N;
  _max_exp_timeout : N;
  _in_protected_function : bool;
  (* self._fsm.get_current_state() *)
  fsm_current_state : AgentState.t;
  (* the reactor: delayed calls that are neither called nor cancelled *)
  reactor_calls : gmap nat (N * Callback);
  reactor_next_call : nat;
  (* deferreds: how many were created, and every callback(...) made *)
  deferred_count : nat;
  deferred_fired : list (Deferred * Grant);
  (* how many UUIDs were drawn *)
  uuid_draws : nat
}.

(** The agent as [plc_init] leaves it. *)
Definition plc_init : Agent := {|
  _driver_pid := None;
  _condemned_drivers := [];
  _driver_client := None;
  transaction_id := None;
  _transaction_timed_out := false;
  _transaction_timeout_call := None;
  _pending_transactions := [];
  _max_acq_timeout := 60;
  _min_exp_timeout := 1;
  _default_exp_timeout := 300;
  _max_exp_timeout := 1800;
  _in_protected_function := false;
  fsm_current_state := AgentState.UNINITIALIZED;
  reactor_calls := ∅;
  reactor_next_call := 0;
  deferred_count := 0;
  deferred_fired := [];
  uuid_draws := 0
|}.

(** *** Attribute assignment *)

Definition set_driver (pid : option nat) (condemned : list nat)
    (client : option nat) (a : Agent) : Agent :=
  mkAgent pid condemned client
    (transaction_id a) (_transaction_timed_out a) (_transaction_timeout_call a)
    (_pending_transactions a) (_max_acq_timeout a) (_min_exp_timeout a)
    (_default_exp_timeout a) (_max_exp_timeout a) (_in_protected_function a)
    (fsm_current_state a) (reactor_calls a) (reactor_next_call a)
    (deferred_count a) (deferred_fired a) (uuid_draws a).

Definition set_transaction_id (v : option string) (a : Agent) : Agent :=
  mkAgent (_driver_pid a) (_condemned_drivers a) (_driver_client a)
    v (_transaction_timed_out a) (_transaction_timeout_call a)
    (_pending_transactions a) (_max_acq_timeout a) (_min_exp_timeout a)
    (_default_exp_timeout a) (_max_exp_timeout a) (_in_protected_function a)
    (fsm_current_state a) (reactor_calls a) (reactor_next_call a)
    (deferred_count a) (deferred_fired a) (uuid_draws a).

Definition set_transaction_timed_out (v : bool) (a : Agent) : Agent :=
  mkAgent (_driver_pid a) (_condemned_drivers a) (_driver_client a)
    (transaction_id a) v (_transaction_timeout_call a)
    (_pending_transactions a) (_max_acq_timeout a) (_min_exp_timeout a)
    (_default_exp_timeout a) (_max_exp_timeout a) (_in_protected_function a)
    (fsm_current_state a) (reactor_calls a) (reactor_next_call a)
    (deferred_count a) (deferred_fired a) (uuid_draws a).

Definition set_transaction_timeout_call (v : option DelayedCall) (a : Agent)
    : Agent :=
  mkAgent (_driver_pid a) (_condemned_drivers a) (_driver_client a)
    (transaction_id a) (_transaction_timed_out a) v
    (_pending_transactions a) (_max_acq_timeout a) (_min_exp_timeout a)
    (_default_exp_timeout a) (_max_exp_timeout a) (_in_protected_function a)
    (fsm_current_state a) (reactor_calls a) (reactor_next_call a)
    (deferred_count a) (deferred_fired a) (uuid_draws a).

Definition set_pending_transactions (v : list Pending) (a : Agent) : Agent :=
  mkAgent (_driver_pid a) (_condemned_drivers a) (_driver_client a)
    (transaction_id a) (_transaction_timed_out a) (_transaction_timeout_call a)
    v (_max_acq_timeout a) (_min_exp_timeout a)
    (_default_exp_timeout a) (_max_exp_timeout a) (_in_protected_function a)
    (fsm_current_state a) (reactor_calls a) (reactor_next_call a)
    (deferred_count a) (deferred_fired a) (uuid_draws a).

Definition set_in_protected_function (v : bool) (a : Agent) : Agent :=
  mkAgent (_driver_pid a) (_condemned_drivers a) (_driver_client a)
    (transaction_id a) (_transaction_timed_out a) (_transaction_timeout_call a)
    (_pending_transactions a) (_max_acq_timeout a) (_min_exp_timeout a)
    (_default_exp_timeout a) (_max_exp_timeout a) v
    (fsm_current_state a) (reactor_calls a) (reactor_next_call a)
    (deferred_count a) (deferred_fired a) (uuid_draws a).

Definition set_reactor (calls : gmap nat (N * Callback)) (next : nat)
    (a : Agent) : Agent :=
  mkAgent (_driver_pid a) (_condemned_drivers a) (_driver_client a)
    (transaction_id a) (_transaction_timed_out a) (_transaction_timeout_call a)
    (_pending_transactions a) (_max_acq_timeout a) (_min_exp_timeout a)
    (_default_exp_timeout a) (_max_exp_timeout a) (_in_protected_function a)
    (fsm_current_state a) calls next
    (deferred_count a) (deferred_fired a) (uuid_draws a).

Definition set_deferreds (count : nat) (fired : list (Deferred * Grant))
    (a : Agent) : Agent :=
  mkAgent (_driver_pid a) (_condemned_drivers a) (_driver_client a)
    (transaction_id a) (_transaction_timed_out a) (_transaction_timeout_call a)
    (_pending_transactions a) (_max_acq_timeout a) (_min_exp_timeout a)
    (_default_exp_timeout a) (_max_exp_timeout a) (_in_protected_function a)
    (fsm_current_state a) (reactor_calls a) (reactor_next_call a)
    count fired (uuid_draws a).

Definition set_uuid_draws (v : nat) (a : Agent) : Agent :=
  mkAgent (_driver_pid a) (_condemned_drivers a) (_driver_client a)
    (transaction_id a) (_transaction_timed_out a) (_transaction_timeout_call a)
    (_pending_transactions a) (_max_acq_timeout a) (_min_exp_timeout a)
    (_default_exp_timeout a) (_max_exp_timeout a) (_in_protected_function a)
    (fsm_current_state a) (reactor_calls a) (reactor_next_call a)
    (deferred_count a) (deferred_fired a) v.

(** *** The Twisted runtime *)

(** [reactor.callLater(delay, f)]: a new active delayed call. *)
Definition callLater (delay : N) (f : Callback) (a : Agent)
    : DelayedCall * Agent :=
  let c := reactor_next_call a in
  (c, set_reactor (<[c := (delay, f)]> (reactor_calls a)) (S c) a).

(** [call.cancel()].  Twisted raises when the call was already called or
    cancelled; [ok_calls_active] below shows the agent only cancels active
    calls. *)
Definition cancel (c : DelayedCall) (a : Agent) : Agent :=
  set_reactor (delete c (reactor_calls a)) (reactor_next_call a) a.

(** [defer.Deferred()]. *)
Definition new_Deferred (a : Agent) : Deferred * Agent :=
  let d := deferred_count a in
  (d, set_deferreds (S d) (deferred_fired a) a).

(** [d.callback(v)].  Twisted raises on a deferred that fired before; the
    log keeps every call so that this can be counted. *)
Definition callback (d : Deferred) (v : Grant) (a : Agent) : Agent :=
  set_deferreds (deferred_count a) (deferred_fired a ++ [(d, v)]) a.

(** [list.remove(item)]: drop the first element equal to [item]. *)
Fixpoint list_remove_first (item : Pending) (l : list Pending)
    : list Pending :=
  match l with
  | [] => []
  | x :: l' => if decide (x = item) then l' else x :: list_remove_first item l'
  end.

(** ** Transaction management *)

Section TransactionManagement.

(** The UUID source: [uuid4 n] is the value of the [n]-th call of
    [uuid4()]. *)
Variable uuid4 : nat -> N.

(** [str(uuid4())]. *)
Definition str_uuid4 (a : Agent) : string * Agent :=
  (uuid_str (uuid4 (uuid_draws a)), set_uuid_draws (S (uuid_draws a)) a).

(** The expiration timeout brought into
    [[_min_exp_timeout, _max_exp_timeout]], [None] standing for the
    default.  The timeouts are nonnegative integers, as the methods
    assert. *)
Definition clamp_exp_timeout (exp_timeout : option N) (a : Agent) : N :=
  match exp_timeout with
  | None => _default_exp_timeout a
  | Some e =>
      if (_max_exp_timeout a <? e)%N then _max_exp_timeout a
      else if (e <? _min_exp_timeout a)%N then _min_exp_timeout a
      else e
  end.

(** The acquisition timeout: [None] is no wait, and [_max_acq_timeout] is
    the longest wait. *)
Definition clamp_acq_timeout (acq_timeout : option N) (a : Agent) : N :=
  match acq_timeout with
  | None => 0%N
  | Some t => if (_max_acq_timeout a <? t)%N then _max_acq_timeout a else t
  end.

Definition _start_transaction (exp_timeout : option N) (a : Agent)
    : Grant * Agent :=
  let exp_timeout := clamp_exp_timeout exp_timeout a in
  match transaction_id a with
  | None =>
      let '(tid, a) := str_uuid4 a in
      let a := set_transaction_id (Some tid) a in
      let '(call, a) := callLater exp_timeout cb_transaction_expired a in
      let a := set_transaction_timeout_call (Some call) a in
      ((InstErrorCode.OK, transaction_id a), a)
  | Some _ => ((InstErrorCode.LOCKED_RESOURCE, None), a)
  end.

(** [_end_transaction(tid)]; the result is the ['success'] entry of the
    dict it returns.  [tid] is a [str], so it never equals a
    [transaction_id] of [None]. *)
Definition _end_transaction (tid : string) (a : Agent)
    : InstErrorCode.t * Agent :=
  if decide (Some tid = transaction_id a) then
    let a := set_transaction_id None a in
    let a := set_transaction_timed_out false a in
    let a :=
      match _transaction_timeout_call a with
      | Some call => set_transaction_timeout_call None (cancel call a)
      | None => a
      end in
    let a :=
      match _pending_transactions a with
      | (d, call, exp_timeout, requester) :: rest =>
          let a := set_pending_transactions rest a in
          let a := cancel call a in
          let '(grant, a) := _start_transaction (Some exp_timeout) a in
          callback d grant a
      | [] => a
      end in
    (InstErrorCode.OK, a)
  else
    match transaction_id a with
    | None => (InstErrorCode.RESOURCE_NOT_LOCKED, a)
    | Some _ => (InstErrorCode.LOCKED_RESOURCE, a)
    end.

(** The closure [transaction_expired] of [_start_transaction], run by the
    reactor when the expiration timer is due.  With no current transaction
    the assertion of [_end_transaction] fails inside the reactor, which
    leaves the agent as it is. *)
Definition transaction_expired (a : Agent) : Agent :=
  let a := set_transaction_timeout_call None a in
  if _in_protected_function a then set_transaction_timed_out true a
  else
    match transaction_id a with
    | Some tid => (_end_transaction tid a).2
    | None => a
    end.

(** The closure [acquisition_timeout] of [_request_transaction] for the
    deferred [d]: a [for] loop over [_pending_transactions] by position,
    over the list as the loop body leaves it. *)
Fixpoint acquisition_timeout_loop (fuel i : nat) (d : Deferred) (a : Agent)
    : Agent :=
  match fuel with
  | O => a
  | S fuel' =>
      match _pending_transactions a !! i with
      | None => a
      | Some item =>
          if decide (pending_d item = d) then
            let a :=
              set_pending_transactions
                (list_remove_first item (_pending_transactions a)) a in
            let a := callback d (InstErrorCode.TIMEOUT, None) a in
            acquisition_timeout_loop fuel' (S i) d a
          else acquisition_timeout_loop fuel' (S i) d a
      end
  end.

Definition acquisition_timeout (d : Deferred) (a : Agent) : Agent :=
  acquisition_timeout_loop (length (_pending_transactions a)) 0 d a.

(** [_request_transaction(acq_timeout, exp_timeout, requester)]: the
    deferred it returns, and the agent afterwards. *)
Definition _request_transaction (acq_timeout exp_timeout : option N)
    (requester : string) (a : Agent) : Deferred * Agent :=
  let exp_timeout := clamp_exp_timeout exp_timeout a in
  let acq_timeout := clamp_acq_timeout acq_timeout a in
  let '(d, a) := new_Deferred a in
  match transaction_id a with
  | None =>
      let '(grant, a) := _start_transaction (Some exp_timeout) a in
      (d, callback d grant a)
  | Some _ =>
      if (acq_timeout =? 0)%N then
        (d, callback d (InstErrorCode.LOCKED_RESOURCE, None) a)
      else
        let '(acq_timeout_call, a) :=
          callLater acq_timeout (cb_acquisition_timeout d) a in
        (d, set_pending_transactions
              (_pending_transactions a ++
                 [(d, acq_timeout_call, exp_timeout, requester)]) a)
  end.

(** [_verify_transaction(tid, optype)].  Publishing the error, which the
    method does before it returns, leaves the agent as it is. *)
Definition _verify_transaction (tid optype : string) (a : Agent)
    : InstErrorCode.t * Agent :=
  if bool_decide (tid ≠ "create") && bool_decide (tid ≠ "none")
     && bool_decide (String.length tid ≠ 36)
  then (InstErrorCode.INVALID_TRANSACTION_ID, a)
  else if bool_decide (tid = "create") then
    let '((success, _), a) :=
      _start_transaction (Some (_default_exp_timeout a)) a in
    if InstErrorCode.is_ok success then (InstErrorCode.OK, a)
    else (InstErrorCode.LOCKED_RESOURCE, a)
  else if bool_decide (tid = "none") && bool_decide (transaction_id a = None)
          && bool_decide (optype = "get")
  then (InstErrorCode.OK, a)
  else if bool_decide (Some tid = transaction_id a) then (InstErrorCode.OK, a)
  else (InstErrorCode.LOCKED_RESOURCE, a).

(** The reactor runs the delayed call [c], if it is still active. *)
Definition reactor_fire (c : DelayedCall) (a : Agent) : Agent :=
  match reactor_calls a !! c with
  | None => a
  | Some (_, f) =>
      let a := set_reactor (delete c (reactor_calls a)) (reactor_next_call a) a in
      match f with
      | cb_transaction_expired => transaction_expired a
      | cb_acquisition_timeout d => acquisition_timeout d a
      end
  end.

End TransactionManagement.

(** ** Protected operations *)

(** The twelve [op_*] handlers that set [_in_protected_function]. *)
Inductive Operation : Set :=
  | op_execute_observatory
  | op_get_observatory
  | op_set_observatory
  | op_get_observatory_metadata
  | op_get_observatory_status
  | op_get_capabilities
  | op_execute_device
  | op_get_device
  | op_set_device
  | op_execute_device_direct
  | op_get_device_metadata
  | op_get_device_status.

#[global] Instance Operation_eq_dec : EqDecision Operation.
Proof. solve_decision. Defined.

Definition all_operations : list Operation :=
  [ op_execute_observatory; op_get_observatory; op_set_observatory;
    op_get_observatory_metadata; op_get_observatory_status;
    op_get_capabilities; op_execute_device; op_get_device; op_set_device;
    op_execute_device_direct; op_get_device_metadata; op_get_device_status ].

(** The [optype] each handler passes to [_verify_transaction]. *)
Definition optype (op : Operation) : string :=
  match op with
  | op_execute_observatory | op_execute_device | op_execute_device_direct =>
      "execute"
  | op_set_observatory | op_set_device => "set"
  | op_get_observatory | op_get_observatory_metadata
  | op_get_observatory_status | op_get_capabilities | op_get_device
  | op_get_device_metadata | op_get_device_status => "get"
  end.

(** The agent states a device operation runs in; the observatory
    operations have no such test. *)
Definition legal_states (op : Operation) : option (list AgentState.t) :=
  match op with
  | op_execute_device | op_set_device => Some [AgentState.OBSERVATORY_MODE]
  | op_execute_device_direct => Some [AgentState.DIRECT_ACCESS_MODE]
  | op_get_device | op_get_device_metadata | op_get_device_status =>
      Some [AgentState.OBSERVATORY_MODE; AgentState.IDLE; AgentState.STOPPED]
  | _ => None
  end.

Definition state_is_legal (op : Operation) (s : AgentState.t) : bool :=
  match legal_states op with
  | None => true
  | Some l => bool_decide (s ∈ l)
  end.

(** Whether the [except:] clause of the handler ends in [raise]:
    [op_get_device_metadata] and [op_get_device_status] alone do not. *)
Definition except_reraises (op : Operation) : bool :=
  match op with
  | op_get_device_metadata | op_get_device_status => false
  | _ => true
  end.

(** The reply dict [{'success', 'result', 'transaction_id'}]; a result is
    kept as the text of its value. *)
Record Reply : Set := mkReply {
  reply_success : option InstErrorCode.t;
  reply_result : option string;
  reply_transaction_id : option string
}.

(** What the [try:] block of a handler comes to: the [success] and [result]
    it computed from the agent, the state machine or the driver client, or
    an exception. *)
Inductive Body : Set :=
  | body_returns (success : option InstErrorCode.t) (result : option string)
  | body_raises.

(** What the statements of the [finally:] clause that stand before the
    transaction clean up come to: the publication of an error and, in
    [op_set_observatory], [json.dumps(config)] and the publication of the
    new configuration.  They end, or one of them raises. *)
Inductive Publishing : Set :=
  | publish_returns
  | publish_raises.

(** How a handler ends: by [reply_ok(msg, reply)], or with an exception
    leaving the handler. *)
Inductive Outcome : Set :=
  | replied (reply : Reply)
  | raised.

(** Where a handler stands once the preamble is done. *)
Inductive Entry : Set :=
  | entry_replied (reply : Reply)
  | entry_body (reply : Reply).

Section ProtectedOperations.

Variable uuid4 : nat -> N.

(** A handler up to its [try:]: set the flag, verify the transaction, test
    the agent state.  Both tests leave by [reply_ok] and [return]. *)
Definition op_enter (op : Operation) (tid : string) (a : Agent)
    : Entry * Agent :=
  let a := set_in_protected_function true a in
  let '(success, a) := _verify_transaction uuid4 tid (optype op) a in
  if InstErrorCode.is_error success then
    (entry_replied (mkReply (Some success) None None), a)
  else if negb (state_is_legal op (fsm_current_state a)) then
    (entry_replied
       (mkReply (Some InstErrorCode.INCORRECT_STATE) None (transaction_id a)),
     a)
  else (entry_body (mkReply None None (transaction_id a)), a).

(** The transaction clean up of the [finally:] clause.  [None] is the
    failed assertion of [_end_transaction] on a [transaction_id] of
    [None]; the flag is then not reset. *)
Definition op_cleanup (tid : string) (a : Agent) : option Agent :=
  if bool_decide (tid = "create") || _transaction_timed_out a then
    match transaction_id a with
    | Some current =>
        Some (set_in_protected_function false
                (_end_transaction uuid4 current a).2)
    | None => None
    end
  else Some (set_in_protected_function false a).

(** The ['success'] that the [else:] clause enters in the reply:
    [op_get_observatory_metadata] enters [NOT_IMPLEMENTED] whatever the
    body computed. *)
Definition else_success (op : Operation) (success : option InstErrorCode.t)
    : option InstErrorCode.t :=
  match op with
  | op_get_observatory_metadata => Some InstErrorCode.NOT_IMPLEMENTED
  | _ => success
  end.

(** Whether the [else:] clause enters ['result'] in the reply:
    [op_execute_observatory] and [op_get_observatory_metadata] do not. *)
Definition else_sets_result (op : Operation) : bool :=
  match op with
  | op_execute_observatory | op_get_observatory_metadata => false
  | _ => true
  end.

(** Whether the [finally:] clause may have something to publish before
    the clean up.  It has nothing when [success] is a code that [is_ok],
    except in [op_set_observatory], which publishes the configuration
    when a parameter was set.  After an exception of the body [success]
    is [UNKNOWN_ERROR], or it was never set. *)
Definition may_publish (op : Operation) (body : Body) : bool :=
  match body with
  | body_raises => true
  | body_returns success _ =>
      match else_success op success with
      | Some code => InstErrorCode.is_error code
      | None => true
      end || bool_decide (op = op_set_observatory)
  end.

(** The [finally:] clause is left by an exception before it reaches the
    clean up. *)
Definition finally_aborted (op : Operation) (body : Body)
    (publish : Publishing) : bool :=
  match publish with
  | publish_raises => may_publish op body
  | publish_returns => false
  end.

(** A handler from the end of its [try:] block: the [except:], [else:] and
    [finally:] clauses and the closing [reply_ok].  When a statement of
    the [finally:] clause raises before the clean up, the clean up is not
    run and the exception leaves the handler. *)
Definition op_leave (op : Operation) (tid : string) (reply : Reply)
    (body : Body) (publish : Publishing) (a : Agent) : Outcome * Agent :=
  let reply :=
    match body with
    | body_returns success result =>
        mkReply (else_success op success)
          (if else_sets_result op then result else reply_result reply)
          (reply_transaction_id reply)
    | body_raises => reply
    end in
  if finally_aborted op body publish then (raised, a)
  else
    match op_cleanup tid a with
    | None => (raised, a)
    | Some a =>
        match body with
        | body_raises =>
            if except_reraises op then (raised, a) else (replied reply, a)
        | body_returns _ _ => (replied reply, a)
        end
    end.

(** A handler run from start to end with nothing in between. *)
Definition run_op (op : Operation) (tid : string) (body : Body)
    (publish : Publishing) (a : Agent) : Outcome * Agent :=
  match op_enter op tid a with
  | (entry_replied reply, a) => (replied reply, a)
  | (entry_body reply, a) => op_leave op tid reply body publish a
  end.

End ProtectedOperations.

(** ** Driver life cycle and state handlers *)

(** What [self._driver_client.disconnect()] comes to. *)
Inductive DriverReply : Set :=
  | driver_raises
  | driver_replies (success : InstErrorCode.t).

(** The [result] of a state handler: nothing, or the description text of a
    code (the second component of the code in [instrument_constants.py]). *)
Inductive HandlerPayload : Set :=
  | no_result
  | description_of (code : InstErrorCode.t).

Definition HandlerResult : Set :=
  InstErrorCode.t * option AgentState.t * HandlerPayload.

Definition _condemn_driver (a : Agent) : Agent :=
  match _driver_pid a with
  | Some pid => set_driver None (_condemned_drivers a ++ [pid]) None a
  | None => a
  end.

(** [yield self._driver_client.disconnect()] inside [try:]; without a
    client the attribute lookup on [None] raises. *)
Definition client_disconnect (driver : DriverReply) (a : Agent)
    : DriverReply :=
  match _driver_client a with
  | Some _ => driver
  | None => driver_raises
  end.

(** The [GO_INACTIVE] branch, the same text in the four handlers. *)
Definition go_inactive (driver : DriverReply) (a : Agent)
    : HandlerResult * Agent :=
  match client_disconnect driver a with
  | driver_raises => ((InstErrorCode.DRIVER_CONNECT_FAILED, None, no_result), a)
  | driver_replies success =>
      if InstErrorCode.is_ok success
      then ((success, Some AgentState.INACTIVE, no_result), a)
      else ((success, None, no_result), a)
  end.

(** The [RESET] branch; the handlers differ in the code [failed] of the
    [except:] clause only. *)
Definition reset (failed : InstErrorCode.t) (driver : DriverReply) (a : Agent)
    : HandlerResult * Agent :=
  match client_disconnect driver a with
  | driver_raises => ((failed, None, no_result), a)
  | driver_replies success =>
      if InstErrorCode.is_ok success then
        let a := _condemn_driver a in
        match _driver_pid a with
        | None => ((success, Some AgentState.UNINITIALIZED, no_result), a)
        | Some _ =>
            ((InstErrorCode.AGENT_DEINIT_FAILED, Some AgentState.INACTIVE,
              no_result), a)
        end
      else ((success, None, no_result), a)
  end.

Definition state_handler_stopped (event : AgentEvent.t) (driver : DriverReply)
    (a : Agent) : HandlerResult * Agent :=
  match event with
  | AgentEvent.ENTER | AgentEvent.EXIT =>
      ((InstErrorCode.OK, None, no_result), a)
  | AgentEvent.CLEAR =>
      ((InstErrorCode.OK, Some AgentState.IDLE, no_result), a)
  | AgentEvent.RESUME =>
      ((InstErrorCode.OK, Some AgentState.OBSERVATORY_MODE, no_result), a)
  | AgentEvent.GO_INACTIVE => go_inactive driver a
  | AgentEvent.RESET => reset InstErrorCode.DRIVER_CONNECT_FAILED driver a
  | _ => ((InstErrorCode.INCORRECT_STATE, None, no_result), a)
  end.

Definition state_handler_idle (event : AgentEvent.t) (driver : DriverReply)
    (a : Agent) : HandlerResult * Agent :=
  match event with
  | AgentEvent.ENTER | AgentEvent.EXIT =>
      ((InstErrorCode.OK, None, no_result), a)
  | AgentEvent.GO_INACTIVE => go_inactive driver a
  | AgentEvent.RESET => reset InstErrorCode.DRIVER_CONNECT_FAILED driver a
  | AgentEvent.RUN =>
      ((InstErrorCode.OK, Some AgentState.OBSERVATORY_MODE, no_result), a)
  | _ => ((InstErrorCode.INCORRECT_STATE, None, no_result), a)
  end.

Definition state_handler_observatory_mode (event : AgentEvent.t)
    (driver : DriverReply) (a : Agent) : HandlerResult * Agent :=
  match event with
  | AgentEvent.ENTER | AgentEvent.EXIT =>
      ((InstErrorCode.OK, None, no_result), a)
  | AgentEvent.CLEAR =>
      ((InstErrorCode.OK, Some AgentState.IDLE, no_result), a)
  | AgentEvent.PAUSE =>
      ((InstErrorCode.OK, Some AgentState.STOPPED, no_result), a)
  | AgentEvent.GO_DIRECT_ACCESS_MODE =>
      ((InstErrorCode.OK, Some AgentState.DIRECT_ACCESS_MODE, no_result), a)
  | AgentEvent.GO_INACTIVE => go_inactive driver a
  | AgentEvent.RESET => reset InstErrorCode.DRIVER_DISCONNECT_FAILED driver a
  | _ => ((InstErrorCode.INCORRECT_STATE, None, no_result), a)
  end.

(** On [ENTER] the handler takes [success] and [result] from
    [_LaunchSoCat], which answers with the two components of
    [NOT_IMPLEMENTED]. *)
Definition state_handler_direct_access_mode (event : AgentEvent.t)
    (driver : DriverReply) (a : Agent) : HandlerResult * Agent :=
  match event with
  | AgentEvent.ENTER =>
      ((InstErrorCode.NOT_IMPLEMENTED, None,
        description_of InstErrorCode.NOT_IMPLEMENTED), a)
  | AgentEvent.EXIT => ((InstErrorCode.OK, None, no_result), a)
  | AgentEvent.GO_OBSERVATORY_MODE =>
      ((InstErrorCode.OK, Some AgentState.OBSERVATORY_MODE, no_result), a)
  | AgentEvent.GO_INACTIVE => go_inactive driver a
  | AgentEvent.RESET => reset InstErrorCode.DRIVER_CONNECT_FAILED driver a
  | _ => ((InstErrorCode.INCORRECT_STATE, None, no_result), a)
  end.

(** The states whose handler disconnects the driver on [RESET], and their
    entries in [_state_handlers]. *)
Definition disconnecting_states : list AgentState.t :=
  [ AgentState.IDLE; AgentState.STOPPED; AgentState.OBSERVATORY_MODE;
    AgentState.DIRECT_ACCESS_MODE ].

Definition _state_handlers (s : AgentState.t)
    : option (AgentEvent.t -> DriverReply -> Agent -> HandlerResult * Agent) :=
  match s with
  | AgentState.IDLE => Some state_handler_idle
  | AgentState.STOPPED => Some state_handler_stopped
  | AgentState.OBSERVATORY_MODE => Some state_handler_observatory_mode
  | AgentState.DIRECT_ACCESS_MODE => Some state_handler_direct_access_mode
  | _ => None
  end.

(** ** Runs of the agent *)

(** What happens to an agent, one reactor turn at a time: the two
    transaction operations ([op_start_transaction] and
    [op_end_transaction] hand their arguments to [_request_transaction]
    and [_end_transaction]), a delayed call coming due, and a protected
    operation reaching its [try:] block or its [finally:] clause. *)
Inductive Event : Set :=
  | ev_request_transaction (acq_timeout exp_timeout : option N)
      (requester : string)
  | ev_end_transaction (tid : string)
  | ev_timer (c : DelayedCall)
  | ev_op_enter (op : Operation) (tid : string)
  | ev_op_cleanup (tid : string).

Section Runs.

Variable uuid4 : nat -> N.

Definition step (e : Event) (a : Agent) : Agent :=
  match e with
  | ev_request_transaction acq_timeout exp_timeout requester =>
      (_request_transaction uuid4 acq_timeout exp_timeout requester a).2
  | ev_end_transaction tid => (_end_transaction uuid4 tid a).2
  | ev_timer c => reactor_fire uuid4 c a
  | ev_op_enter op tid => (op_enter uuid4 op tid a).2
  | ev_op_cleanup tid => default a (op_cleanup uuid4 tid a)
  end.

Definition run (events : list Event) (a : Agent) : Agent :=
  foldl (fun a e => step e a) a events.

End Runs.

(** Events that are not the end of the current transaction by its holder
    and not the end of a protected operation: what may go on around an
    operation that is still running. *)
Definition bystander (tid : string) (e : Event) : Prop :=
  match e with
  | ev_request_transaction _ _ _ => True
  | ev_end_transaction tid' => tid' ≠ tid
  | ev_timer _ => True
  | ev_op_enter _ _ => False
  | ev_op_cleanup _ => False
  end.

(** The same, and the operations of callers who do not give the token
    [tid]: on an agent whose transaction is [tid] these are refused. *)
Definition onlooker (tid : string) (e : Event) : Prop :=
  match e with
  | ev_request_transaction _ _ _ => True
  | ev_end_transaction tid' => tid' ≠ tid
  | ev_timer _ => True
  | ev_op_enter _ tid' => tid' ≠ tid
  | ev_op_cleanup _ => False
  end.

(** How often the deferred [d] has fired. *)
Definition fired_times (d : Deferred) (fired : list (Deferred * Grant))
    : nat :=
  length (filter (fun e => e.1 = d) fired).

Definition fired_count (d : Deferred) (a : Agent) : nat :=
  fired_times d (deferred_fired a).

(** The deferred [d] waits in [_pending_transactions]. *)
Definition waiting (d : Deferred) (pending : list Pending) : Prop :=
  d ∈ pending_d <$> pending.

Definition is_pending (d : Deferred) (a : Agent) : Prop :=
  waiting d (_pending_transactions a).

(** The state invariant of the transaction manager, in two parts.  The
    first relates the transaction attributes to the delayed calls of the
    reactor:
    - the current token has 36 characters;
    - the active calls were numbered before [next];
    - [_transaction_timeout_call] is an active expiration timer;
    - an active expiration timer is [_transaction_timeout_call], and a
      transaction is current;
    - the acquisition timer of every queued entry is active;
    - no deferred is queued twice;
    - [_transaction_timed_out] is set only while a transaction is current
      whose timer is spent. *)
Record timers_ok (tid : option string) (timed_out : bool)
    (timeout_call : option DelayedCall) (pending : list Pending)
    (calls : gmap nat (N * Callback)) (next : nat) : Prop := mk_timers_ok {
  ok_token : forall t, tid = Some t -> String.length t = 36;
  ok_calls_fresh : forall c, is_Some (calls !! c) -> c < next;
  ok_calls_active :
    forall c, timeout_call = Some c ->
      exists delay, calls !! c = Some (delay, cb_transaction_expired);
  ok_expiration :
    forall c delay, calls !! c = Some (delay, cb_transaction_expired) ->
      timeout_call = Some c /\ is_Some tid;
  ok_pending_calls :
    forall item, item ∈ pending ->
      exists delay,
        calls !! pending_call item =
          Some (delay, cb_acquisition_timeout (pending_d item));
  ok_pending_nodup : NoDup (pending_d <$> pending);
  ok_timed_out : timed_out = true -> is_Some tid /\ timeout_call = None
}.

(** The second part relates the queue to the deferreds:
    - requests wait only while a transaction is current;
    - the deferreds that fired or wait were created;
    - a deferred fired once and does not wait, or waits and did not
      fire. *)
Record deferreds_ok (tid : option string) (pending : list Pending)
    (fired : list (Deferred * Grant)) (count : nat) : Prop := mk_deferreds_ok {
  ok_pending_locked : pending <> [] -> is_Some tid;
  ok_fired_fresh : forall d v, (d, v) ∈ fired -> d < count;
  ok_pending_fresh : forall item, item ∈ pending -> pending_d item < count;
  ok_once :
    forall d, d < count ->
      (fired_times d fired = 1 /\ ~ waiting d pending) \/
      (fired_times d fired = 0 /\ waiting d pending)
}.

Definition Inv (a : Agent) : Prop :=
  timers_ok (transaction_id a) (_transaction_timed_out a)
    (_transaction_timeout_call a) (_pending_transactions a)
    (reactor_calls a) (reactor_next_call a) /\
  deferreds_ok (transaction_id a) (_pending_transactions a)
    (deferred_fired a) (deferred_count a).

(** The two ways a queued request is answered. *)
Definition grant_or_timeout (v : Grant) : Prop :=
  v = (InstErrorCode.TIMEOUT, None) \/
  exists token, v = (InstErrorCode.OK, Some token).

(** The delayed calls once the expiration timer of the current transaction
    is cancelled, if there is one. *)
Definition without_expiration_timer (a : Agent) : gmap nat (N * Callback) :=
  match _transaction_timeout_call a with
  | Some call => delete call (reactor_calls a)
  | None => reactor_calls a
  end.

(** A UUID source for the examples. *)
Definition sample_uuid4 (n : nat) : N := (N.of_nat n * 2 ^ 64 + 7)%N.

(** An agent in [IDLE] whose driver runs as process 42. *)
Definition idle_agent : Agent :=
  mkAgent (Some 42) [] (Some 42) None false None [] 60 1 300 1800 false
    AgentState.IDLE ∅ 0 0 [] 0.

(** The same agent in [OBSERVATORY_MODE]. *)
Definition observatory_agent : Agent :=
  mkAgent (Some 42) [] (Some 42) None false None [] 60 1 300 1800 false
    AgentState.OBSERVATORY_MODE ∅ 0 0 [] 0.


(** ** Configuration *)

(** The four timeouts of the agent: [_max_acq_timeout],
    [_min_exp_timeout], [_default_exp_timeout] and [_max_exp_timeout]. *)
Definition timeouts (a : Agent) : N * N * N * N :=
  (_max_acq_timeout a, _min_exp_timeout a, _default_exp_timeout a,
   _max_exp_timeout a).

(** A delayed call whose delay is within the timeouts of the agent: an
    expiration timer lasts from [_min_exp_timeout] to [_max_exp_timeout],
    an acquisition timer more than 0 and at most [_max_acq_timeout]. *)
Definition delay_in_bounds (a : Agent) (call : N * Callback) : Prop :=
  match call.2 with
  | cb_transaction_expired =>
      (_min_exp_timeout a <= call.1 <= _max_exp_timeout a)%N
  | cb_acquisition_timeout _ => (0 < call.1 <= _max_acq_timeout a)%N
  end.


(** ** The agent as a process

    The attributes of the agent beside those of the transaction manager,
    which stay in [core], together with what the agent inherits from
    [Process] and the events it has published. *)

(** A [ProcessDesc] of [child_procs], as far as the agent reads it.  The
    descriptions are Python objects compared by identity; two of them are
    taken to differ in [proc_id] or [proc_name]. *)
Record ProcessDesc : Set := mkProcessDesc {
  proc_id : nat;
  proc_name : string
}.

#[global] Instance ProcessDesc_eq_dec : EqDecision ProcessDesc.
Proof. solve_decision. Defined.

(** An entry [val] of the capabilities of the driver: [val[0]] is a code. *)
Definition Capability : Set := InstErrorCode.t * string.

(** A data sample, by its JSON text. *)
Abbreviation Sample := string (only parsing).

(** A Python value as far as the agent tests it: an [int] (a [bool] is
    one), a [str], a [dict] by its keys, [None], or anything else. *)
Inductive PyValue : Set :=
  | py_int (z : Z)
  | py_str (s : string)
  | py_dict (keys : list string)
  | py_none
  | py_other.

#[global] Instance PyValue_eq_dec : EqDecision PyValue.
Proof. solve_decision. Defined.

(** The members of [AgentParameter] that the agent names.  Modelled from
    the uses in [instrument_agent.py]: [instrument_constants.py] is not
    part of the sources at hand. *)
Module AgentParameter.

Inductive t : Set :=
  | EVENT_PUBLISHER_ORIGIN
  | DRIVER_DESC
  | DRIVER_CLIENT_DESC
  | DRIVER_CONFIG
  | TIME_SOURCE
  | CONNECTION_METHOD
  | MAX_ACQ_TIMEOUT
  | DEFAULT_EXP_TIMEOUT
  | MAX_EXP_TIMEOUT
  | BUFFER_SIZE
  | ALL.

#[global] Instance eq_dec : EqDecision t.
Proof. solve_decision. Defined.

End AgentParameter.

(** An event of [_log_publisher]: an error of an operation, the
    configuration of the agent, left over samples on a state change of
    the driver, or a changed configuration of the driver. *)
Inductive LogEvent : Set :=
  | log_error (operation : string) (code : InstErrorCode.t)
  | log_parameters (config : list (AgentParameter.t * PyValue))
  | log_samples (transducer : option string) (samples : list Sample)
  | log_config (transducer : string) (config : list (string * string)).

Record InstrumentAgent : Type := mkInstrumentAgent {
  core : Agent;
  event_publisher_origin : string;
  (* inherited from Process; every shutdown_child(item) made *)
  child_procs : list ProcessDesc;
  shutdown_child_calls : list ProcessDesc;
  (* the keys of the description dicts, None when there is none *)
  _driver_desc : option (list string);
  _client_desc : option (list string);
  _driver_config : option (list string);
  _device_capabilities : gmap string Capability;
  _time_source : string;
  _connection_method : string;
  _data_buffer : list Sample;
  _data_buffer_limit : N;
  _prev_data_transducer : option string;
  (* the events of _data_publisher and of _log_publisher *)
  data_published : list (string * list Sample);
  log_published : list LogEvent
}.

Definition set_core (a : Agent) (p : InstrumentAgent) : InstrumentAgent :=
  mkInstrumentAgent a (event_publisher_origin p) (child_procs p)
    (shutdown_child_calls p)
    (_driver_desc p) (_client_desc p) (_driver_config p)
    (_device_capabilities p) (_time_source p) (_connection_method p)
    (_data_buffer p) (_data_buffer_limit p) (_prev_data_transducer p)
    (data_published p) (log_published p).

Definition set_children (children shut : list ProcessDesc)
    (p : InstrumentAgent) : InstrumentAgent :=
  mkInstrumentAgent (core p) (event_publisher_origin p) children shut
    (_driver_desc p) (_client_desc p) (_driver_config p)
    (_device_capabilities p) (_time_source p) (_connection_method p)
    (_data_buffer p) (_data_buffer_limit p) (_prev_data_transducer p)
    (data_published p) (log_published p).

Definition set_device_capabilities (caps : gmap string Capability)
    (p : InstrumentAgent) : InstrumentAgent :=
  mkInstrumentAgent (core p) (event_publisher_origin p) (child_procs p)
    (shutdown_child_calls p)
    (_driver_desc p) (_client_desc p) (_driver_config p)
    caps (_time_source p) (_connection_method p)
    (_data_buffer p) (_data_buffer_limit p) (_prev_data_transducer p)
    (data_published p) (log_published p).

(** The agent process as [plc_init] leaves it, started without spawn
    arguments. *)
Definition process_init : InstrumentAgent :=
  mkInstrumentAgent plc_init "agent" [] [] None None None ∅ "NOT_SPECIFIED"
    "NOT_SPECIFIED" [] 0 None [] [].

(** ** Driver life cycle *)

(** [_stop_condemned_drivers]: the loop over [child_procs], with the list
    [new_children] it builds and the calls of [shutdown_child] it makes. *)
Fixpoint _stop_condemned_drivers_loop (condemned : list nat)
    (items new_children shut : list ProcessDesc)
    : list ProcessDesc * list ProcessDesc :=
  match items with
  | [] => (new_children, shut)
  | item :: items =>
      if decide (proc_id item ∈ condemned)
      then _stop_condemned_drivers_loop condemned items new_children
             (shut ++ [item])
      else _stop_condemned_drivers_loop condemned items
             (new_children ++ [item]) shut
  end.

Definition _stop_condemned_drivers (p : InstrumentAgent) : InstrumentAgent :=
  let r :=
    _stop_condemned_drivers_loop (_condemned_drivers (core p))
      (child_procs p) [] (shutdown_child_calls p) in
  set_children r.1 r.2 p.

(** [child_procs.remove(item)]. *)
Fixpoint remove_child (item : ProcessDesc) (l : list ProcessDesc)
    : list ProcessDesc :=
  match l with
  | [] => []
  | x :: l' => if decide (x = item) then l' else x :: remove_child item l'
  end.

(** The loop of [_stop_driver], which removes from [child_procs] while it
    runs over it: the loop goes by position over the list as its body
    leaves it. *)
Fixpoint _stop_driver_loop (fuel i pid : nat)
    (children shut : list ProcessDesc)
    : list ProcessDesc * list ProcessDesc :=
  match fuel with
  | O => (children, shut)
  | S fuel' =>
      match children !! i with
      | None => (children, shut)
      | Some item =>
          if decide (proc_id item = pid)
          then _stop_driver_loop fuel' (S i) pid (remove_child item children)
                 (shut ++ [item])
          else _stop_driver_loop fuel' (S i) pid children shut
      end
  end.

Definition _stop_driver (p : InstrumentAgent) : InstrumentAgent :=
  match _driver_pid (core p) with
  | Some pid =>
      let r :=
        _stop_driver_loop (length (child_procs p)) 0 pid (child_procs p)
          (shutdown_child_calls p) in
      set_core (set_driver None (_condemned_drivers (core p)) None (core p))
        (set_children r.1 r.2 p)
  | None => p
  end.

(** What the [ProcessDesc] built from [_driver_desc] and [spawn_child] come to:
    an [ImportError], another exception, or the id of the new process and
    [child_procs] as [spawn_child] leaves it. *)
Inductive SpawnOutcome : Set :=
  | spawn_import_error
  | spawn_raises
  | spawned (pid : nat) (children : list ProcessDesc).

(** What the two [exec] statements that build the client come to.  The
    clause [except ImportError, NameError:] catches an [ImportError] only
    and binds it to the name [NameError]; a [NameError] is one of the
    other exceptions, which stop the driver and are raised again. *)
Inductive ClientOutcome : Set :=
  | client_import_error
  | client_raises
  | client_constructed (client : nat).

(** The test on the two description dicts at the head of
    [_start_driver]. *)
Definition described (p : InstrumentAgent) : bool :=
  match _client_desc p, _driver_desc p with
  | Some (c :: cs), Some (d :: ds) =>
      bool_decide ("module" ∈ c :: cs) && bool_decide ("class" ∈ c :: cs) &&
      bool_decide ("module" ∈ d :: ds) && bool_decide ("class" ∈ d :: ds) &&
      bool_decide ("name" ∈ d :: ds)
  | _, _ => false
  end.

(** [_start_driver]: whether it raises, and the agent afterwards. *)
Definition _start_driver (spawn : SpawnOutcome) (client : ClientOutcome)
    (p : InstrumentAgent) : bool * InstrumentAgent :=
  if described p then
    match spawn with
    | spawn_raises => (true, p)
    | spawn_import_error => (false, p)
    | spawned pid children =>
        let p :=
          set_core
            (set_driver (Some pid) (_condemned_drivers (core p))
               (_driver_client (core p)) (core p))
            (set_children children (shutdown_child_calls p) p) in
        match client with
        | client_import_error => (false, _stop_driver p)
        | client_raises => (true, _stop_driver p)
        | client_constructed c =>
            (false,
             set_core
               (set_driver (Some pid) (_condemned_drivers (core p)) (Some c)
                  (core p)) p)
        end
    end
  else (false, p).

(** ** The state handlers of the agent process *)

(** What the driver and the container do when a handler turns to them. *)
Record Driver : Set := mkDriver {
  disconnect : DriverReply;
  configure : DriverReply;
  connect : DriverReply;
  (* reply['result'] of get_capabilities by items, None when it raises *)
  get_capabilities : option (list (string * Capability));
  spawn_child : SpawnOutcome;
  construct_client : ClientOutcome
}.

Inductive Payload : Set :=
  | payload_none
  | payload_description (code : InstErrorCode.t)
  | payload_capabilities (result : list (string * Capability)).

(** What a handler returns, [None] when it raises. *)
Definition Handled : Set :=
  option (InstErrorCode.t * option AgentState.t * Payload).

Definition state_handler_powered_down (event : AgentEvent.t)
    (driver : Driver) (p : InstrumentAgent) : Handled * InstrumentAgent :=
  match event with
  | AgentEvent.ENTER | AgentEvent.EXIT =>
      (Some (InstErrorCode.OK, None, payload_none), p)
  | _ => (Some (InstErrorCode.INCORRECT_STATE, None, payload_none), p)
  end.

Definition state_handler_uninitialized (event : AgentEvent.t)
    (driver : Driver) (p : InstrumentAgent) : Handled * InstrumentAgent :=
  match event with
  | AgentEvent.ENTER | AgentEvent.EXIT =>
      (Some (InstErrorCode.OK, None, payload_none), p)
  | AgentEvent.INITIALIZE =>
      let p := _stop_condemned_drivers p in
      match _start_driver (spawn_child driver) (construct_client driver) p with
      | (true, p) => (None, p)
      | (false, p) =>
          match _driver_pid (core p) with
          | Some _ =>
              (Some (InstErrorCode.OK, Some AgentState.INACTIVE,
                     payload_none), p)
          | None =>
              (Some (InstErrorCode.AGENT_INIT_FAILED, None, payload_none), p)
          end
      end
  | AgentEvent.RESET =>
      (Some (InstErrorCode.OK, Some AgentState.UNINITIALIZED, payload_none),
       p)
  | _ => (Some (InstErrorCode.INCORRECT_STATE, None, payload_none), p)
  end.

(** The loop of the [ENTER] branch of [state_handler_inactive] over the
    items of the reply. *)
Definition read_capabilities (result : list (string * Capability))
    : gmap string Capability :=
  foldl (fun caps item =>
           if InstErrorCode.is_ok item.2.1 then <[item.1 := item.2]> caps
           else caps) ∅ result.

Definition state_handler_inactive (event : AgentEvent.t)
    (driver : Driver) (p : InstrumentAgent) : Handled * InstrumentAgent :=
  match event with
  | AgentEvent.ENTER =>
      let p := set_device_capabilities ∅ p in
      match _driver_client (core p), get_capabilities driver with
      | Some _, Some result =>
          (Some (InstErrorCode.OK, None, payload_capabilities result),
           set_device_capabilities (read_capabilities result) p)
      | _, _ => (Some (InstErrorCode.OK, None, payload_none), p)
      end
  | AgentEvent.EXIT => (Some (InstErrorCode.OK, None, payload_none), p)
  | AgentEvent.RESET =>
      let p := _stop_driver p in
      match _driver_pid (core p) with
      | None =>
          (Some (InstErrorCode.OK, Some AgentState.UNINITIALIZED,
                 payload_none), p)
      | Some _ =>
          (Some (InstErrorCode.AGENT_DEINIT_FAILED, None, payload_none), p)
      end
  | AgentEvent.INITIALIZE =>
      (Some (InstErrorCode.OK, Some AgentState.INACTIVE, payload_none), p)
  | AgentEvent.GO_ACTIVE =>
      match client_disconnect (configure driver) (core p) with
      | driver_raises => (None, p)
      | driver_replies success =>
          if InstErrorCode.is_ok success then
            match connect driver with
            | driver_raises =>
                (Some (InstErrorCode.DRIVER_CONNECT_FAILED, None,
                       payload_none), p)
            | driver_replies success =>
                if InstErrorCode.is_ok success
                then (Some (success, Some AgentState.IDLE, payload_none), p)
                else (Some (success, None, payload_none), p)
            end
          else (Some (success, None, payload_none), p)
      end
  | _ => (Some (InstErrorCode.INCORRECT_STATE, None, payload_none), p)
  end.

(** The handlers of the four active states, which read and write the
    attributes of [core] only. *)
Definition on_core
    (handler : AgentEvent.t -> DriverReply -> Agent -> HandlerResult * Agent)
    (event : AgentEvent.t) (driver : Driver) (p : InstrumentAgent)
    : Handled * InstrumentAgent :=
  let r := handler event (disconnect driver) (core p) in
  (Some (r.1.1.1, r.1.1.2,
         match r.1.2 with
         | no_result => payload_none
         | description_of code => payload_description code
         end),
   set_core r.2 p).

(** The dict [_state_handlers] of [plc_init], all seven entries. *)
Definition _state_handlers_of_process (s : AgentState.t)
    : option (AgentEvent.t -> Driver -> InstrumentAgent ->
              Handled * InstrumentAgent) :=
  match s with
  | AgentState.POWERED_DOWN => Some state_handler_powered_down
  | AgentState.UNINITIALIZED => Some state_handler_uninitialized
  | AgentState.INACTIVE => Some state_handler_inactive
  | s => on_core <$> _state_handlers s
  end.

(** The driver process and its client are there together or not at all. *)
Definition driver_paired (p : InstrumentAgent) : Prop :=
  is_Some (_driver_pid (core p)) <-> is_Some (_driver_client (core p)).

(** An agent in [INACTIVE] whose driver runs as process 42. *)
Definition inactive_agent : Agent :=
  mkAgent (Some 42) [] (Some 42) None false None [] 60 1 300 1800 false
    AgentState.INACTIVE ∅ 0 0 [] 0.

(** The agent process started with driver and client descriptions. *)
Definition described_process : InstrumentAgent :=
  mkInstrumentAgent plc_init "agent" [] []
    (Some ["module"; "class"; "name"]) (Some ["module"; "class"]) None ∅
    "NOT_SPECIFIED" "NOT_SPECIFIED" [] 0 None [] [].

(** ** Observatory parameters *)

Definition set_timeouts (max_acq default_exp max_exp : N) (a : Agent)
    : Agent :=
  mkAgent (_driver_pid a) (_condemned_drivers a) (_driver_client a)
    (transaction_id a) (_transaction_timed_out a) (_transaction_timeout_call a)
    (_pending_transactions a) max_acq (_min_exp_timeout a) default_exp max_exp
    (_in_protected_function a) (fsm_current_state a) (reactor_calls a)
    (reactor_next_call a) (deferred_count a) (deferred_fired a) (uuid_draws a).

Definition set_descriptions (driver_desc client_desc driver_config :
    option (list string)) (p : InstrumentAgent) : InstrumentAgent :=
  mkInstrumentAgent (core p) (event_publisher_origin p) (child_procs p)
    (shutdown_child_calls p) driver_desc client_desc driver_config
    (_device_capabilities p) (_time_source p) (_connection_method p)
    (_data_buffer p) (_data_buffer_limit p) (_prev_data_transducer p)
    (data_published p) (log_published p).

Definition set_sources (time_source connection_method : string)
    (p : InstrumentAgent) : InstrumentAgent :=
  mkInstrumentAgent (core p) (event_publisher_origin p) (child_procs p)
    (shutdown_child_calls p) (_driver_desc p) (_client_desc p)
    (_driver_config p) (_device_capabilities p) time_source connection_method
    (_data_buffer p) (_data_buffer_limit p) (_prev_data_transducer p)
    (data_published p) (log_published p).

Definition set_data_buffer (buffer : list Sample) (limit : N)
    (transducer : option string) (p : InstrumentAgent) : InstrumentAgent :=
  mkInstrumentAgent (core p) (event_publisher_origin p) (child_procs p)
    (shutdown_child_calls p) (_driver_desc p) (_client_desc p)
    (_driver_config p) (_device_capabilities p) (_time_source p)
    (_connection_method p) buffer limit transducer
    (data_published p) (log_published p).

Definition set_published (data : list (string * list Sample))
    (log : list LogEvent) (p : InstrumentAgent) : InstrumentAgent :=
  mkInstrumentAgent (core p) (event_publisher_origin p) (child_procs p)
    (shutdown_child_calls p) (_driver_desc p) (_client_desc p)
    (_driver_config p) (_device_capabilities p) (_time_source p)
    (_connection_method p) (_data_buffer p) (_data_buffer_limit p)
    (_prev_data_transducer p) data log.

(** A key [arg] of the request, by what [AgentParameter.has(arg)] and
    the comparisons of the handlers make of it: not a parameter, one of
    the parameters the agent names, or another member of
    [AgentParameter]. *)
Inductive Arg : Set :=
  | not_a_parameter (name : string)
  | parameter (x : AgentParameter.t)
  | other_parameter (name : string).

#[global] Instance Arg_eq_dec : EqDecision Arg.
Proof. solve_decision. Defined.

(** [d[k] = v] on a dict kept in the order of its keys. *)
Fixpoint dict_set {K V : Type} `{EqDecision K} (k : K) (v : V)
    (d : list (K * V)) : list (K * V) :=
  match d with
  | [] => [(k, v)]
  | (k', v') :: d' =>
      if decide (k' = k) then (k, v) :: d' else (k', v') :: dict_set k v d'
  end.

(** A description dict as a value. *)
Definition desc_value (desc : option (list string)) : PyValue :=
  match desc with
  | Some keys => py_dict keys
  | None => py_none
  end.

Definition _get_parameters (p : InstrumentAgent)
    : list (AgentParameter.t * PyValue) :=
  let params := [] in
  let params :=
    dict_set AgentParameter.EVENT_PUBLISHER_ORIGIN
      (py_str (event_publisher_origin p)) params in
  let params :=
    dict_set AgentParameter.TIME_SOURCE (py_str (_time_source p)) params in
  let params :=
    dict_set AgentParameter.CONNECTION_METHOD
      (py_str (_connection_method p)) params in
  let params :=
    dict_set AgentParameter.MAX_ACQ_TIMEOUT
      (py_int (Z.of_N (_max_acq_timeout (core p)))) params in
  let params :=
    dict_set AgentParameter.DEFAULT_EXP_TIMEOUT
      (py_int (Z.of_N (_default_exp_timeout (core p)))) params in
  let params :=
    dict_set AgentParameter.MAX_EXP_TIMEOUT
      (py_int (Z.of_N (_max_exp_timeout (core p)))) params in
  let params :=
    dict_set AgentParameter.DRIVER_DESC (desc_value (_driver_desc p))
      params in
  let params :=
    dict_set AgentParameter.DRIVER_CLIENT_DESC (desc_value (_client_desc p))
      params in
  let params :=
    dict_set AgentParameter.DRIVER_CONFIG (desc_value (_driver_config p))
      params in
  let params :=
    dict_set AgentParameter.BUFFER_SIZE
      (py_int (Z.of_N (_data_buffer_limit p))) params in
  params.

Section Observatory.

(** The values of [TimeSource] and of [ConnectionMethod], two
    enumerations of [instrument_constants.py]. *)
Variable time_sources connection_methods : list string.

Definition TimeSource_has (val : PyValue) : bool :=
  match val with
  | py_str s => bool_decide (s ∈ time_sources)
  | _ => false
  end.

Definition ConnectionMethod_has (val : PyValue) : bool :=
  match val with
  | py_str s => bool_decide (s ∈ connection_methods)
  | _ => false
  end.

(** The variables of the loop of [op_set_observatory]. *)
Record SetLoop : Type := mkSetLoop {
  set_agent : InstrumentAgent;
  set_result : list (Arg * InstErrorCode.t);
  set_errors : bool;
  set_successes : bool
}.

(** The value is stored: [result[arg] = OK] and [set_successes]. *)
Definition stored (arg : Arg) (p : InstrumentAgent) (st : SetLoop)
    : SetLoop :=
  mkSetLoop p (dict_set arg InstErrorCode.OK (set_result st))
    (set_errors st) true.

(** The value is refused with [set_errors]. *)
Definition refused (arg : Arg) (code : InstErrorCode.t) (st : SetLoop)
    : SetLoop :=
  mkSetLoop (set_agent st) (dict_set arg code (set_result st)) true
    (set_successes st).

(** [result[arg] = code] and nothing else. *)
Definition noted (arg : Arg) (code : InstErrorCode.t) (st : SetLoop)
    : SetLoop :=
  mkSetLoop (set_agent st) (dict_set arg code (set_result st))
    (set_errors st) (set_successes st).

(** One turn of the loop of [op_set_observatory]. *)
Definition set_observatory_arg (arg : Arg) (val : PyValue) (st : SetLoop)
    : SetLoop :=
  let p := set_agent st in
  let a := core p in
  match arg with
  | not_a_parameter _ => refused arg InstErrorCode.INVALID_PARAMETER st
  | other_parameter _ => st
  | parameter AgentParameter.DRIVER_DESC =>
      match val with
      | py_dict keys =>
          stored arg
            (set_descriptions (Some keys) (_client_desc p) (_driver_config p)
               p) st
      | _ => refused arg InstErrorCode.INVALID_PARAM_VALUE st
      end
  | parameter AgentParameter.DRIVER_CLIENT_DESC =>
      match val with
      | py_dict keys =>
          stored arg
            (set_descriptions (_driver_desc p) (Some keys) (_driver_config p)
               p) st
      | _ => refused arg InstErrorCode.INVALID_PARAM_VALUE st
      end
  | parameter AgentParameter.DRIVER_CONFIG =>
      match val with
      | py_dict keys =>
          stored arg
            (set_descriptions (_driver_desc p) (_client_desc p) (Some keys)
               p) st
      | _ => refused arg InstErrorCode.INVALID_PARAM_VALUE st
      end
  | parameter AgentParameter.TIME_SOURCE =>
      match val with
      | py_str s =>
          if TimeSource_has val then
            if decide (s ≠ _time_source p)
            then stored arg (set_sources s (_connection_method p) p) st
            else noted arg InstErrorCode.OK st
          else refused arg InstErrorCode.INVALID_PARAM_VALUE st
      | _ => refused arg InstErrorCode.INVALID_PARAM_VALUE st
      end
  | parameter AgentParameter.CONNECTION_METHOD =>
      match val with
      | py_str s =>
          if ConnectionMethod_has val then
            if decide (s ≠ _connection_method p)
            then stored arg (set_sources (_time_source p) s p) st
            else noted arg InstErrorCode.OK st
          else noted arg InstErrorCode.INVALID_PARAM_VALUE st
      | _ => noted arg InstErrorCode.INVALID_PARAM_VALUE st
      end
  | parameter AgentParameter.MAX_ACQ_TIMEOUT =>
      match val with
      | py_int z =>
          if (0 <=? z)%Z then
            stored arg
              (set_core
                 (set_timeouts (Z.to_N z) (_default_exp_timeout a)
                    (_max_exp_timeout a) a) p) st
          else refused arg InstErrorCode.INVALID_PARAM_VALUE st
      | _ => refused arg InstErrorCode.INVALID_PARAM_VALUE st
      end
  | parameter AgentParameter.DEFAULT_EXP_TIMEOUT =>
      match val with
      | py_int z =>
          if (Z.of_N (_min_exp_timeout a) <=? z)%Z &&
             (z <=? Z.of_N (_max_exp_timeout a))%Z then
            stored arg
              (set_core
                 (set_timeouts (_max_acq_timeout a) (Z.to_N z)
                    (_max_exp_timeout a) a) p) st
          else refused arg InstErrorCode.INVALID_PARAM_VALUE st
      | _ => refused arg InstErrorCode.INVALID_PARAM_VALUE st
      end
  | parameter AgentParameter.MAX_EXP_TIMEOUT =>
      match val with
      | py_int z =>
          if (Z.of_N (_min_exp_timeout a) <? z)%Z then
            stored arg
              (set_core
                 (set_timeouts (_max_acq_timeout a) (_default_exp_timeout a)
                    (Z.to_N z) a) p) st
          else refused arg InstErrorCode.INVALID_PARAM_VALUE st
      | _ => refused arg InstErrorCode.INVALID_PARAM_VALUE st
      end
  | parameter AgentParameter.BUFFER_SIZE =>
      match val with
      | py_int z =>
          if (0 <=? z)%Z then
            stored arg
              (set_data_buffer (_data_buffer p) (Z.to_N z)
                 (_prev_data_transducer p) p) st
          else refused arg InstErrorCode.INVALID_PARAM_VALUE st
      | _ => refused arg InstErrorCode.INVALID_PARAM_VALUE st
      end
  | parameter AgentParameter.EVENT_PUBLISHER_ORIGIN
  | parameter AgentParameter.ALL => st
  end.

(** The loop of [op_set_observatory] over [params], a dict by its items. *)
Definition set_observatory_loop (params : list (Arg * PyValue))
    (p : InstrumentAgent) : SetLoop :=
  foldl (fun st item => set_observatory_arg item.1 item.2 st)
    (mkSetLoop p [] false false) params.

(** The body of [op_set_observatory] between [_verify_transaction] and
    the clean up of the transaction: ['success'] and ['result'] of the
    reply, and the agent after the events are published. *)
Definition op_set_observatory_body (params : list (Arg * PyValue))
    (p : InstrumentAgent)
    : InstErrorCode.t * list (Arg * InstErrorCode.t) * InstrumentAgent :=
  let st := set_observatory_loop params p in
  let p := set_agent st in
  let success :=
    if set_errors st then InstErrorCode.GET_OBSERVATORY_ERR
    else InstErrorCode.OK in
  let p :=
    if InstErrorCode.is_error success
    then set_published (data_published p)
           (log_published p ++ [log_error "op_set_observatory" success]) p
    else p in
  let p :=
    if set_successes st
    then set_published (data_published p)
           (log_published p ++ [log_parameters (_get_parameters p)]) p
    else p in
  (success, set_result st, p).

End Observatory.

(** [result[key] = (OK, val)] when [arg] is the parameter [key] or
    [ALL]: one of the ten tests of the loop of [op_get_observatory]. *)
Definition get_if (arg key : AgentParameter.t) (val : PyValue)
    (result : list (Arg * (InstErrorCode.t * PyValue)))
    : list (Arg * (InstErrorCode.t * PyValue)) :=
  if decide (arg = key \/ arg = AgentParameter.ALL)
  then dict_set (parameter key) (InstErrorCode.OK, val) result
  else result.

(** One turn of the loop of [op_get_observatory]: [result] and
    [get_errors]. *)
Definition get_observatory_arg (p : InstrumentAgent) (arg : Arg)
    (st : list (Arg * (InstErrorCode.t * PyValue)) * bool)
    : list (Arg * (InstErrorCode.t * PyValue)) * bool :=
  match arg with
  | not_a_parameter _ =>
      (dict_set arg (InstErrorCode.INVALID_PARAMETER, py_none) st.1, true)
  | other_parameter _ => st
  | parameter x =>
      let result := st.1 in
      let result :=
        get_if x AgentParameter.EVENT_PUBLISHER_ORIGIN
          (py_str (event_publisher_origin p)) result in
      let result :=
        get_if x AgentParameter.DRIVER_DESC (desc_value (_driver_desc p))
          result in
      let result :=
        get_if x AgentParameter.DRIVER_CLIENT_DESC
          (desc_value (_client_desc p)) result in
      let result :=
        get_if x AgentParameter.DRIVER_CONFIG
          (desc_value (_driver_config p)) result in
      let result :=
        get_if x AgentParameter.TIME_SOURCE (py_str (_time_source p))
          result in
      let result :=
        get_if x AgentParameter.CONNECTION_METHOD
          (py_str (_connection_method p)) result in
      let result :=
        get_if x AgentParameter.MAX_ACQ_TIMEOUT
          (py_int (Z.of_N (_max_acq_timeout (core p)))) result in
      let result :=
        get_if x AgentParameter.DEFAULT_EXP_TIMEOUT
          (py_int (Z.of_N (_default_exp_timeout (core p)))) result in
      let result :=
        get_if x AgentParameter.MAX_EXP_TIMEOUT
          (py_int (Z.of_N (_max_exp_timeout (core p)))) result in
      let result :=
        get_if x AgentParameter.BUFFER_SIZE
          (py_int (Z.of_N (_data_buffer_limit p))) result in
      (result, st.2)
  end.

(** The body of [op_get_observatory]: ['success'] and ['result'] of the
    reply.  [event_publisher_origin] is [str(self.id)], never [None]. *)
Definition op_get_observatory_body (params : list Arg) (p : InstrumentAgent)
    : InstErrorCode.t * list (Arg * (InstErrorCode.t * PyValue)) :=
  let st := foldl (fun st arg => get_observatory_arg p arg st) ([], false)
              params in
  (if st.2 then InstErrorCode.GET_OBSERVATORY_ERR else InstErrorCode.OK,
   st.1).

(** What a parameter that [op_set_observatory] stores has to be. *)
Definition settable (x : AgentParameter.t) : bool :=
  match x with
  | AgentParameter.EVENT_PUBLISHER_ORIGIN | AgentParameter.ALL => false
  | _ => true
  end.

(** An entry of ['result'] that makes [op_set_observatory] fail. *)
Definition bad_entry (entry : Arg * InstErrorCode.t) : Prop :=
  entry.2 <> InstErrorCode.OK /\
  entry.1 <> parameter AgentParameter.CONNECTION_METHOD.

(** ** Events of the driver *)

(** The loop of [_is_child_process], which leaves at the first child of
    that name. *)
Fixpoint _is_child_process_loop (name : string) (procs : list ProcessDesc)
    (found : bool) : bool :=
  match procs with
  | [] => found
  | proc :: procs =>
      if decide (proc_name proc = name) then true
      else _is_child_process_loop name procs found
  end.

Definition _is_child_process (name : string) (p : InstrumentAgent) : bool :=
  _is_child_process_loop name (child_procs p) false.

(** The members of [DriverAnnouncement] that the agent names, and any
    other type string.  Modelled from the uses in [instrument_agent.py]:
    [instrument_constants.py] is not part of the sources at hand. *)
Module DriverAnnouncement.

Inductive t : Set :=
  | DATA_RECEIVED
  | CONFIG_CHANGE
  | ERROR
  | STATE_CHANGE
  | EVENT_OCCURRED
  | other (type : string).

#[global] Instance eq_dec : EqDecision t.
Proof. solve_decision. Defined.

End DriverAnnouncement.

(** What [self._driver_client.get_status([key])] comes to: it raises, or
    replies with a code and, when the result has the observatory state of
    the driver, whether that state is [ObservatoryState.STREAMING]. *)
Inductive StatusReply : Set :=
  | status_raises
  | status_replies (success : InstErrorCode.t) (streaming : option bool).

(** What [self._driver_client.get([(ALL, ALL)])] comes to: it raises, or
    replies with a code and the values by channel and parameter. *)
Inductive ConfigReply : Set :=
  | config_raises
  | config_replies (success : InstErrorCode.t)
      (result : list (string * string * string)).

(** A message [driver_event_occurred] with its sender, and what the driver
    answers when the handler turns to it. *)
Record DriverEvent : Set := mkDriverEvent {
  sender_name : string;
  event_type : DriverAnnouncement.t;
  transducer : string;
  value : Sample;
  get_status : StatusReply;
  get_config : ConfigReply
}.

(** How [op_driver_event_occurred] ends: with [reply_err], by coming to
    its end, or with an exception. *)
Inductive EventOutcome : Set :=
  | event_refused
  | event_handled
  | event_raised.

(** The dict [str_key_dict] of the [CONFIG_CHANGE] branch. *)
Definition str_key_dict (result : list (string * string * string))
    : list (string * string) :=
  foldl (fun d item => dict_set (item.1.1 +:+ "__" +:+ item.1.2) item.2 d)
    [] result.

Definition op_driver_event_occurred (e : DriverEvent) (p : InstrumentAgent)
    : EventOutcome * InstrumentAgent :=
  if negb (_is_child_process (sender_name e) p) then (event_refused, p)
  else
    match event_type e with
    | DriverAnnouncement.DATA_RECEIVED =>
        let p :=
          set_data_buffer (_data_buffer p) (_data_buffer_limit p)
            (Some (transducer e)) p in
        match _driver_client (core p), get_status e with
        | Some _, status_replies success streaming =>
            if InstErrorCode.is_ok success then
              match streaming with
              | Some true =>
                  let buffer := _data_buffer p ++ [value e] in
                  if (_data_buffer_limit p <? N.of_nat (length buffer))%N
                  then
                    (event_handled,
                     set_published
                       (data_published p ++ [(transducer e, buffer)])
                       (log_published p)
                       (set_data_buffer [] (_data_buffer_limit p)
                          (_prev_data_transducer p) p))
                  else
                    (event_handled,
                     set_data_buffer buffer (_data_buffer_limit p)
                       (_prev_data_transducer p) p)
              | Some false =>
                  (event_handled,
                   set_published
                     (data_published p ++ [(transducer e, [value e])])
                     (log_published p) p)
              | None => (event_handled, p)
              end
            else (event_handled, p)
        | _, _ => (event_raised, p)
        end
    | DriverAnnouncement.CONFIG_CHANGE =>
        match _driver_client (core p), get_config e with
        | Some _, config_replies success result =>
            if InstErrorCode.is_ok success && (0 <? length result)
            then
              (event_handled,
               set_published (data_published p)
                 (log_published p ++
                  [log_config (transducer e) (str_key_dict result)]) p)
            else (event_handled, p)
        | _, _ => (event_raised, p)
        end
    | DriverAnnouncement.STATE_CHANGE =>
        if 0 <? length (_data_buffer p)
        then
          (event_handled,
           set_published (data_published p)
             (log_published p ++
              [log_samples (_prev_data_transducer p) (_data_buffer p)]) p)
        else (event_handled, p)
    | _ => (event_handled, p)
    end.

(** The agent after the messages [events] of the driver, one after the
    other. *)
Definition driver_events (events : list DriverEvent) (p : InstrumentAgent)
    : InstrumentAgent :=
  foldl (fun p e => (op_driver_event_occurred e p).2) p events.

(** The sample of the message [e] is taken in: the message is a
    [DATA_RECEIVED] of a child, and the driver tells its observatory
    state. *)
Definition sample_taken (p : InstrumentAgent) (e : DriverEvent) : bool :=
  _is_child_process (sender_name e) p &&
  bool_decide (event_type e = DriverAnnouncement.DATA_RECEIVED) &&
  bool_decide (is_Some (_driver_client (core p))) &&
  match get_status e with
  | status_replies success (Some _) => InstErrorCode.is_ok success
  | _ => false
  end.

(** ** The client *)

(** [InstrumentAgentClient.default_rpc_timeout]. *)
Definition default_rpc_timeout : N := 180.

(** The [timeout] that [InstrumentAgentClient.start_transaction] gives to
    [rpc_send]. *)
Definition start_transaction_rpc_timeout (acq_timeout : option N) : N :=
  match acq_timeout with
  | Some t => if (0 <? t)%N then (t + 10)%N else default_rpc_timeout
  | None => default_rpc_timeout
  end.

(** ** Connection state *)

(** Modelled from the uses in [instrument_agent.py]:
    [AgentConnectionState] of [instrument_constants.py]. *)
Module AgentConnectionState.

Inductive t : Set :=
  | POWERED_DOWN
  | NO_DRIVER
  | DISCONNECTED
  | CONNECTED
  | UNKOWN.

#[global] Instance eq_dec : EqDecision t.
Proof. solve_decision. Defined.

End AgentConnectionState.

Definition _get_connection_state (p : InstrumentAgent)
    : AgentConnectionState.t :=
  match fsm_current_state (core p) with
  | AgentState.POWERED_DOWN => AgentConnectionState.POWERED_DOWN
  | AgentState.UNINITIALIZED => AgentConnectionState.NO_DRIVER
  | AgentState.INACTIVE => AgentConnectionState.DISCONNECTED
  | AgentState.IDLE => AgentConnectionState.CONNECTED
  | AgentState.STOPPED => AgentConnectionState.CONNECTED
  | AgentState.OBSERVATORY_MODE => AgentConnectionState.CONNECTED
  | AgentState.DIRECT_ACCESS_MODE => AgentConnectionState.CONNECTED
  | AgentState.UNKNOWN => AgentConnectionState.UNKOWN
  end.

(** ** Agents with a lowered [MAX_EXP_TIMEOUT] *)

(** The agent [a] after [op_set_observatory] with
    [{MAX_EXP_TIMEOUT: 10}]. *)
Definition max_exp_timeout_lowered (a : Agent) : Agent :=
  core (op_set_observatory_body [] []
          [(parameter AgentParameter.MAX_EXP_TIMEOUT, py_int 10)]
          (set_core a process_init)).2.

(** A first caller holds the transaction and a second waits, up to five
    seconds, for a transaction of 1000 seconds; then the holder lowers
    [MAX_EXP_TIMEOUT] to 10. *)
Definition lowered_with_waiter : Agent :=
  max_exp_timeout_lowered
    (run sample_uuid4
       [ev_request_transaction None None "first";
        ev_request_transaction (Some 5%N) (Some 1000%N) "second"] plc_init).
(** * Properties *)

(** ** Tokens *)

Lemma length_string_app (s1 s2 : string) :
  String.length (s1 +:+ s2) = String.length s1 + String.length s2.
Proof. induction s1 as [|c s1 IH]; simpl; [reflexivity | now rewrite IH]. Qed.

Lemma length_hex (width : nat) (n : N) : String.length (hex width n) = width.
Proof.
  revert n; induction width as [|w IH]; intros n; simpl; [reflexivity|].
  rewrite length_string_app, IH; simpl; lia.
Qed.

Lemma length_uuid_str (n : N) : String.length (uuid_str n) = 36.
Proof.
  unfold uuid_str. rewrite !length_string_app, !length_hex. reflexivity.
Qed.


(** ** The pending queue and the fired log *)

Lemma fired_count_callback (d d' : Deferred) (v : Grant) (a : Agent) :
  fired_count d' (callback d v a) =
  fired_count d' a + (if decide (d = d') then 1 else 0).
Proof.
  unfold fired_count, fired_times, callback; simpl.
  rewrite filter_app, length_app; f_equal.
  rewrite filter_cons; simpl.
  destruct (decide (d = d')); reflexivity.
Qed.

Lemma list_remove_first_middle (item : Pending) (l1 l2 : list Pending) :
  (forall x, x ∈ l1 -> pending_d x <> pending_d item) ->
  list_remove_first item (l1 ++ item :: l2) = l1 ++ l2.
Proof.
  induction l1 as [|x l1 IH]; intros Hl1; simpl.
  - destruct (decide (item = item)); [reflexivity | contradiction].
  - destruct (decide (x = item)) as [->|_].
    + exfalso. apply (Hl1 item); [left | reflexivity].
    + f_equal. apply IH. intros y Hy. apply Hl1. now right.
Qed.
(** ** The acquisition timeout loop *)

Lemma acquisition_timeout_loop_miss (fuel i : nat) (d : Deferred) (a : Agent) :
  (forall item, item ∈ _pending_transactions a -> pending_d item <> d) ->
  acquisition_timeout_loop fuel i d a = a.
Proof.
  revert i; induction fuel as [|fuel IH]; intros i Hmiss; simpl; [reflexivity|].
  destruct (_pending_transactions a !! i) as [item|] eqn:Hi; [|reflexivity].
  destruct (decide (pending_d item = d)) as [Hd|_]; [|now apply IH].
  exfalso. apply (Hmiss item); [|exact Hd].
  apply list_elem_of_lookup. eauto.
Qed.

Lemma acquisition_timeout_loop_hit (fuel i : nat) (d : Deferred) (a : Agent)
    (l1 l2 : list Pending) (item : Pending) :
  _pending_transactions a = l1 ++ item :: l2 ->
  pending_d item = d ->
  (forall x, x ∈ l1 ++ l2 -> pending_d x <> d) ->
  i <= length l1 -> length l1 < i + fuel ->
  acquisition_timeout_loop fuel i d a =
  callback d (InstErrorCode.TIMEOUT, None)
    (set_pending_transactions (l1 ++ l2) a).
Proof.
  revert i; induction fuel as [|fuel IH]; intros i Hl Hd Hmiss Hi Hfuel;
    [lia|].
  simpl. rewrite Hl.
  destruct (decide (i = length l1)) as [->|Hne].
  - rewrite list_lookup_middle by reflexivity.
    destruct (decide (pending_d item = d)) as [_|]; [|contradiction].
    rewrite list_remove_first_middle.
    + apply acquisition_timeout_loop_miss. simpl. exact Hmiss.
    + intros x Hx. rewrite Hd. apply Hmiss. apply elem_of_app. now left.
  - assert (Hlt : i < length l1) by lia.
    rewrite lookup_app_l by exact Hlt.
    destruct (lookup_lt_is_Some_2 l1 i Hlt) as [x Hx]. rewrite Hx.
    destruct (decide (pending_d x = d)) as [Hxd|_].
    + exfalso. apply (Hmiss x); [|exact Hxd].
      apply elem_of_app. left. apply list_elem_of_lookup. eauto.
    + apply IH; try assumption; lia.
Qed.

(** The loop is over before the fuel is: one more unit changes nothing. *)
Lemma acquisition_timeout_loop_fuel (fuel i : nat) (d : Deferred) (a : Agent) :
  length (_pending_transactions a) <= i + fuel ->
  acquisition_timeout_loop (S fuel) i d a = acquisition_timeout_loop fuel i d a.
Proof.
  revert i a; induction fuel as [|fuel IH]; intros i a Hlen.
  - simpl. rewrite lookup_ge_None_2 by lia. reflexivity.
  - change (acquisition_timeout_loop (S (S fuel)) i d a)
      with (match _pending_transactions a !! i with
            | None => a
            | Some item =>
                if decide (pending_d item = d) then
                  acquisition_timeout_loop (S fuel) (S i) d
                    (callback d (InstErrorCode.TIMEOUT, None)
                       (set_pending_transactions
                          (list_remove_first item (_pending_transactions a)) a))
                else acquisition_timeout_loop (S fuel) (S i) d a
            end).
    change (acquisition_timeout_loop (S fuel) i d a)
      with (match _pending_transactions a !! i with
            | None => a
            | Some item =>
                if decide (pending_d item = d) then
                  acquisition_timeout_loop fuel (S i) d
                    (callback d (InstErrorCode.TIMEOUT, None)
                       (set_pending_transactions
                          (list_remove_first item (_pending_transactions a)) a))
                else acquisition_timeout_loop fuel (S i) d a
            end).
    destruct (_pending_transactions a !! i) as [item|] eqn:Hi; [|reflexivity].
    destruct (decide (pending_d item = d)).
    + apply IH. simpl.
      assert (length (list_remove_first item (_pending_transactions a))
              <= length (_pending_transactions a)).
      { clear. induction (_pending_transactions a) as [|x l IHl]; simpl; [lia|].
        destruct (decide (x = item)); simpl; lia. }
      lia.
    + apply IH. lia.
Qed.

(** With the deferreds of the queue pairwise distinct, the closure drops
    the one entry of [d] and fires [d] once, or does nothing. *)
Lemma acquisition_timeout_hit (d : Deferred) (a : Agent)
    (l1 l2 : list Pending) (item : Pending) :
  NoDup (pending_d <$> _pending_transactions a) ->
  _pending_transactions a = l1 ++ item :: l2 ->
  pending_d item = d ->
  acquisition_timeout d a =
  callback d (InstErrorCode.TIMEOUT, None)
    (set_pending_transactions (l1 ++ l2) a).
Proof.
  intros Hnd Hl Hd. unfold acquisition_timeout.
  apply (acquisition_timeout_loop_hit _ _ _ _ l1 l2 item); try assumption.
  - rewrite Hl, fmap_app, fmap_cons in Hnd.
    apply NoDup_app in Hnd as (_ & Hdisj & Hnd2).
    apply NoDup_cons in Hnd2 as [Hnotin _].
    intros x Hx Hxd. apply elem_of_app in Hx as [Hx|Hx].
    + apply (Hdisj (pending_d x)).
      * apply list_elem_of_fmap. eauto.
      * rewrite Hxd, <- Hd. left.
    + apply Hnotin. rewrite Hd, <- Hxd. apply list_elem_of_fmap. eauto.
  - lia.
  - rewrite Hl, length_app. simpl. lia.
Qed.

Lemma acquisition_timeout_miss (d : Deferred) (a : Agent) :
  ~ is_pending d a -> acquisition_timeout d a = a.
Proof.
  intros Hnot. apply acquisition_timeout_loop_miss.
  intros item Hitem Hd. apply Hnot. unfold is_pending.
  apply list_elem_of_fmap. eauto.
Qed.
(** ** The invariant: timers *)

Section TimersOk.

Context (tid : option string) (timed_out : bool)
  (timeout_call : option DelayedCall) (pending : list Pending)
  (calls : gmap nat (N * Callback)) (next : nat).

(** Two queued entries never share a timer. *)
Lemma pending_calls_distinct (x y : Pending) :
  timers_ok tid timed_out timeout_call pending calls next ->
  x ∈ pending -> y ∈ pending -> pending_d x <> pending_d y ->
  pending_call x <> pending_call y.
Proof.
  intros H Hx Hy Hd Hc.
  destruct (ok_pending_calls _ _ _ _ _ _ H x Hx) as [dx Ex].
  destruct (ok_pending_calls _ _ _ _ _ _ H y Hy) as [dy Ey].
  rewrite Hc, Ey in Ex. congruence.
Qed.

(** The current transaction ends: its timer, if still active, is
    cancelled. *)
Lemma timers_ok_end :
  timers_ok tid timed_out timeout_call pending calls next ->
  timers_ok None false None pending
    (match timeout_call with Some c => delete c calls | None => calls end)
    next.
Proof.
  intros H. constructor; try done.
  - intros c Hc. apply (ok_calls_fresh _ _ _ _ _ _ H).
    destruct timeout_call as [c0|]; [|exact Hc].
    destruct Hc as [x Hx]. apply lookup_delete_Some in Hx as [_ Hx]. eauto.
  - intros c delay Hc. exfalso.
    destruct timeout_call as [c0|].
    + apply lookup_delete_Some in Hc as [Hne Hc].
      apply (ok_expiration _ _ _ _ _ _ H) in Hc as [Hc _]. congruence.
    + apply (ok_expiration _ _ _ _ _ _ H) in Hc as [Hc _]. discriminate.
  - intros item Hitem.
    destruct (ok_pending_calls _ _ _ _ _ _ H item Hitem) as [delay E].
    exists delay. destruct timeout_call as [c0|]; [|exact E].
    rewrite lookup_delete_ne; [exact E|]. intros ->.
    destruct (ok_calls_active _ _ _ _ _ _ H _ eq_refl) as [delay' E'].
    congruence.
  - apply (ok_pending_nodup _ _ _ _ _ _ H).
Qed.

(** A transaction starts on a free agent. *)
Lemma timers_ok_start (token : N) (delay : N) :
  timers_ok None timed_out timeout_call pending calls next ->
  timers_ok (Some (uuid_str token)) timed_out (Some next) pending
    (<[next := (delay, cb_transaction_expired)]> calls) (S next).
Proof.
  intros H. constructor.
  - intros t [= <-]. apply length_uuid_str.
  - intros c Hc. destruct (decide (c = next)) as [->|Hne]; [lia|].
    rewrite lookup_insert_ne in Hc by done.
    apply (ok_calls_fresh _ _ _ _ _ _ H) in Hc. lia.
  - intros c [= <-]. exists delay. apply lookup_insert_eq.
  - intros c delay' Hc. split; [|eauto].
    destruct (decide (c = next)) as [->|Hne]; [reflexivity|].
    rewrite lookup_insert_ne in Hc by done.
    apply (ok_expiration _ _ _ _ _ _ H) in Hc as [_ [? [=]]].
  - intros item Hitem.
    destruct (ok_pending_calls _ _ _ _ _ _ H item Hitem) as [delay' E].
    exists delay'. rewrite lookup_insert_ne; [exact E|]. intros Heq.
    assert (pending_call item < next); [|lia].
    apply (ok_calls_fresh _ _ _ _ _ _ H). eauto.
  - apply (ok_pending_nodup _ _ _ _ _ _ H).
  - intros Hto. apply (ok_timed_out _ _ _ _ _ _ H) in Hto as [[? [=]] _].
Qed.

(** A request joins the queue with a new acquisition timer. *)
Lemma timers_ok_enqueue (d : Deferred) (delay exp_timeout : N)
    (requester : string) :
  timers_ok tid timed_out timeout_call pending calls next ->
  ~ waiting d pending ->
  timers_ok tid timed_out timeout_call
    (pending ++ [(d, next, exp_timeout, requester)])
    (<[next := (delay, cb_acquisition_timeout d)]> calls) (S next).
Proof.
  intros H Hd.
  assert (Hnext : calls !! next = None).
  { destruct (calls !! next) eqn:E; [|reflexivity].
    assert (next < next); [|lia]. apply (ok_calls_fresh _ _ _ _ _ _ H). eauto. }
  constructor.
  - apply (ok_token _ _ _ _ _ _ H).
  - intros c Hc. destruct (decide (c = next)) as [->|Hne]; [lia|].
    rewrite lookup_insert_ne in Hc by done.
    apply (ok_calls_fresh _ _ _ _ _ _ H) in Hc. lia.
  - intros c Hc.
    destruct (ok_calls_active _ _ _ _ _ _ H c Hc) as [delay' E].
    exists delay'. rewrite lookup_insert_ne; [exact E|].
    intros Heq. rewrite <- Heq, Hnext in E. discriminate.
  - intros c delay' Hc. apply (ok_expiration _ _ _ _ _ _ H c delay').
    destruct (decide (c = next)) as [->|Hne].
    + rewrite lookup_insert_eq in Hc. discriminate.
    + rewrite lookup_insert_ne in Hc by done. exact Hc.
  - intros item Hitem. apply elem_of_app in Hitem as [Hitem|Hitem].
    + destruct (ok_pending_calls _ _ _ _ _ _ H item Hitem) as [delay' E].
      exists delay'. rewrite lookup_insert_ne; [exact E|].
      intros Heq. rewrite <- Heq, Hnext in E. discriminate.
    + apply list_elem_of_singleton in Hitem as ->. exists delay.
      apply lookup_insert_eq.
  - rewrite fmap_app. apply NoDup_app. split; [|split].
    + apply (ok_pending_nodup _ _ _ _ _ _ H).
    + intros x Hx Hx'. apply list_elem_of_singleton in Hx'. simpl in Hx'.
      subst x. contradiction.
    + apply NoDup_singleton.
  - apply (ok_timed_out _ _ _ _ _ _ H).
Qed.

(** The expiration timer comes due. *)
Lemma timers_ok_expired (c : DelayedCall) (delay : N) :
  timers_ok tid timed_out timeout_call pending calls next ->
  calls !! c = Some (delay, cb_transaction_expired) ->
  timers_ok tid timed_out None pending (delete c calls) next /\
  timers_ok tid true None pending (delete c calls) next /\
  is_Some tid /\ timeout_call = Some c.
Proof.
  intros H Hc.
  destruct (ok_expiration _ _ _ _ _ _ H c delay Hc) as [Htc Htid].
  assert (Hbase : forall b, (b = true -> is_Some tid /\ None = @None DelayedCall) ->
            timers_ok tid b None pending (delete c calls) next).
  { intros b Hb. constructor; try done.
    - apply (ok_token _ _ _ _ _ _ H).
    - intros c' [x Hx]. apply lookup_delete_Some in Hx as [_ Hx].
      apply (ok_calls_fresh _ _ _ _ _ _ H). eauto.
    - intros c' delay' Hc'. exfalso.
      apply lookup_delete_Some in Hc' as [Hne Hc'].
      apply (ok_expiration _ _ _ _ _ _ H) in Hc' as [Hc' _]. congruence.
    - intros item Hitem.
      destruct (ok_pending_calls _ _ _ _ _ _ H item Hitem) as [delay' E].
      exists delay'. rewrite lookup_delete_ne; [exact E|]. congruence.
    - apply (ok_pending_nodup _ _ _ _ _ _ H). }
  split; [|split; [|split]]; try done.
  - apply Hbase. intros Hto.
    apply (ok_timed_out _ _ _ _ _ _ H) in Hto as [_ Hto]. congruence.
  - apply Hbase. done.
Qed.

End TimersOk.

(** The head of the queue leaves it, its acquisition timer cancelled. *)
Lemma timers_ok_pop (tid : option string) (timed_out : bool)
    (timeout_call : option DelayedCall) (item : Pending)
    (rest : list Pending) (calls : gmap nat (N * Callback)) (next : nat) :
  timers_ok tid timed_out timeout_call (item :: rest) calls next ->
  timers_ok tid timed_out timeout_call rest
    (delete (pending_call item) calls) next.
Proof.
  intros H.
  pose proof (ok_pending_nodup _ _ _ _ _ _ H) as Hnd.
  rewrite fmap_cons in Hnd. apply NoDup_cons in Hnd as [Hhead Hnd].
  constructor.
  - apply (ok_token _ _ _ _ _ _ H).
  - intros c [x Hx]. apply lookup_delete_Some in Hx as [_ Hx].
    apply (ok_calls_fresh _ _ _ _ _ _ H). eauto.
  - intros c Hc.
    destruct (ok_calls_active _ _ _ _ _ _ H c Hc) as [delay E].
    exists delay. rewrite lookup_delete_ne; [exact E|]. intros <-.
    destruct (ok_pending_calls _ _ _ _ _ _ H item) as [delay' E'];
      [left | congruence].
  - intros c delay Hc. apply lookup_delete_Some in Hc as [_ Hc].
    apply (ok_expiration _ _ _ _ _ _ H c delay Hc).
  - intros x Hx.
    destruct (ok_pending_calls _ _ _ _ _ _ H x) as [delay E]; [now right|].
    exists delay. rewrite lookup_delete_ne; [exact E|].
    apply (pending_calls_distinct _ _ _ _ _ _ item x H);
      [left | now right |].
    intros Heq. apply Hhead. rewrite Heq. apply list_elem_of_fmap. eauto.
  - exact Hnd.
  - apply (ok_timed_out _ _ _ _ _ _ H).
Qed.

(** An acquisition timer comes due and its entry leaves the queue. *)
Lemma timers_ok_timeout (tid : option string) (timed_out : bool)
    (timeout_call : option DelayedCall) (l1 l2 : list Pending)
    (item : Pending) (calls : gmap nat (N * Callback)) (next : nat)
    (c : DelayedCall) (delay : N) :
  timers_ok tid timed_out timeout_call (l1 ++ item :: l2) calls next ->
  calls !! c = Some (delay, cb_acquisition_timeout (pending_d item)) ->
  timers_ok tid timed_out timeout_call (l1 ++ l2) (delete c calls) next.
Proof.
  intros H Hc.
  pose proof (ok_pending_nodup _ _ _ _ _ _ H) as Hnd.
  rewrite fmap_app, fmap_cons in Hnd.
  apply NoDup_app in Hnd as (Hnd1 & Hdisj & Hnd2).
  apply NoDup_cons in Hnd2 as [Hnotin Hnd2].
  assert (Hother : forall x, x ∈ l1 ++ l2 -> pending_d x <> pending_d item).
  { intros x Hx Heq. apply elem_of_app in Hx as [Hx|Hx].
    - apply (Hdisj (pending_d x)); [apply list_elem_of_fmap; eauto|].
      rewrite Heq. left.
    - apply Hnotin. rewrite <- Heq. apply list_elem_of_fmap. eauto. }
  assert (Hin : forall x, x ∈ l1 ++ l2 -> x ∈ l1 ++ item :: l2).
  { intros x Hx. apply elem_of_app in Hx as [Hx|Hx]; apply elem_of_app;
      [now left | right; now right]. }
  constructor.
  - apply (ok_token _ _ _ _ _ _ H).
  - intros c' [x Hx]. apply lookup_delete_Some in Hx as [_ Hx].
    apply (ok_calls_fresh _ _ _ _ _ _ H). eauto.
  - intros c' Hc'.
    destruct (ok_calls_active _ _ _ _ _ _ H c' Hc') as [delay' E].
    exists delay'. rewrite lookup_delete_ne; [exact E|]. congruence.
  - intros c' delay' Hc'. apply lookup_delete_Some in Hc' as [_ Hc'].
    apply (ok_expiration _ _ _ _ _ _ H c' delay' Hc').
  - intros x Hx.
    destruct (ok_pending_calls _ _ _ _ _ _ H x (Hin x Hx)) as [delay' E].
    exists delay'. rewrite lookup_delete_ne; [exact E|]. intros ->.
    apply (Hother x Hx). congruence.
  - rewrite fmap_app. apply NoDup_app. split; [exact Hnd1|]. split; [|exact Hnd2].
    intros x Hx Hx'. apply (Hdisj x Hx). now right.
  - apply (ok_timed_out _ _ _ _ _ _ H).
Qed.

(** A spent acquisition timer whose deferred no longer waits. *)
Lemma timers_ok_stale (tid : option string) (timed_out : bool)
    (timeout_call : option DelayedCall) (pending : list Pending)
    (calls : gmap nat (N * Callback)) (next : nat)
    (c : DelayedCall) (delay : N) (d : Deferred) :
  timers_ok tid timed_out timeout_call pending calls next ->
  calls !! c = Some (delay, cb_acquisition_timeout d) ->
  ~ waiting d pending ->
  timers_ok tid timed_out timeout_call pending (delete c calls) next.
Proof.
  intros H Hc Hd. constructor.
  - apply (ok_token _ _ _ _ _ _ H).
  - intros c' [x Hx]. apply lookup_delete_Some in Hx as [_ Hx].
    apply (ok_calls_fresh _ _ _ _ _ _ H). eauto.
  - intros c' Hc'.
    destruct (ok_calls_active _ _ _ _ _ _ H c' Hc') as [delay' E].
    exists delay'. rewrite lookup_delete_ne; [exact E|]. congruence.
  - intros c' delay' Hc'. apply lookup_delete_Some in Hc' as [_ Hc'].
    apply (ok_expiration _ _ _ _ _ _ H c' delay' Hc').
  - intros x Hx.
    destruct (ok_pending_calls _ _ _ _ _ _ H x Hx) as [delay' E].
    exists delay'. rewrite lookup_delete_ne; [exact E|]. intros ->.
    apply Hd. apply list_elem_of_fmap. exists x. split; [congruence|exact Hx].
  - apply (ok_pending_nodup _ _ _ _ _ _ H).
  - apply (ok_timed_out _ _ _ _ _ _ H).
Qed.

(** ** The invariant: deferreds *)

Lemma fired_times_app (d d' : Deferred) (v : Grant)
    (fired : list (Deferred * Grant)) :
  fired_times d (fired ++ [(d', v)]) =
  fired_times d fired + (if decide (d' = d) then 1 else 0).
Proof.
  unfold fired_times. rewrite filter_app, length_app. f_equal.
  rewrite filter_cons. simpl. destruct (decide (d' = d)); reflexivity.
Qed.

Lemma fired_times_fresh (d : Deferred) (fired : list (Deferred * Grant))
    (count : nat) :
  (forall d' v, (d', v) ∈ fired -> d' < count) -> count <= d ->
  fired_times d fired = 0.
Proof.
  intros Hfresh Hd. unfold fired_times.
  induction fired as [|[d' v] fired IH]; [reflexivity|].
  rewrite filter_cons. simpl. destruct (decide (d' = d)) as [->|_].
  - assert (d < count) by (apply (Hfresh d v); left). lia.
  - apply IH. intros d'' v' Hin. apply (Hfresh d'' v'). now right.
Qed.

Section DeferredsOk.

Context (tid : option string) (pending : list Pending)
  (fired : list (Deferred * Grant)) (count : nat).

(** The token changes and nothing else. *)
Lemma deferreds_ok_tid (tid' : option string) :
  deferreds_ok tid pending fired count ->
  (pending <> [] -> is_Some tid') ->
  deferreds_ok tid' pending fired count.
Proof. intros [] Htid. constructor; assumption. Qed.

(** A new deferred fires at once. *)
Lemma deferreds_ok_answer (tid' : option string) (v : Grant) :
  deferreds_ok tid pending fired count ->
  (pending <> [] -> is_Some tid') ->
  deferreds_ok tid' pending (fired ++ [(count, v)]) (S count).
Proof.
  intros H Htid. constructor.
  - exact Htid.
  - intros d v' Hin. apply elem_of_app in Hin as [Hin|Hin].
    + apply (ok_fired_fresh _ _ _ _ H) in Hin. lia.
    + apply list_elem_of_singleton in Hin. injection Hin as -> _. lia.
  - intros item Hitem. apply (ok_pending_fresh _ _ _ _ H) in Hitem. lia.
  - intros d Hd. rewrite fired_times_app.
    destruct (decide (count = d)) as [<-|Hne].
    + left. split.
      * rewrite (fired_times_fresh count fired count); [reflexivity| |lia].
        apply (ok_fired_fresh _ _ _ _ H).
      * intros Hw. apply list_elem_of_fmap in Hw as (item & -> & Hitem).
        apply (ok_pending_fresh _ _ _ _ H) in Hitem. lia.
    + rewrite Nat.add_0_r. apply (ok_once _ _ _ _ H). lia.
Qed.

(** A new deferred joins the queue. *)
Lemma deferreds_ok_enqueue (call : DelayedCall) (exp_timeout : N)
    (requester : string) :
  deferreds_ok tid pending fired count ->
  is_Some tid ->
  deferreds_ok tid (pending ++ [(count, call, exp_timeout, requester)]) fired
    (S count).
Proof.
  intros H Htid. constructor.
  - intros _. exact Htid.
  - intros d v Hin. apply (ok_fired_fresh _ _ _ _ H) in Hin. lia.
  - intros item Hitem. apply elem_of_app in Hitem as [Hitem|Hitem].
    + apply (ok_pending_fresh _ _ _ _ H) in Hitem. lia.
    + apply list_elem_of_singleton in Hitem as ->. unfold pending_d. simpl. lia.
  - intros d Hd. unfold waiting. rewrite fmap_app. simpl.
    destruct (decide (d = count)) as [->|Hne].
    + right. split.
      * apply (fired_times_fresh count fired count); [|lia].
        apply (ok_fired_fresh _ _ _ _ H).
      * apply elem_of_app. right. left.
    + destruct (ok_once _ _ _ _ H d) as [[H1 H2]|[H1 H2]]; [lia| |].
      * left. split; [exact H1|]. intros Hw.
        apply elem_of_app in Hw as [Hw|Hw]; [contradiction|].
        apply list_elem_of_singleton in Hw. contradiction.
      * right. split; [exact H1|]. apply elem_of_app. now left.
Qed.

End DeferredsOk.

(** A queued deferred fires and leaves the queue: by a grant at the head,
    or by its acquisition timeout anywhere. *)
Lemma deferreds_ok_resolve (tid tid' : option string) (l1 l2 : list Pending)
    (item : Pending) (fired : list (Deferred * Grant)) (count : nat)
    (v : Grant) :
  deferreds_ok tid (l1 ++ item :: l2) fired count ->
  NoDup (pending_d <$> l1 ++ item :: l2) ->
  (l1 ++ l2 <> [] -> is_Some tid') ->
  deferreds_ok tid' (l1 ++ l2) (fired ++ [(pending_d item, v)]) count.
Proof.
  intros H Hnd Htid.
  rewrite fmap_app, fmap_cons in Hnd.
  apply NoDup_app in Hnd as (Hnd1 & Hdisj & Hnd2).
  apply NoDup_cons in Hnd2 as [Hnotin Hnd2].
  assert (Hitem : item ∈ l1 ++ item :: l2).
  { apply elem_of_app. right. left. }
  assert (Hgone : ~ waiting (pending_d item) (l1 ++ l2)).
  { unfold waiting. rewrite fmap_app. intros Hw.
    apply elem_of_app in Hw as [Hw|Hw]; [|contradiction].
    apply (Hdisj _ Hw). left. }
  assert (Hwas : waiting (pending_d item) (l1 ++ item :: l2)).
  { apply list_elem_of_fmap. eauto. }
  constructor.
  - exact Htid.
  - intros d v' Hin. apply elem_of_app in Hin as [Hin|Hin].
    + apply (ok_fired_fresh _ _ _ _ H) in Hin. exact Hin.
    + apply list_elem_of_singleton in Hin. injection Hin as -> _.
      apply (ok_pending_fresh _ _ _ _ H). exact Hitem.
  - intros x Hx. apply (ok_pending_fresh _ _ _ _ H).
    apply elem_of_app in Hx as [Hx|Hx]; apply elem_of_app;
      [now left | right; now right].
  - intros d Hd. rewrite fired_times_app.
    destruct (ok_once _ _ _ _ H d Hd) as [[H1 H2]|[H1 H2]].
    + destruct (decide (pending_d item = d)) as [<-|Hne]; [contradiction|].
      left. split; [lia|]. intros Hw. apply H2.
      unfold waiting in *. rewrite fmap_app in *. rewrite fmap_cons.
      apply elem_of_app in Hw as [Hw|Hw]; apply elem_of_app;
        [now left | right; now right].
    + destruct (decide (pending_d item = d)) as [<-|Hne].
      * left. split; [lia | exact Hgone].
      * right. split; [lia|].
        unfold waiting in *. rewrite fmap_app in *. rewrite fmap_cons in H2.
        apply elem_of_app in H2 as [H2|H2]; apply elem_of_app;
          [now left | right].
        apply elem_of_cons in H2 as [H2|H2]; [congruence | exact H2].
Qed.

(** ** The invariant along a run *)

Section Invariant.

Variable uuid4 : nat -> N.

Lemma Inv_plc_init : Inv plc_init.
Proof.
  split; constructor; simpl; try done.
  all: try (intros ? H; inversion H; fail).
  all: try (intros ? ? H; inversion H; fail).
  all: try (intros ? [? H]; rewrite lookup_empty in H; discriminate).
  all: try constructor.
  all: try (intros; lia).
Qed.

Lemma Inv_set_in_protected_function (b : bool) (a : Agent) :
  Inv a <-> Inv (set_in_protected_function b a).
Proof. split; intros H; exact H. Qed.

Lemma Inv_start_transaction (exp_timeout : option N) (a : Agent) :
  Inv a -> Inv (_start_transaction uuid4 exp_timeout a).2.
Proof.
  intros HI. unfold _start_transaction.
  destruct (transaction_id a) as [tid|] eqn:Htid; [exact HI|].
  destruct HI as [Ht Hd]. rewrite Htid in Ht, Hd. split; simpl.
  - eapply timers_ok_start; exact Ht.
  - apply (deferreds_ok_tid None); [exact Hd | eauto].
Qed.

Lemma Inv_end_transaction (tid : string) (a : Agent) :
  Inv a -> Inv (_end_transaction uuid4 tid a).2.
Proof.
  intros HI. unfold _end_transaction.
  destruct (decide (Some tid = transaction_id a)) as [Heq|Hne];
    [|destruct (transaction_id a); exact HI].
  destruct HI as [Ht Hd]. apply timers_ok_end in Ht.
  cbn [snd]. simpl (_transaction_timeout_call _).
  destruct (_transaction_timeout_call a) as [c0|] eqn:Htc;
    simpl (_pending_transactions _);
    destruct (_pending_transactions a)
      as [|[[[d call] exp_timeout] requester] rest] eqn:Hp.
  1,3: split; simpl; rewrite Hp, ?Htc;
    [exact Ht | apply (deferreds_ok_tid (transaction_id a)); done].
  all: pose proof (ok_pending_nodup _ _ _ _ _ _ Ht) as Hnd;
    apply timers_ok_pop in Ht; unfold _start_transaction; split; simpl;
    rewrite ?Htc.
  1,3: eapply timers_ok_start; exact Ht.
  all: apply (deferreds_ok_resolve (transaction_id a) _ [] rest
                (d, call, exp_timeout, requester)); eauto.
Qed.

Lemma Inv_request_transaction (acq_timeout exp_timeout : option N)
    (requester : string) (a : Agent) :
  Inv a ->
  Inv (_request_transaction uuid4 acq_timeout exp_timeout requester a).2.
Proof.
  intros [Ht Hd]. unfold _request_transaction, _start_transaction. simpl.
  destruct (transaction_id a) as [tid|] eqn:Htid; simpl.
  - destruct (clamp_acq_timeout acq_timeout a =? 0)%N; split; simpl;
      rewrite ?Htid.
    + exact Ht.
    + apply (deferreds_ok_answer (Some tid)); eauto.
    + apply timers_ok_enqueue; [exact Ht|].
      intros Hw. apply list_elem_of_fmap in Hw as (item & E & Hitem).
      apply (ok_pending_fresh _ _ _ _ Hd) in Hitem. lia.
    + apply deferreds_ok_enqueue; eauto.
  - split; simpl.
    + eapply timers_ok_start; exact Ht.
    + apply (deferreds_ok_answer None); eauto.
Qed.

Lemma Inv_verify_transaction (tid optype : string) (a : Agent) :
  Inv a -> Inv (_verify_transaction uuid4 tid optype a).2.
Proof.
  intros HI. unfold _verify_transaction.
  destruct (_ && _ && bool_decide (String.length tid <> 36)); [exact HI|].
  destruct (bool_decide (tid = "create")).
  - pose proof (Inv_start_transaction (Some (_default_exp_timeout a)) a HI)
      as HI'.
    destruct (_start_transaction uuid4 (Some (_default_exp_timeout a)) a)
      as [[success token] a'].
    destruct (InstErrorCode.is_ok success); exact HI'.
  - destruct (_ && _ && _); [exact HI|].
    destruct (bool_decide _); exact HI.
Qed.

Lemma Inv_op_enter (op : Operation) (tid : string) (a : Agent) :
  Inv a -> Inv (op_enter uuid4 op tid a).2.
Proof.
  intros HI. unfold op_enter.
  pose proof (Inv_verify_transaction tid (optype op)
                (set_in_protected_function true a) HI) as HI'.
  destruct (_verify_transaction uuid4 tid (optype op)
              (set_in_protected_function true a)) as [success a'].
  repeat case_match; exact HI'.
Qed.

Lemma Inv_op_cleanup (tid : string) (a a' : Agent) :
  Inv a -> op_cleanup uuid4 tid a = Some a' -> Inv a'.
Proof.
  intros HI. unfold op_cleanup.
  repeat case_match; intros [= <-]; try exact HI.
  apply -> Inv_set_in_protected_function. now apply Inv_end_transaction.
Qed.

Lemma Inv_reactor_fire (c : DelayedCall) (a : Agent) :
  Inv a -> Inv (reactor_fire uuid4 c a).
Proof.
  intros HI. unfold reactor_fire.
  destruct (reactor_calls a !! c) as [[delay f]|] eqn:Hc; [|exact HI].
  destruct HI as [Ht Hd]. destruct f as [|d].
  - destruct (timers_ok_expired _ _ _ _ _ _ _ _ Ht Hc)
      as (Ht1 & Ht2 & [current Hcur] & Htc).
    unfold transaction_expired. simpl.
    destruct (_in_protected_function a); [now split|].
    rewrite Hcur. apply Inv_end_transaction. now split.
  - destruct (decide (d ∈ pending_d <$> _pending_transactions a)) as [Hw|Hw].
    + apply list_elem_of_fmap in Hw as (item & -> & Hitem).
      apply list_elem_of_split in Hitem as (l1 & l2 & Hl).
      rewrite (acquisition_timeout_hit _ _ l1 l2 item);
        [|exact (ok_pending_nodup _ _ _ _ _ _ Ht)|exact Hl|reflexivity].
      rewrite Hl in Ht, Hd. split; simpl.
      * now apply (timers_ok_timeout _ _ _ _ _ _ _ _ _ delay Ht).
      * apply (deferreds_ok_resolve (transaction_id a)); [exact Hd| |].
        -- exact (ok_pending_nodup _ _ _ _ _ _ Ht).
        -- intros _. apply (ok_pending_locked _ _ _ _ Hd).
           now destruct l1.
    + rewrite acquisition_timeout_miss by exact Hw.
      split; simpl; [|exact Hd].
      now apply (timers_ok_stale _ _ _ _ _ _ _ delay d Ht).
Qed.

Lemma Inv_step (e : Event) (a : Agent) : Inv a -> Inv (step uuid4 e a).
Proof.
  intros HI. destruct e; simpl.
  - now apply Inv_request_transaction.
  - now apply Inv_end_transaction.
  - now apply Inv_reactor_fire.
  - now apply Inv_op_enter.
  - destruct (op_cleanup uuid4 tid a) as [a'|] eqn:E; simpl; [|exact HI].
    now apply (Inv_op_cleanup tid a a').
Qed.

Lemma Inv_run (events : list Event) (a : Agent) :
  Inv a -> Inv (run uuid4 events a).
Proof.
  revert a; induction events as [|e events IH]; intros a HI; simpl;
    [exact HI|].
  apply IH. now apply Inv_step.
Qed.

End Invariant.

(** ** What the transaction operations do *)

Section Effects.

Variable uuid4 : nat -> N.

Lemma _end_transaction_other (tid : string) (a : Agent) :
  transaction_id a <> Some tid ->
  _end_transaction uuid4 tid a =
  (match transaction_id a with
   | None => InstErrorCode.RESOURCE_NOT_LOCKED
   | Some _ => InstErrorCode.LOCKED_RESOURCE
   end, a).
Proof.
  intros Hne. unfold _end_transaction.
  destruct (decide (Some tid = transaction_id a)) as [Heq|_]; [congruence|].
  now destruct (transaction_id a).
Qed.

Lemma _end_transaction_current (tid : string) (a : Agent) :
  transaction_id a = Some tid ->
  let a' := (_end_transaction uuid4 tid a).2 in
  (_end_transaction uuid4 tid a).1 = InstErrorCode.OK /\
  _transaction_timed_out a' = false /\
  _in_protected_function a' = _in_protected_function a /\
  deferred_count a' = deferred_count a /\
  match _pending_transactions a with
  | [] =>
      transaction_id a' = None /\
      _transaction_timeout_call a' = None /\
      reactor_calls a' = without_expiration_timer a /\
      _pending_transactions a' = [] /\
      deferred_fired a' = deferred_fired a
  | (d, call, exp_timeout, requester) :: rest =>
      let token := uuid_str (uuid4 (uuid_draws a)) in
      transaction_id a' = Some token /\
      _transaction_timeout_call a' = Some (reactor_next_call a) /\
      reactor_calls a' =
        <[reactor_next_call a :=
            (clamp_exp_timeout (Some exp_timeout) a, cb_transaction_expired)]>
          (delete call (without_expiration_timer a)) /\
      _pending_transactions a' = rest /\
      deferred_fired a' =
        deferred_fired a ++ [(d, (InstErrorCode.OK, Some token))]
  end.
Proof.
  intros Htid.
  destruct a as [pid condemned client current timed_out timeout_call pending
                 max_acq min_exp default_exp max_exp protected state calls
                 next count fired draws].
  simpl in Htid. subst current.
  unfold _end_transaction, without_expiration_timer, _start_transaction.
  simpl.
  destruct (decide (Some tid = Some tid)) as [_|Hne]; [|congruence].
  destruct timeout_call as [c0|];
    destruct pending as [|[[[d call] exp_timeout] requester] rest];
    simpl; repeat split.
Qed.

Lemma _end_transaction_fired (tid : string) (a : Agent) (d : Deferred)
    (v : Grant) :
  (d, v) ∈ deferred_fired (_end_transaction uuid4 tid a).2 ->
  (d, v) ∈ deferred_fired a \/ (is_pending d a /\ grant_or_timeout v).
Proof.
  destruct (decide (transaction_id a = Some tid)) as [Heq|Hne].
  - destruct (_end_transaction_current tid a Heq) as (_ & _ & _ & _ & H).
    destruct (_pending_transactions a)
      as [|[[[d' call] exp_timeout] requester] rest] eqn:Hp.
    + destruct H as (_ & _ & _ & _ & ->). now left.
    + destruct H as (_ & _ & _ & _ & ->). intros Hin.
      apply elem_of_app in Hin as [Hin|Hin]; [now left|right].
      apply list_elem_of_singleton in Hin. injection Hin as -> ->.
      split; [|right; eauto].
      unfold is_pending, waiting. rewrite Hp. left.
  - rewrite _end_transaction_other by exact Hne. now left.
Qed.

Lemma acquisition_timeout_loop_fired (fuel i : nat) (d : Deferred) (a : Agent)
    (d' : Deferred) (v : Grant) :
  (d', v) ∈ deferred_fired (acquisition_timeout_loop fuel i d a) ->
  (d', v) ∈ deferred_fired a \/ v = (InstErrorCode.TIMEOUT, None).
Proof.
  revert i a; induction fuel as [|fuel IH]; intros i a; simpl; [now left|].
  destruct (_pending_transactions a !! i) as [item|]; [|now left].
  destruct (decide (pending_d item = d)); [|apply IH].
  intros Hin. apply IH in Hin as [Hin|Hin]; [|now right].
  simpl in Hin. apply elem_of_app in Hin as [Hin|Hin]; [now left|].
  apply list_elem_of_singleton in Hin. injection Hin as _ ->. now right.
Qed.

(** The acquisition timer [call] of the queued deferred [d] comes due. *)
Lemma reactor_fire_acquisition (a : Agent) (l1 l2 : list Pending)
    (d : Deferred) (call : DelayedCall) (exp_timeout : N) (requester : string)
    (delay : N) :
  NoDup (pending_d <$> _pending_transactions a) ->
  _pending_transactions a = l1 ++ (d, call, exp_timeout, requester) :: l2 ->
  reactor_calls a !! call = Some (delay, cb_acquisition_timeout d) ->
  reactor_fire uuid4 call a =
  callback d (InstErrorCode.TIMEOUT, None)
    (set_pending_transactions (l1 ++ l2) (cancel call a)).
Proof.
  intros Hnd Hl Hc. unfold reactor_fire. rewrite Hc.
  apply (acquisition_timeout_hit _ _ l1 l2 (d, call, exp_timeout, requester));
    [exact Hnd | exact Hl | reflexivity].
Qed.

(** The expiration timer [call] comes due. *)
Lemma reactor_fire_expiration (a : Agent) (call : DelayedCall) (delay : N) :
  reactor_calls a !! call = Some (delay, cb_transaction_expired) ->
  reactor_fire uuid4 call a =
  transaction_expired uuid4 (cancel call a).
Proof. intros Hc. unfold reactor_fire. now rewrite Hc. Qed.

Lemma step_deferred_count (e : Event) (a : Agent) :
  deferred_count a <= deferred_count (step uuid4 e a).
Proof.
  assert (Hend : forall tid a,
            deferred_count (_end_transaction uuid4 tid a).2 = deferred_count a).
  { intros tid a0. destruct (decide (transaction_id a0 = Some tid)) as [Heq|Hne].
    - now destruct (_end_transaction_current tid a0 Heq) as (_ & _ & _ & -> & _).
    - now rewrite _end_transaction_other. }
  assert (Hloop : forall fuel i d a,
            deferred_count (acquisition_timeout_loop fuel i d a)
            = deferred_count a).
  { induction fuel as [|fuel IH]; intros i d a0; simpl; [reflexivity|].
    destruct (_pending_transactions a0 !! i); [|reflexivity].
    destruct (decide _); now rewrite IH. }
  destruct e; simpl.
  - unfold _request_transaction, _start_transaction; simpl.
    destruct (transaction_id a); simpl; [|lia].
    destruct (_ =? _)%N; simpl; lia.
  - now rewrite Hend.
  - unfold reactor_fire. destruct (reactor_calls a !! c) as [[delay [|d]]|];
      [| |lia].
    + unfold transaction_expired. simpl.
      destruct (_in_protected_function a); simpl; [lia|].
      destruct (transaction_id a); simpl; [|lia]. now rewrite Hend.
    + unfold acquisition_timeout. now rewrite Hloop.
  - unfold op_enter, _verify_transaction, _start_transaction. simpl.
    repeat (case_match; simpl; try lia); simplify_eq; simpl; lia.
  - unfold op_cleanup.
    repeat (case_match; simpl; try lia). now rewrite Hend.
Qed.

(** Every callback a step makes answers a request made in that step, or
    answers a queued request by a grant or a timeout. *)
Lemma step_fired (e : Event) (a : Agent) (d : Deferred) (v : Grant) :
  (d, v) ∈ deferred_fired (step uuid4 e a) ->
  (d, v) ∈ deferred_fired a \/ d = deferred_count a \/ grant_or_timeout v.
Proof.
  assert (Hend : forall tid a,
            (d, v) ∈ deferred_fired (_end_transaction uuid4 tid a).2 ->
            (d, v) ∈ deferred_fired a \/ grant_or_timeout v).
  { intros tid a0 Hin. apply _end_transaction_fired in Hin as [?|[_ ?]]; eauto. }
  destruct e; simpl.
  - unfold _request_transaction, _start_transaction; simpl.
    destruct (transaction_id a); simpl.
    + destruct (_ =? _)%N; simpl; [|now left].
      intros Hin. apply elem_of_app in Hin as [Hin|Hin]; [now left|].
      apply list_elem_of_singleton in Hin. injection Hin as -> _. eauto.
    + intros Hin. apply elem_of_app in Hin as [Hin|Hin]; [now left|].
      apply list_elem_of_singleton in Hin. injection Hin as -> _. eauto.
  - intros Hin. apply Hend in Hin as [?|?]; eauto.
  - unfold reactor_fire. destruct (reactor_calls a !! c) as [[delay [|d']]|];
      [| |now left].
    + unfold transaction_expired. simpl.
      destruct (_in_protected_function a); simpl; [now left|].
      destruct (transaction_id a); simpl; [|now left].
      intros Hin. apply Hend in Hin as [?|?]; eauto.
    + intros Hin. apply acquisition_timeout_loop_fired in Hin as [?| ->];
        [now left|]. right. right. now left.
  - unfold op_enter, _verify_transaction, _start_transaction. simpl.
    repeat (case_match; simpl; try (now left)); simplify_eq; simpl; now left.
  - unfold op_cleanup.
    repeat (case_match; simpl; try (now left)).
    intros Hin. apply Hend in Hin as [?|?]; eauto.
Qed.

End Effects.

(** ** The transaction manager *)

(** A deferred that did not fire and fires now has fired once, and by the
    invariant it no longer waits. *)
Lemma fired_once_after (a a' : Agent) (d : Deferred) (v : Grant) :
  Inv a' -> d < deferred_count a' ->
  fired_count d a = 0 ->
  deferred_fired a' = deferred_fired a ++ [(d, v)] ->
  fired_count d a' = 1 /\ ~ is_pending d a'.
Proof.
  intros [_ Hd] Hlt H0 Hfired.
  assert (H1 : fired_count d a' = 1).
  { unfold fired_count in *. rewrite Hfired, fired_times_app, H0.
    destruct (decide (d = d)); [reflexivity | contradiction]. }
  split; [exact H1|].
  destruct (ok_once _ _ _ _ Hd d Hlt) as [[_ H]|[H _]]; [exact H|].
  unfold fired_count in H1. congruence.
Qed.

(** C1.  Along every run of the agent from [plc_init] (requests, ends,
    timers coming due, protected operations), at most one transaction is
    current: [transaction_id] is the one token, and an armed expiration
    timer is always that of the current transaction, so no second
    transaction is alive beside it.  Every deferred handed out by
    [_request_transaction] has either fired exactly once and left the
    queue, or has not fired and waits in the queue with its acquisition
    timer armed; in the latter case the timer coming due fires it with
    [(TIMEOUT, None)] and removes it, and the end of the current
    transaction, when the entry is at the head, fires it with
    [(OK, token)] for the new current token.  Either way it has then fired
    once and waits no more, so it never fires twice. *)
Theorem transaction_exclusive_and_resolved_once (uuid4 : nat -> N)
    (events : list Event) :
  let a := run uuid4 events plc_init in
  (forall c delay,
     reactor_calls a !! c = Some (delay, cb_transaction_expired) ->
     _transaction_timeout_call a = Some c /\ is_Some (transaction_id a)) /\
  (forall d, d < deferred_count a ->
     (fired_count d a = 1 /\ ~ is_pending d a) \/
     (fired_count d a = 0 /\
      exists call exp_timeout requester delay,
        (d, call, exp_timeout, requester) ∈ _pending_transactions a /\
        reactor_calls a !! call = Some (delay, cb_acquisition_timeout d) /\
        (let a' := reactor_fire uuid4 call a in
         deferred_fired a' =
           deferred_fired a ++ [(d, (InstErrorCode.TIMEOUT, None))] /\
         fired_count d a' = 1 /\ ~ is_pending d a') /\
        (forall rest tid,
           _pending_transactions a =
             (d, call, exp_timeout, requester) :: rest ->
           transaction_id a = Some tid ->
           let a' := (_end_transaction uuid4 tid a).2 in
           exists token,
             deferred_fired a' =
               deferred_fired a ++ [(d, (InstErrorCode.OK, Some token))] /\
             transaction_id a' = Some token /\
             fired_count d a' = 1 /\ ~ is_pending d a'))).
Proof.
  intros a.
  assert (HI : Inv a) by apply Inv_run, Inv_plc_init.
  destruct HI as [Ht Hd]. split; [apply (ok_expiration _ _ _ _ _ _ Ht)|].
  intros d Hlt.
  destruct (ok_once _ _ _ _ Hd d Hlt) as [H|[H0 Hw]]; [now left|right].
  split; [exact H0|].
  apply list_elem_of_fmap in Hw
    as ([[[d0 call] exp_timeout] requester] & Hd0 & Hitem).
  unfold pending_d in Hd0; simpl in Hd0; subst d0.
  destruct (ok_pending_calls _ _ _ _ _ _ Ht _ Hitem) as [delay Hcall].
  unfold pending_call, pending_d in Hcall; simpl in Hcall.
  exists call, exp_timeout, requester, delay.
  split; [exact Hitem|]. split; [exact Hcall|]. split.
  - pose proof (Inv_reactor_fire uuid4 call a (conj Ht Hd)) as HI'.
    pose proof Hitem as Hsplit.
    apply list_elem_of_split in Hsplit as (l1 & l2 & Hl).
    pose proof (reactor_fire_acquisition uuid4 a l1 l2 d call exp_timeout
                  requester delay (ok_pending_nodup _ _ _ _ _ _ Ht) Hl Hcall)
      as Hfire.
    rewrite Hfire in HI' |- *.
    split; [reflexivity|].
    apply (fired_once_after a _ d (InstErrorCode.TIMEOUT, None));
      [exact HI' | exact Hlt | exact H0 | reflexivity].
  - intros rest tid Hp Htid a'. subst a'.
    pose proof (Inv_end_transaction uuid4 tid a (conj Ht Hd)) as HI'.
    destruct (_end_transaction_current uuid4 tid a Htid)
      as (_ & _ & _ & Hcount & Hcase).
    rewrite Hp in Hcase. destruct Hcase as (Htok & _ & _ & _ & Hfired).
    exists (uuid_str (uuid4 (uuid_draws a))).
    split; [exact Hfired|]. split; [exact Htok|].
    eapply (fired_once_after a _ d); [exact HI'| |exact H0|exact Hfired].
    rewrite Hcount. exact Hlt.
Qed.

(** A deferred that exists is only ever answered by a grant or a timeout
    in the steps to come. *)
Lemma run_fired (uuid4 : nat -> N) (events : list Event) (a : Agent)
    (d : Deferred) :
  d < deferred_count a ->
  (forall v, (d, v) ∈ deferred_fired a -> grant_or_timeout v) ->
  forall v, (d, v) ∈ deferred_fired (run uuid4 events a) -> grant_or_timeout v.
Proof.
  revert a; induction events as [|e events IH]; intros a Hlt Hgood; simpl;
    [exact Hgood|].
  apply IH.
  - pose proof (step_deferred_count uuid4 e a). lia.
  - intros v Hin. apply step_fired in Hin as [Hin|[Hin|Hin]];
      [now apply Hgood | lia | exact Hin].
Qed.


(** What a step does to the queue and to the deferreds: nothing; or it
    answers the request it brings at once; or it queues that request at
    the tail; or it grants the head of the queue; or it times out one
    entry. *)
Lemma step_effect (uuid4 : nat -> N) (e : Event) (a : Agent) :
  Inv a ->
  let a' := step uuid4 e a in
  (deferred_fired a' = deferred_fired a /\
   _pending_transactions a' = _pending_transactions a) \/
  (exists v,
     deferred_fired a' = deferred_fired a ++ [(deferred_count a, v)] /\
     _pending_transactions a' = _pending_transactions a /\
     (v = (InstErrorCode.LOCKED_RESOURCE, None) \/
      exists token, v = (InstErrorCode.OK, Some token) /\
        transaction_id a = None /\ transaction_id a' = Some token)) \/
  (exists call exp_timeout requester,
     deferred_fired a' = deferred_fired a /\
     _pending_transactions a' =
       _pending_transactions a ++
         [(deferred_count a, call, exp_timeout, requester)]) \/
  (exists d call exp_timeout requester token,
     _pending_transactions a =
       (d, call, exp_timeout, requester) :: _pending_transactions a' /\
     deferred_fired a' =
       deferred_fired a ++ [(d, (InstErrorCode.OK, Some token))] /\
     transaction_id a' = Some token) \/
  (exists l1 l2 d call exp_timeout requester,
     _pending_transactions a = l1 ++ (d, call, exp_timeout, requester) :: l2 /\
     _pending_transactions a' = l1 ++ l2 /\
     deferred_fired a' =
       deferred_fired a ++ [(d, (InstErrorCode.TIMEOUT, None))]).
Proof.
  intros HI a'. subst a'.
  assert (Hend : forall tid b,
            _pending_transactions b = _pending_transactions a ->
            deferred_fired b = deferred_fired a ->
            let b' := (_end_transaction uuid4 tid b).2 in
            (deferred_fired b' = deferred_fired a /\
             _pending_transactions b' = _pending_transactions a) \/
            (exists d call exp_timeout requester token,
               _pending_transactions a =
                 (d, call, exp_timeout, requester) :: _pending_transactions b' /\
               deferred_fired b' =
                 deferred_fired a ++ [(d, (InstErrorCode.OK, Some token))] /\
               transaction_id b' = Some token)).
  { intros tid b Hp Hf b'. subst b'.
    destruct (decide (transaction_id b = Some tid)) as [Hcur|Hne].
    - destruct (_end_transaction_current uuid4 tid b Hcur)
        as (_ & _ & _ & _ & Hcase).
      rewrite Hp in Hcase.
      destruct (_pending_transactions a)
        as [|[[[d call] exp_timeout] requester] rest] eqn:E.
      + destruct Hcase as (_ & _ & _ & -> & ->). now left.
      + destruct Hcase as (Htok & _ & _ & -> & ->). right.
        exists d, call, exp_timeout, requester. rewrite Hf. eauto.
    - rewrite _end_transaction_other by exact Hne. now left. }
  destruct e; simpl.
  - unfold _request_transaction, _start_transaction. simpl.
    destruct (transaction_id a) as [current|] eqn:Htid; simpl.
    + destruct (_ =? _)%N; simpl.
      * right. left. eexists. split; [reflexivity|]. split; [reflexivity|].
        now left.
      * right. right. left. eauto.
    + right. left. eexists. split; [reflexivity|]. split; [reflexivity|].
      right. eauto.
  - destruct (Hend tid a eq_refl eq_refl) as [H|H]; [now left|].
    right. right. right. now left.
  - unfold reactor_fire.
    destruct (reactor_calls a !! c) as [[delay [|d]]|] eqn:Hc; [| |now left].
    + unfold transaction_expired. simpl.
      destruct (_in_protected_function a); [now left|].
      destruct (transaction_id a) as [tid|]; [|now left].
      match goal with
      | |- context [_end_transaction uuid4 tid ?b] =>
          destruct (Hend tid b eq_refl eq_refl) as [H|H]
      end; [now left|].
      right. right. right. now left.
    + destruct HI as [Ht Hd].
      destruct (decide (d ∈ pending_d <$> _pending_transactions a))
        as [Hw|Hw].
      * apply list_elem_of_fmap in Hw
          as ([[[d0 call] exp_timeout] requester] & Hd0 & Hitem).
        unfold pending_d in Hd0. simpl in Hd0. subst d0.
        apply list_elem_of_split in Hitem as (l1 & l2 & Hl).
        match goal with
        | |- context [acquisition_timeout d ?b] =>
            rewrite (acquisition_timeout_hit d b l1 l2
                       (d, call, exp_timeout, requester));
              [|exact (ok_pending_nodup _ _ _ _ _ _ Ht)|exact Hl|reflexivity]
        end.
        right. right. right. right.
        exists l1, l2, d, call, exp_timeout, requester. simpl. eauto.
      * rewrite acquisition_timeout_miss by exact Hw. now left.
  - left. unfold op_enter, _verify_transaction, _start_transaction. simpl.
    repeat (case_match; simpl; try done); simplify_eq; simpl; done.
  - unfold op_cleanup.
    destruct (_ || _); [|now left].
    destruct (transaction_id a) as [current|]; [|now left]. simpl.
    destruct (Hend current a eq_refl eq_refl) as [H|H]; [now left|].
    right. right. right. now left.
Qed.

(** ** What stays of the reactor and of the queue along a run *)

(** A step numbers its new delayed calls from [reactor_next_call] on, and
    leaves the calls numbered earlier as they are or takes them away: it
    never changes the delay or the callback of one. *)
Lemma step_reactor (uuid4 : nat -> N) (e : Event) (a : Agent) :
  reactor_next_call a <= reactor_next_call (step uuid4 e a) /\
  forall c x, c < reactor_next_call a ->
    reactor_calls (step uuid4 e a) !! c = Some x ->
    reactor_calls a !! c = Some x.
Proof.
  assert (Hwo : forall (b : Agent) c x,
            without_expiration_timer b !! c = Some x ->
            reactor_calls b !! c = Some x).
  { intros b c x. unfold without_expiration_timer.
    destruct (_transaction_timeout_call b); [|done].
    intros H. now apply lookup_delete_Some in H as [_ H]. }
  assert (Hend : forall tid (b : Agent),
            reactor_next_call b <=
              reactor_next_call (_end_transaction uuid4 tid b).2 /\
            forall c x, c < reactor_next_call b ->
              reactor_calls (_end_transaction uuid4 tid b).2 !! c = Some x ->
              reactor_calls b !! c = Some x).
  { intros tid b.
    destruct (decide (transaction_id b = Some tid)) as [Hcur|Hne];
      [|rewrite _end_transaction_other by exact Hne; simpl; split; [lia|done]].
    destruct b as [pid condemned client current timed_out timeout_call pending
                   max_acq min_exp default_exp max_exp protected state calls
                   next count fired draws].
    simpl in Hcur. subst current.
    unfold _end_transaction, _start_transaction. simpl.
    destruct (decide (Some tid = Some tid)) as [_|Hne]; [|congruence].
    destruct timeout_call as [c0|];
      destruct pending as [|[[[d call] exp_timeout] requester] rest];
      simpl; (split; [lia|]); intros c x Hlt H;
      repeat first
        [ apply lookup_insert_Some in H as [[? _]|[_ H]]; [lia|]
        | apply lookup_delete_Some in H as [_ H] ];
      exact H. }
  assert (Hloop : forall fuel i d (b : Agent),
            reactor_next_call (acquisition_timeout_loop fuel i d b)
              = reactor_next_call b /\
            reactor_calls (acquisition_timeout_loop fuel i d b)
              = reactor_calls b).
  { induction fuel as [|fuel IH]; intros i d b; simpl; [done|].
    destruct (_pending_transactions b !! i); [|done].
    destruct (decide _);
      match goal with
      | |- context [acquisition_timeout_loop fuel ?j d ?b'] =>
          destruct (IH j d b') as [-> ->]
      end; done. }
  destruct e; simpl.
  - unfold _request_transaction, _start_transaction; simpl.
    destruct (transaction_id a); simpl.
    + destruct (_ =? _)%N; simpl; (split; [lia|]); [done|].
      intros c x Hlt H.
      apply lookup_insert_Some in H as [[? _]|[_ H]]; [lia|exact H].
    + split; [lia|]. intros c x Hlt H.
      apply lookup_insert_Some in H as [[? _]|[_ H]]; [lia|exact H].
  - apply Hend.
  - unfold reactor_fire.
    destruct (reactor_calls a !! c) as [[delay [|d]]|] eqn:Hc;
      [| |split; [lia|done]].
    + unfold transaction_expired. simpl.
      destruct (_in_protected_function a); simpl.
      { split; [lia|]. intros c' x _ H.
        now apply lookup_delete_Some in H as [_ H]. }
      destruct (transaction_id a) as [tid|]; simpl.
      * match goal with
        | |- context [_end_transaction uuid4 tid ?b] =>
            destruct (Hend tid b) as [Hn Hc']
        end.
        simpl in Hn, Hc'. split; [exact Hn|].
        intros c' x Hlt H. apply Hc' in H; [|exact Hlt].
        now apply lookup_delete_Some in H as [_ H].
      * split; [lia|]. intros c' x _ H.
        now apply lookup_delete_Some in H as [_ H].
    + unfold acquisition_timeout.
      match goal with
      | |- context [acquisition_timeout_loop ?f ?j d ?b'] =>
          destruct (Hloop f j d b') as [-> ->]
      end.
      simpl. split; [lia|]. intros c' x _ H.
      now apply lookup_delete_Some in H as [_ H].
  - unfold op_enter, _verify_transaction, _start_transaction. simpl.
    repeat (case_match; simpl; try (split; [lia|done])); simplify_eq; simpl;
      (split; [lia|]); intros c x Hlt H;
      try (apply lookup_insert_Some in H as [[? _]|[_ H]]; [lia|]);
      exact H.
  - unfold op_cleanup.
    repeat (case_match; simpl; try (split; [lia|done])).
    match goal with
    | |- context [_end_transaction uuid4 ?tid ?b] =>
        destruct (Hend tid b) as [Hn Hc']
    end.
    simpl in Hn, Hc'. split; [exact Hn|exact Hc'].
Qed.

Lemma run_reactor (uuid4 : nat -> N) (events : list Event) (a : Agent) :
  reactor_next_call a <= reactor_next_call (run uuid4 events a) /\
  forall c x, c < reactor_next_call a ->
    reactor_calls (run uuid4 events a) !! c = Some x ->
    reactor_calls a !! c = Some x.
Proof.
  revert a; induction events as [|e events IH]; intros a; simpl;
    [split; [lia|done]|].
  destruct (IH (step uuid4 e a)) as [Hn Hc].
  destruct (step_reactor uuid4 e a) as [Hn' Hc'].
  split; [lia|]. intros c x Hlt H.
  apply Hc', Hc; [exact Hlt|lia|exact H].
Qed.

Lemma run_deferred_count (uuid4 : nat -> N) (events : list Event)
    (a : Agent) :
  deferred_count a <= deferred_count (run uuid4 events a).
Proof.
  revert a; induction events as [|e events IH]; intros a; simpl; [lia|].
  pose proof (IH (step uuid4 e a)).
  pose proof (step_deferred_count uuid4 e a). lia.
Qed.

(** An entry of the queue after a step was in the queue before, or it is
    the request the step brings. *)
Lemma step_pending_old (uuid4 : nat -> N) (e : Event) (a : Agent)
    (item : Pending) :
  Inv a -> item ∈ _pending_transactions (step uuid4 e a) ->
  item ∈ _pending_transactions a \/ pending_d item = deferred_count a.
Proof.
  intros HI Hin.
  destruct (step_effect uuid4 e a HI)
    as [[_ Hp]|[(v & _ & Hp & _)|[(call & exp_timeout & requester & _ & Hp)|
        [(d & call & exp_timeout & requester & token & Hp & _)|
         (l1 & l2 & d & call & exp_timeout & requester & Hp & Hp' & _)]]]].
  - left. now rewrite <- Hp.
  - left. now rewrite <- Hp.
  - rewrite Hp in Hin. apply elem_of_app in Hin as [Hin|Hin]; [now left|].
    apply list_elem_of_singleton in Hin. subst item. now right.
  - left. rewrite Hp. now right.
  - left. rewrite Hp. rewrite Hp' in Hin.
    apply elem_of_app in Hin as [Hin|Hin]; apply elem_of_app;
      [now left|right; now right].
Qed.

Lemma run_pending_old (uuid4 : nat -> N) (events : list Event) (a : Agent)
    (item : Pending) :
  Inv a -> pending_d item < deferred_count a ->
  item ∈ _pending_transactions (run uuid4 events a) ->
  item ∈ _pending_transactions a.
Proof.
  revert a; induction events as [|e events IH]; intros a HI Hlt; simpl;
    [done|].
  intros Hin. apply IH in Hin.
  - apply step_pending_old in Hin as [Hin|Heq]; [exact Hin|lia|exact HI].
  - now apply Inv_step.
  - pose proof (step_deferred_count uuid4 e a). lia.
Qed.

(** A deferred that fired once has fired once ever after: the log of the
    callbacks only grows, and by the invariant no deferred fires twice. *)
Lemma run_fired_once (uuid4 : nat -> N) (events : list Event) (a : Agent)
    (d : Deferred) :
  Inv a -> d < deferred_count a -> fired_count d a = 1 ->
  fired_count d (run uuid4 events a) = 1 /\
  ~ is_pending d (run uuid4 events a).
Proof.
  revert a; induction events as [|e events IH]; intros a HI Hlt H1; simpl.
  - split; [exact H1|].
    destruct HI as [_ Hd].
    destruct (ok_once _ _ _ _ Hd d Hlt) as [[_ H]|[H _]]; [exact H|].
    unfold fired_count in H1. congruence.
  - pose proof (Inv_step uuid4 e a HI) as HI'.
    pose proof (step_deferred_count uuid4 e a) as Hcount.
    apply IH; [exact HI'|lia|].
    assert (Hge : fired_count d a <= fired_count d (step uuid4 e a)).
    { unfold fired_count.
      destruct (step_effect uuid4 e a HI)
        as [[-> _]|[(v & -> & _)|[(call & exp_timeout & requester & -> & _)|
            [(d' & call & exp_timeout & requester & token & _ & -> & _)|
             (l1 & l2 & d' & call & exp_timeout & requester & _ & _ & ->)]]]];
        rewrite ?fired_times_app; lia. }
    destruct HI' as [_ Hd].
    destruct (ok_once _ _ _ _ Hd d ltac:(lia)) as [[H _]|[H _]];
      unfold fired_count in *; lia.
Qed.

(** A request that waits is answered when its acquisition timer comes
    due, with [(TIMEOUT, None)], and, when it is at the head of the queue,
    when the current transaction ends, with [(OK, token)] for the new
    token; after either it has fired once and waits no more. *)
Lemma waiting_resolved (uuid4 : nat -> N) (a : Agent) (d : Deferred)
    (call : DelayedCall) (exp_timeout : N) (requester : string) (delay : N) :
  Inv a -> d < deferred_count a -> fired_count d a = 0 ->
  (d, call, exp_timeout, requester) ∈ _pending_transactions a ->
  reactor_calls a !! call = Some (delay, cb_acquisition_timeout d) ->
  (let a' := reactor_fire uuid4 call a in
   deferred_fired a' =
     deferred_fired a ++ [(d, (InstErrorCode.TIMEOUT, None))] /\
   fired_count d a' = 1 /\ ~ is_pending d a') /\
  (forall rest tid,
     _pending_transactions a = (d, call, exp_timeout, requester) :: rest ->
     transaction_id a = Some tid ->
     let a' := (_end_transaction uuid4 tid a).2 in
     let token := uuid_str (uuid4 (uuid_draws a)) in
     deferred_fired a' =
       deferred_fired a ++ [(d, (InstErrorCode.OK, Some token))] /\
     transaction_id a' = Some token /\
     fired_count d a' = 1 /\ ~ is_pending d a').
Proof.
  intros [Ht Hd] Hlt H0 Hitem Hcall. split.
  - pose proof (Inv_reactor_fire uuid4 call a (conj Ht Hd)) as HI'.
    pose proof Hitem as Hsplit.
    apply list_elem_of_split in Hsplit as (l1 & l2 & Hl).
    pose proof (reactor_fire_acquisition uuid4 a l1 l2 d call exp_timeout
                  requester delay (ok_pending_nodup _ _ _ _ _ _ Ht) Hl Hcall)
      as Hfire.
    cbv zeta. rewrite Hfire in HI' |- *.
    split; [reflexivity|].
    apply (fired_once_after a _ d (InstErrorCode.TIMEOUT, None));
      [exact HI' | exact Hlt | exact H0 | reflexivity].
  - intros rest tid Hp Htid a' token. subst a' token.
    pose proof (Inv_end_transaction uuid4 tid a (conj Ht Hd)) as HI'.
    destruct (_end_transaction_current uuid4 tid a Htid)
      as (_ & _ & _ & Hcount & Hcase).
    rewrite Hp in Hcase. destruct Hcase as (Htok & _ & _ & _ & Hfired).
    split; [exact Hfired|]. split; [exact Htok|].
    eapply (fired_once_after a _ d); [exact HI'| |exact H0|exact Hfired].
    rewrite Hcount. exact Hlt.
Qed.

(** [op_set_observatory] with [MAX_EXP_TIMEOUT] changes no attribute of
    the transaction manager but [_max_exp_timeout]. *)
Lemma Inv_max_exp_timeout_lowered (a : Agent) :
  Inv a -> Inv (max_exp_timeout_lowered a).
Proof.
  intros HI. unfold max_exp_timeout_lowered, op_set_observatory_body,
    set_observatory_loop. simpl.
  destruct (Z.of_N (_min_exp_timeout a) <? 10)%Z; simpl; exact HI.
Qed.

(** C2.  [_request_transaction] by cases, on an agent that satisfies the
    invariant.  It returns a new deferred [d].  The expiration timeout is
    brought into [[_min_exp_timeout, _max_exp_timeout]] ([None] is the
    default), and the acquisition timeout is cut at [_max_acq_timeout]
    ([None] is 0).  With no current transaction, a transaction starts: the
    token is a new UUID, the expiration timer is armed for the expiration
    timeout, and [d] fires at once with [(OK, token)].  With a current
    transaction and an acquisition timeout of 0, [d] fires at once with
    [(LOCKED_RESOURCE, None)] and the queue is as it was.  Otherwise
    [(d, timer, exp_timeout, requester)] goes to the end of the queue, the
    acquisition timer is armed for the acquisition timeout, and [d] has
    not fired.  It is answered later: after any events, [d] has fired
    exactly once, with a grant or with [(TIMEOUT, None)], and waits no
    more; or it has not fired and its entry is still queued with its timer
    still armed, and then the timer coming due fires it with
    [(TIMEOUT, None)], and the end of the current transaction, when the
    entry is at the head, fires it with [(OK, token)] for the new current
    token.  So in every run in which the acquisition timer comes due, [d]
    has fired exactly once from then on. *)
Theorem _request_transaction_cases (uuid4 : nat -> N)
    (acq_timeout exp_timeout : option N) (requester : string) (a : Agent) :
  Inv a ->
  let d := deferred_count a in
  let a' :=
    (_request_transaction uuid4 acq_timeout exp_timeout requester a).2 in
  let in_range e :=
    if (_max_exp_timeout a <? e)%N then _max_exp_timeout a
    else if (e <? _min_exp_timeout a)%N then _min_exp_timeout a
    else e in
  let exp :=
    match exp_timeout with
    | None => _default_exp_timeout a
    | Some e => in_range e
    end in
  let acq :=
    match acq_timeout with
    | None => 0%N
    | Some t => if (_max_acq_timeout a <? t)%N then _max_acq_timeout a else t
    end in
  (_request_transaction uuid4 acq_timeout exp_timeout requester a).1 = d /\
  match transaction_id a with
  | None =>
      let token := uuid_str (uuid4 (uuid_draws a)) in
      transaction_id a' = Some token /\
      uuid_draws a' = S (uuid_draws a) /\
      _transaction_timeout_call a' = Some (reactor_next_call a) /\
      reactor_calls a' =
        <[reactor_next_call a := (in_range exp, cb_transaction_expired)]>
          (reactor_calls a) /\
      deferred_fired a' =
        deferred_fired a ++ [(d, (InstErrorCode.OK, Some token))] /\
      _pending_transactions a' = _pending_transactions a
  | Some current =>
      transaction_id a' = Some current /\
      _transaction_timeout_call a' = _transaction_timeout_call a /\
      if (acq =? 0)%N then
        deferred_fired a' =
          deferred_fired a ++ [(d, (InstErrorCode.LOCKED_RESOURCE, None))] /\
        _pending_transactions a' = _pending_transactions a /\
        reactor_calls a' = reactor_calls a
      else
        let timer := reactor_next_call a in
        _pending_transactions a' =
          _pending_transactions a ++ [(d, timer, exp, requester)] /\
        reactor_calls a' =
          <[timer := (acq, cb_acquisition_timeout d)]> (reactor_calls a) /\
        deferred_fired a' = deferred_fired a /\
        fired_count d a' = 0 /\
        (forall events,
           let a2 := run uuid4 events a' in
           (fired_count d a2 = 1 /\ ~ is_pending d a2 /\
            forall v, (d, v) ∈ deferred_fired a2 -> grant_or_timeout v) \/
           (fired_count d a2 = 0 /\
            (d, timer, exp, requester) ∈ _pending_transactions a2 /\
            reactor_calls a2 !! timer =
              Some (acq, cb_acquisition_timeout d) /\
            (let a3 := reactor_fire uuid4 timer a2 in
             deferred_fired a3 =
               deferred_fired a2 ++ [(d, (InstErrorCode.TIMEOUT, None))] /\
             fired_count d a3 = 1 /\ ~ is_pending d a3) /\
            (forall rest tid,
               _pending_transactions a2 =
                 (d, timer, exp, requester) :: rest ->
               transaction_id a2 = Some tid ->
               let a3 := (_end_transaction uuid4 tid a2).2 in
               let token := uuid_str (uuid4 (uuid_draws a2)) in
               deferred_fired a3 =
                 deferred_fired a2 ++ [(d, (InstErrorCode.OK, Some token))] /\
               transaction_id a3 = Some token /\
               fired_count d a3 = 1 /\ ~ is_pending d a3))) /\
        (forall before after,
           let a2 := run uuid4 (before ++ ev_timer timer :: after) a' in
           fired_count d a2 = 1 /\ ~ is_pending d a2 /\
           forall v, (d, v) ∈ deferred_fired a2 -> grant_or_timeout v)
  end.
Proof.
  intros HI d a' in_range exp acq.
  assert (Hexp : clamp_exp_timeout exp_timeout a = exp) by reflexivity.
  assert (Hexp' : forall e, in_range e =
            if (_max_exp_timeout a <? e)%N then _max_exp_timeout a
            else if (e <? _min_exp_timeout a)%N then _min_exp_timeout a
            else e) by reflexivity.
  assert (Hacq : clamp_acq_timeout acq_timeout a = acq) by reflexivity.
  pose proof (Inv_request_transaction uuid4 acq_timeout exp_timeout requester
                a HI) as HI'.
  fold a' in HI'.
  clearbody exp acq in_range.
  destruct HI as [Ht Hd].
  assert (Hfresh : fired_count d a = 0).
  { apply (fired_times_fresh _ _ (deferred_count a)); [|subst d; lia].
    apply (ok_fired_fresh _ _ _ _ Hd). }
  assert (Hcases :
    (_request_transaction uuid4 acq_timeout exp_timeout requester a).1 = d /\
    deferred_count a' = S d /\
    match transaction_id a with
    | None =>
        transaction_id a' = Some (uuid_str (uuid4 (uuid_draws a))) /\
        uuid_draws a' = S (uuid_draws a) /\
        _transaction_timeout_call a' = Some (reactor_next_call a) /\
        reactor_calls a' =
          <[reactor_next_call a := (in_range exp, cb_transaction_expired)]>
            (reactor_calls a) /\
        deferred_fired a' =
          deferred_fired a ++
            [(d, (InstErrorCode.OK, Some (uuid_str (uuid4 (uuid_draws a)))))] /\
        _pending_transactions a' = _pending_transactions a
    | Some current =>
        transaction_id a' = Some current /\
        _transaction_timeout_call a' = _transaction_timeout_call a /\
        if (acq =? 0)%N then
          deferred_fired a' =
            deferred_fired a ++ [(d, (InstErrorCode.LOCKED_RESOURCE, None))] /\
          _pending_transactions a' = _pending_transactions a /\
          reactor_calls a' = reactor_calls a
        else
          _pending_transactions a' =
            _pending_transactions a ++
              [(d, reactor_next_call a, exp, requester)] /\
          reactor_calls a' =
            <[reactor_next_call a := (acq, cb_acquisition_timeout d)]>
              (reactor_calls a) /\
          deferred_fired a' = deferred_fired a /\
          reactor_next_call a' = S (reactor_next_call a)
    end).
  { subst a' d. unfold _request_transaction, _start_transaction.
    rewrite Hexp, Hacq. simpl.
    destruct (transaction_id a) as [current|] eqn:Htid; simpl.
    - destruct (acq =? 0)%N; simpl; rewrite ?Htid; repeat split.
    - rewrite ?Htid, ?Hexp'. repeat split. }
  destruct Hcases as (Hret & Hcount & Hcases).
  split; [exact Hret|].
  destruct (transaction_id a) as [current|] eqn:Htid; [|exact Hcases].
  destruct Hcases as (Htid' & Hcall' & Hcases).
  split; [exact Htid'|]. split; [exact Hcall'|].
  destruct (acq =? 0)%N; [exact Hcases|].
  destruct Hcases as (Hp & Hcalls & Hfired & Hnext).
  intros timer.
  assert (H0 : fired_count d a' = 0).
  { unfold fired_count in *. now rewrite Hfired. }
  assert (Hgood : forall events v,
            (d, v) ∈ deferred_fired (run uuid4 events a') ->
            grant_or_timeout v).
  { intros events v. apply run_fired; [lia|].
    intros v' Hin. rewrite Hfired in Hin.
    apply (ok_fired_fresh _ _ _ _ Hd) in Hin. subst d. lia. }
  assert (Hlater : forall events,
    let a2 := run uuid4 events a' in
    (fired_count d a2 = 1 /\ ~ is_pending d a2) \/
    (fired_count d a2 = 0 /\
     (d, timer, exp, requester) ∈ _pending_transactions a2 /\
     reactor_calls a2 !! timer = Some (acq, cb_acquisition_timeout d))).
  { intros events a2.
    pose proof (Inv_run uuid4 events a' HI') as HI2. fold a2 in HI2.
    assert (Hlt2 : d < deferred_count a2).
    { pose proof (run_deferred_count uuid4 events a'). subst a2. lia. }
    destruct HI2 as [Ht2 Hd2].
    destruct (ok_once _ _ _ _ Hd2 d Hlt2) as [H|[H20 Hw]]; [now left|right].
    split; [exact H20|].
    apply list_elem_of_fmap in Hw as (item & Hd0 & Hitem).
    assert (Hold : item ∈ _pending_transactions a').
    { apply (run_pending_old uuid4 events a' item HI'); [|exact Hitem].
      rewrite <- Hd0. lia. }
    rewrite Hp in Hold. apply elem_of_app in Hold as [Hold|Hold].
    { apply (ok_pending_fresh _ _ _ _ Hd) in Hold. subst d. lia. }
    apply list_elem_of_singleton in Hold. subst item.
    split; [exact Hitem|].
    destruct (ok_pending_calls _ _ _ _ _ _ Ht2 _ Hitem) as [delay Hcall].
    unfold pending_call, pending_d in Hcall; simpl in Hcall.
    pose proof Hcall as Hcall0.
    apply (proj2 (run_reactor uuid4 events a')) in Hcall0;
      [|rewrite Hnext; subst timer; lia].
    rewrite Hcalls in Hcall0. subst timer.
    rewrite lookup_insert_eq in Hcall0. injection Hcall0 as <-.
    exact Hcall. }
  split; [exact Hp|]. split; [exact Hcalls|]. split; [exact Hfired|].
  split; [exact H0|]. split.
  - intros events a2.
    pose proof (Inv_run uuid4 events a' HI') as HI2. fold a2 in HI2.
    destruct (Hlater events) as [[H1 Hnw]|(H20 & Hitem & Hcall)];
      fold a2 in H1 || fold a2 in H20.
    + left. split; [exact H1|]. split; [exact Hnw|]. apply Hgood.
    + right. split; [exact H20|]. split; [exact Hitem|].
      split; [exact Hcall|].
      apply (waiting_resolved uuid4 a2 d timer exp requester acq);
        [exact HI2| |exact H20|exact Hitem|exact Hcall].
      destruct HI2 as [_ Hd2].
      apply (ok_pending_fresh _ _ _ _ Hd2 _ Hitem).
  - intros before after a2.
    assert (Ha2 : a2 = run uuid4 after
                         (reactor_fire uuid4 timer (run uuid4 before a'))).
    { subst a2. unfold run. now rewrite foldl_app. }
    pose proof (Inv_run uuid4 before a' HI') as HI2.
    assert (Hlt2 : d < deferred_count (run uuid4 before a')).
    { pose proof (run_deferred_count uuid4 before a'). lia. }
    assert (Honce : fired_count d a2 = 1 /\ ~ is_pending d a2).
    { rewrite Ha2.
      destruct (Hlater before) as [[H1 Hnw]|(H20 & Hitem & Hcall)].
      - apply (run_fired_once uuid4 (ev_timer timer :: after)
                 (run uuid4 before a') d); assumption.
      - destruct (waiting_resolved uuid4 (run uuid4 before a') d timer exp
                    requester acq HI2 Hlt2 H20 Hitem Hcall)
          as [(_ & H1 & _) _].
        apply (run_fired_once uuid4 after _ d);
          [now apply Inv_reactor_fire| |exact H1].
        pose proof (step_deferred_count uuid4 (ev_timer timer)
                      (run uuid4 before a')) as Hstep.
        simpl in Hstep. lia. }
    destruct Honce as [H1 Hnw].
    split; [exact H1|]. split; [exact Hnw|]. apply Hgood.
Qed.

(** The claim at an agent whose transaction is held: the request of a
    second caller, who waits up to five seconds, is queued with its timer
    armed for five seconds, and in every run in which that timer comes due
    it has been answered exactly once. *)
Lemma _request_transaction_cases_witness :
  let a := run sample_uuid4 [ev_request_transaction None None "first"]
             plc_init in
  let a' :=
    (_request_transaction sample_uuid4 (Some 5%N) None "second" a).2 in
  Inv a /\
  _pending_transactions a' = [(1, 1, 300%N, "second")] /\
  reactor_calls a' !! 1 = Some (5%N, cb_acquisition_timeout 1) /\
  forall before after,
    let a2 := run sample_uuid4 (before ++ ev_timer 1 :: after) a' in
    fired_count 1 a2 = 1 /\ ~ is_pending 1 a2 /\
    forall v, (1, v) ∈ deferred_fired a2 -> grant_or_timeout v.
Proof.
  intros a a'.
  assert (HI : Inv a) by apply Inv_run, Inv_plc_init.
  split; [exact HI|].
  pose proof (_request_transaction_cases sample_uuid4 (Some 5%N) None "second"
                a HI) as H.
  cbv zeta in H. destruct H as (_ & H).
  assert (Htid : transaction_id a =
                   Some "00000000-0000-0000-0000-000000000007")
    by reflexivity.
  rewrite Htid in H. destruct H as (_ & _ & H).
  match type of H with
  | if ?c then _ else _ =>
      assert (Hc : c = false) by reflexivity; rewrite Hc in H
  end.
  destruct H as (Hp & Hcalls & _ & _ & _ & Hlater).
  split; [exact Hp|]. split; [|exact Hlater].
  fold a' in Hcalls. rewrite Hcalls. reflexivity.
Defined.

(** C3, as stated, fails.  The holder has lowered [MAX_EXP_TIMEOUT] to 10
    while a second caller waits for a transaction of 1000 seconds: at the
    end of the holder's transaction the waiter is granted a transaction
    whose expiration timer is armed for 10 seconds, not for the 1000 of
    its entry. *)
Lemma grant_not_for_requested_timeout :
  ~ (forall (a : Agent) (tid : string) (d : Deferred) (call : DelayedCall)
            (exp_timeout : N) (requester : string) (rest : list Pending),
       Inv a -> transaction_id a = Some tid ->
       _pending_transactions a = (d, call, exp_timeout, requester) :: rest ->
       let a' := (_end_transaction sample_uuid4 tid a).2 in
       exists timer,
         _transaction_timeout_call a' = Some timer /\
         reactor_calls a' !! timer =
           Some (exp_timeout, cb_transaction_expired)).
Proof.
  intros H.
  destruct (H lowered_with_waiter "00000000-0000-0000-0000-000000000007"
              1 1 1000%N "second" [])
    as (timer & Htimer & Hcall).
  - apply Inv_max_exp_timeout_lowered, Inv_run, Inv_plc_init.
  - reflexivity.
  - reflexivity.
  - vm_compute in Htimer. injection Htimer as <-.
    vm_compute in Hcall. discriminate Hcall.
Qed.

(** C3, amended.  [_end_transaction(tid)] by cases, on an agent that
    satisfies the invariant.  When [tid] is the current token it returns
    [OK], resets the expired flag, cancels the expiration timer if it is
    still armed and clears the transaction; with an empty queue nothing
    else happens, and otherwise the head entry leaves the queue, its
    acquisition timer, armed until then, is cancelled, a transaction
    starts under a new token, and the entry's deferred fires with
    [(OK, token)].  The expiration timer of the new transaction is armed
    for the entry's [exp_timeout] brought into
    [[_min_exp_timeout, _max_exp_timeout]] as the range is then: for
    [_max_exp_timeout] when the entry asks for more, for
    [_min_exp_timeout] when it asks for less.  With no current transaction
    it returns [RESOURCE_NOT_LOCKED]; with a current transaction other
    than [tid], which the empty string always is, it returns
    [LOCKED_RESOURCE]; in both cases the agent is as it was. *)
Theorem _end_transaction_cases (uuid4 : nat -> N) (tid : string) (a : Agent) :
  Inv a ->
  let success := (_end_transaction uuid4 tid a).1 in
  let a' := (_end_transaction uuid4 tid a).2 in
  let calls :=
    match _transaction_timeout_call a with
    | Some timer => delete timer (reactor_calls a)
    | None => reactor_calls a
    end in
  match transaction_id a with
  | None => success = InstErrorCode.RESOURCE_NOT_LOCKED /\ a' = a
  | Some current =>
      current <> "" /\
      if decide (tid = current) then
        success = InstErrorCode.OK /\
        _transaction_timed_out a' = false /\
        (forall c, _transaction_timeout_call a = Some c ->
           is_Some (reactor_calls a !! c) /\ reactor_calls a' !! c = None) /\
        match _pending_transactions a with
        | [] =>
            transaction_id a' = None /\
            _transaction_timeout_call a' = None /\
            reactor_calls a' = calls /\
            _pending_transactions a' = [] /\
            deferred_fired a' = deferred_fired a
        | (d, call, exp_timeout, requester) :: rest =>
            let token := uuid_str (uuid4 (uuid_draws a)) in
            let delay :=
              if (_max_exp_timeout a <? exp_timeout)%N then _max_exp_timeout a
              else if (exp_timeout <? _min_exp_timeout a)%N
                   then _min_exp_timeout a
                   else exp_timeout in
            transaction_id a' = Some token /\
            _transaction_timeout_call a' = Some (reactor_next_call a) /\
            reactor_calls a' =
              <[reactor_next_call a := (delay, cb_transaction_expired)]>
                (delete call calls) /\
            is_Some (reactor_calls a !! call) /\
            reactor_calls a' !! call = None /\
            _pending_transactions a' = rest /\
            deferred_fired a' =
              deferred_fired a ++ [(d, (InstErrorCode.OK, Some token))]
        end
      else success = InstErrorCode.LOCKED_RESOURCE /\ a' = a
  end.
Proof.
  intros [Ht Hd] success a' calls. subst success a'.
  assert (Hcalls : without_expiration_timer a = calls) by reflexivity.
  clearbody calls.
  destruct (transaction_id a) as [current|] eqn:Htid.
  2: { rewrite _end_transaction_other by congruence. now rewrite Htid. }
  split.
  { intros ->. pose proof (ok_token _ _ _ _ _ _ Ht "" eq_refl). discriminate. }
  destruct (decide (tid = current)) as [->|Hne].
  2: { rewrite _end_transaction_other by congruence. now rewrite Htid. }
  destruct (_end_transaction_current uuid4 current a Htid)
    as (Hok & Hto & _ & _ & Hcase).
  rewrite Hcalls in Hcase.
  split; [exact Hok|]. split; [exact Hto|].
  assert (Hfresh : forall c, is_Some (reactor_calls a !! c) ->
            c <> reactor_next_call a).
  { intros c Hc. apply (ok_calls_fresh _ _ _ _ _ _ Ht) in Hc. lia. }
  assert (Hgone : forall c, _transaction_timeout_call a = Some c ->
            calls !! c = None).
  { intros c Hc. rewrite <- Hcalls. unfold without_expiration_timer.
    rewrite Hc. apply lookup_delete_eq. }
  split.
  - intros c Hc.
    destruct (ok_calls_active _ _ _ _ _ _ Ht c Hc) as [delay Hactive].
    split; [eauto|].
    destruct (_pending_transactions a) as [|[[[d call] exp_timeout] requester] rest].
    + destruct Hcase as (_ & _ & -> & _). now apply Hgone.
    + destruct Hcase as (_ & _ & -> & _).
      rewrite lookup_insert_ne by (symmetry; apply Hfresh; eauto).
      apply lookup_delete_None. right. now apply Hgone.
  - destruct (_pending_transactions a)
      as [|[[[d call] exp_timeout] requester] rest] eqn:Hp; [exact Hcase|].
    destruct Hcase as (H1 & H2 & H3 & H4 & H5).
    destruct (ok_pending_calls _ _ _ _ _ _ Ht (d, call, exp_timeout, requester))
      as [delay Hcall]; [rewrite ?Hp; left|].
    unfold pending_call in Hcall; simpl in Hcall.
    cbv zeta.
    repeat split; try assumption; [eauto|].
    rewrite H3, lookup_insert_ne by (symmetry; apply Hfresh; eauto).
    apply lookup_delete_eq.
Qed.

(** The amended claim at the agent of the counterexample: the holder's
    token ends the transaction and the waiter, who asked for 1000 seconds,
    is granted a transaction of 10; the empty string is turned away. *)
Lemma _end_transaction_cases_witness :
  let a := lowered_with_waiter in
  let a' :=
    (_end_transaction sample_uuid4 "00000000-0000-0000-0000-000000000007" a).2
  in
  Inv a /\
  _pending_transactions a = [(1, 1, 1000%N, "second")] /\
  transaction_id a' = Some "00000000-0000-0001-0000-000000000007" /\
  reactor_calls a' = {[ 2 := (10%N, cb_transaction_expired) ]} /\
  deferred_fired a' =
    deferred_fired a ++
      [(1, (InstErrorCode.OK, Some "00000000-0000-0001-0000-000000000007"))] /\
  (_end_transaction sample_uuid4 "" a).1 = InstErrorCode.LOCKED_RESOURCE.
Proof.
  intros a a'.
  assert (HI : Inv a)
    by apply Inv_max_exp_timeout_lowered, Inv_run, Inv_plc_init.
  assert (Htid : transaction_id a =
                 Some "00000000-0000-0000-0000-000000000007") by reflexivity.
  assert (Hp : _pending_transactions a = [(1, 1, 1000%N, "second")])
    by reflexivity.
  split; [exact HI|]. split; [exact Hp|].
  pose proof (_end_transaction_cases sample_uuid4
                "00000000-0000-0000-0000-000000000007" a HI) as H.
  pose proof (_end_transaction_cases sample_uuid4 "" a HI) as H'.
  cbv zeta in H, H'. rewrite Htid in H, H'.
  destruct H as (_ & H). destruct H' as (_ & H').
  destruct (decide ("00000000-0000-0000-0000-000000000007" =
                    "00000000-0000-0000-0000-000000000007")) as [_|Hne];
    [|contradiction].
  destruct (decide ("" = "00000000-0000-0000-0000-000000000007")) as [Heq|_];
    [discriminate|].
  destruct H as (_ & _ & _ & H). rewrite Hp in H.
  destruct H as (Htok & _ & Hcalls & _ & _ & _ & Hfired).
  destruct H' as (Hlocked & _).
  split; [exact Htok|]. split; [|split; [exact Hfired | exact Hlocked]].
  fold a' in Hcalls. rewrite Hcalls. reflexivity.
Defined.

(** ** Verification of the transaction of a request *)

(** C5, as stated, fails.  On a free agent whose [MAX_EXP_TIMEOUT] was
    lowered to 10, below the default of 300, ['create'] starts a
    transaction whose expiration timer is armed for 10 seconds, not for
    the default expiration timeout. *)
Lemma implicit_transaction_not_for_default_timeout :
  ~ (forall a : Agent,
       Inv a -> transaction_id a = None ->
       let a' := (_verify_transaction sample_uuid4 "create" "get" a).2 in
       exists timer,
         _transaction_timeout_call a' = Some timer /\
         reactor_calls a' !! timer =
           Some (_default_exp_timeout a, cb_transaction_expired)).
Proof.
  intros H.
  destruct (H (max_exp_timeout_lowered plc_init))
    as (timer & Htimer & Hcall).
  - apply Inv_max_exp_timeout_lowered, Inv_plc_init.
  - reflexivity.
  - vm_compute in Htimer. injection Htimer as <-.
    vm_compute in Hcall. discriminate Hcall.
Qed.

(** C5, amended.  [_verify_transaction(tid, optype)] by cases, on an agent
    that satisfies the invariant.  ['create'] on a free agent starts a
    transaction under a new token, without deferred and without queueing,
    and is [OK]; its expiration timer is armed for the default expiration
    timeout brought into [[_min_exp_timeout, _max_exp_timeout]], which is
    [_max_exp_timeout] when the default is above it.  On a locked agent
    ['create'] is [LOCKED_RESOURCE].  ['none'] is [OK] when no transaction
    is current and [optype] is ['get'], otherwise [LOCKED_RESOURCE].  Any
    other [tid] whose length is not 36 is [INVALID_TRANSACTION_ID]; one of
    length 36 is [OK] when it is the current token and [LOCKED_RESOURCE]
    otherwise.  In particular the current token always verifies.  Only
    ['create'] changes the agent. *)
Theorem _verify_transaction_cases (uuid4 : nat -> N) (tid optype : string)
    (a : Agent) :
  Inv a ->
  let success := (_verify_transaction uuid4 tid optype a).1 in
  let a' := (_verify_transaction uuid4 tid optype a).2 in
  (transaction_id a = Some tid -> success = InstErrorCode.OK /\ a' = a) /\
  if decide (tid = "create") then
    match transaction_id a with
    | None =>
        let default := _default_exp_timeout a in
        let delay :=
          if (_max_exp_timeout a <? default)%N then _max_exp_timeout a
          else if (default <? _min_exp_timeout a)%N then _min_exp_timeout a
          else default in
        success = InstErrorCode.OK /\
        transaction_id a' = Some (uuid_str (uuid4 (uuid_draws a))) /\
        uuid_draws a' = S (uuid_draws a) /\
        _transaction_timeout_call a' = Some (reactor_next_call a) /\
        reactor_calls a' =
          <[reactor_next_call a := (delay, cb_transaction_expired)]>
            (reactor_calls a) /\
        reactor_next_call a' = S (reactor_next_call a) /\
        _pending_transactions a' = _pending_transactions a /\
        deferred_count a' = deferred_count a /\
        deferred_fired a' = deferred_fired a /\
        _transaction_timed_out a' = _transaction_timed_out a /\
        _in_protected_function a' = _in_protected_function a
    | Some _ => success = InstErrorCode.LOCKED_RESOURCE /\ a' = a
    end
  else if decide (tid = "none") then
    a' = a /\
    success =
      if decide (transaction_id a = None /\ optype = "get")
      then InstErrorCode.OK else InstErrorCode.LOCKED_RESOURCE
  else if decide (String.length tid = 36) then
    a' = a /\
    success =
      if decide (transaction_id a = Some tid)
      then InstErrorCode.OK else InstErrorCode.LOCKED_RESOURCE
  else success = InstErrorCode.INVALID_TRANSACTION_ID /\ a' = a.
Proof.
  intros [Ht Hd] success a'. subst success a'.
  assert (Hlen : forall t, transaction_id a = Some t -> String.length t = 36)
    by apply (ok_token _ _ _ _ _ _ Ht).
  unfold _verify_transaction, _start_transaction. split.
  - intros Hcur. pose proof (Hlen tid Hcur) as H36.
    assert (tid <> "create") by (intros ->; discriminate).
    assert (tid <> "none") by (intros ->; discriminate).
    repeat case_bool_decide; simpl; try done; try congruence.
  - destruct (decide (tid = "create")) as [->|Hcreate].
    + simpl. destruct (transaction_id a) eqn:Htid; simpl; done.
    + destruct (decide (tid = "none")) as [->|Hnone].
      * simpl. destruct (transaction_id a) as [current|] eqn:Htid.
        -- assert (current <> "none").
           { intros ->. pose proof (Hlen "none" eq_refl). discriminate. }
           repeat case_bool_decide; repeat case_decide; simpl; try done;
             destruct_and?; congruence.
        -- repeat case_bool_decide; repeat case_decide; simpl; try done;
             try (destruct_and?; congruence).
           all: exfalso; eauto.
      * destruct (decide (String.length tid = 36)) as [H36|H36].
        -- repeat case_bool_decide; repeat case_decide; simpl; try done;
             destruct_and?; congruence.
        -- repeat case_bool_decide; simpl; try done; tauto.
Qed.

(** The amended claim at the free agent of the counterexample, where
    ['create'] starts a transaction of 10 seconds, and at an agent whose
    transaction is held: the holder's token verifies, ['create'] and
    ['none'] are turned away. *)
Lemma _verify_transaction_cases_witness :
  let tid := "00000000-0000-0000-0000-000000000007" in
  let free := max_exp_timeout_lowered plc_init in
  let a :=
    run sample_uuid4 [ev_request_transaction None None "first"] plc_init in
  Inv free /\ Inv a /\
  (_verify_transaction sample_uuid4 "create" "get" free).1 =
    InstErrorCode.OK /\
  reactor_calls (_verify_transaction sample_uuid4 "create" "get" free).2 =
    {[ 0 := (10%N, cb_transaction_expired) ]} /\
  (_verify_transaction sample_uuid4 tid "set" a).1 = InstErrorCode.OK /\
  (_verify_transaction sample_uuid4 "create" "get" a).1 =
    InstErrorCode.LOCKED_RESOURCE /\
  (_verify_transaction sample_uuid4 "none" "get" a).1 =
    InstErrorCode.LOCKED_RESOURCE.
Proof.
  intros tid free a.
  assert (HI0 : Inv free)
    by apply Inv_max_exp_timeout_lowered, Inv_plc_init.
  assert (HI : Inv a) by apply Inv_run, Inv_plc_init.
  split; [exact HI0|]. split; [exact HI|].
  destruct (_verify_transaction_cases sample_uuid4 "create" "get" free HI0)
    as [_ Hfree].
  destruct (_verify_transaction_cases sample_uuid4 tid "set" a HI)
    as [Hcur _].
  destruct (_verify_transaction_cases sample_uuid4 "create" "get" a HI)
    as [_ Hcreate].
  destruct (_verify_transaction_cases sample_uuid4 "none" "get" a HI)
    as [_ Hnone].
  split; [exact (proj1 Hfree)|].
  split; [exact (proj1 (proj2 (proj2 (proj2 (proj2 Hfree)))))|].
  split; [exact (proj1 (Hcur eq_refl))|].
  split; [exact (proj1 Hcreate) | exact (proj2 Hnone)].
Defined.
(** ** Protected operations *)

(** A failed verification leaves the agent as the handler found it, the
    flag apart. *)
Lemma _verify_transaction_error (uuid4 : nat -> N) (tid optype : string)
    (a : Agent) :
  InstErrorCode.is_error (_verify_transaction uuid4 tid optype a).1 = true ->
  (_verify_transaction uuid4 tid optype a).2 = a.
Proof.
  unfold _verify_transaction, _start_transaction.
  repeat (case_match; simpl; try done); simplify_eq; simpl in *; try done.
Qed.

(** C6, as the code has it.  In every protected operation a failed
    [_verify_transaction] is answered by [reply_ok] with the failure and a
    [return] that comes before the [try:] block, so the [finally:] clause
    is not run: the agent is left with [_in_protected_function] set, where
    the claim has it cleared. *)
Theorem verify_failure_leaves_flag_set (uuid4 : nat -> N) (op : Operation)
    (tid : string) (body : Body) (publish : Publishing) (a : Agent) :
  let failure :=
    (_verify_transaction uuid4 tid (optype op)
       (set_in_protected_function true a)).1 in
  InstErrorCode.is_error failure = true ->
  run_op uuid4 op tid body publish a =
    (replied (mkReply (Some failure) None None),
     set_in_protected_function true a) /\
  _in_protected_function (run_op uuid4 op tid body publish a).2 = true.
Proof.
  intros failure Herr. subst failure.
  pose proof (_verify_transaction_error uuid4 tid (optype op) _ Herr) as Hsame.
  unfold run_op, op_enter.
  destruct (_verify_transaction uuid4 tid (optype op)
              (set_in_protected_function true a)) as [success a1].
  simpl in Herr, Hsame. subst a1. rewrite Herr. simpl. done.
Qed.

(** The claim fails at [op_get_device] called with a malformed token on
    the agent as [plc_init] leaves it. *)
Lemma verify_failure_leaves_flag_set_witness :
  InstErrorCode.is_error
    (_verify_transaction sample_uuid4 "bogus" (optype op_get_device)
       (set_in_protected_function true plc_init)).1 = true /\
  run_op sample_uuid4 op_get_device "bogus" (body_returns None None)
    publish_returns plc_init =
    (replied
       (mkReply (Some InstErrorCode.INVALID_TRANSACTION_ID) None None),
     set_in_protected_function true plc_init) /\
  _in_protected_function
    (run_op sample_uuid4 op_get_device "bogus" (body_returns None None)
       publish_returns plc_init).2 = true.
Proof.
  split; [reflexivity|].
  apply (verify_failure_leaves_flag_set sample_uuid4 op_get_device "bogus"
           (body_returns None None) publish_returns plc_init).
  reflexivity.
Defined.

(** The clean up ends the current transaction when the request came with
    ['create'] or the transaction expired meanwhile. *)
Lemma op_cleanup_ends (uuid4 : nat -> N) (tid current : string) (a : Agent) :
  transaction_id a = Some current ->
  bool_decide (tid = "create") || _transaction_timed_out a = true ->
  op_cleanup uuid4 tid a =
  Some (set_in_protected_function false (_end_transaction uuid4 current a).2).
Proof. intros Hcur Hends. unfold op_cleanup. now rewrite Hends, Hcur. Qed.


(** When the [finally:] clause reaches the clean up and the clean up is
    through, the agent a handler leaves behind is the one the clean up
    made, whatever the body came to; the handler ends with a reply unless
    the body raised and the [except:] clause raises again. *)
Lemma op_leave_agent (uuid4 : nat -> N) (op : Operation) (tid : string)
    (reply : Reply) (body : Body) (publish : Publishing) (a a' : Agent) :
  finally_aborted op body publish = false ->
  op_cleanup uuid4 tid a = Some a' ->
  (op_leave uuid4 op tid reply body publish a).2 = a' /\
  ((op_leave uuid4 op tid reply body publish a).1 = raised <->
   body = body_raises /\ except_reraises op = true).
Proof.
  intros Hfin Hclean. unfold op_leave. rewrite Hfin, Hclean.
  destruct body as [success result|]; [|destruct (except_reraises op)];
    simpl; (split; [reflexivity|]); split; try discriminate; try done;
    intros [H1 H2]; discriminate.
Qed.

(** When a statement of the [finally:] clause raises before the clean up,
    the handler is left by that exception with the agent as the body left
    it. *)
Lemma op_leave_aborted (uuid4 : nat -> N) (op : Operation) (tid : string)
    (reply : Reply) (body : Body) (publish : Publishing) (a : Agent) :
  finally_aborted op body publish = true ->
  op_leave uuid4 op tid reply body publish a = (raised, a).
Proof. intros Hfin. unfold op_leave. now rewrite Hfin. Qed.





(** The two handlers whose [except:] clause does not raise again,
    [op_get_device_metadata] and [op_get_device_status], do send a reply
    after an exception of the body, but the [else:] clause that enters
    ['success'] is not run: the reply has no ['success']. *)
Lemma swallowed_exception_reply_without_success (op : Operation) :
  except_reraises op = false ->
  (run_op sample_uuid4 op "create" body_raises publish_returns idle_agent).1 =
  replied
    (mkReply None None (Some "00000000-0000-0000-0000-000000000007")).
Proof. destruct op; intros H; try discriminate; reflexivity. Qed.



(** C8, as the code has it.  A protected operation is called with
    ['create'] on an agent that satisfies the invariant.  On a locked
    agent the verification is [LOCKED_RESOURCE] and nothing is started.
    On a free agent it starts an implicit transaction under a new token.
    When the agent state admits the operation and the [finally:] clause
    reaches its clean up, the clean up ends that transaction whatever the
    body came to, and afterwards none is current.  The clause does not
    reach the clean up when it has something to publish (an error, which
    it has after an exception of the body, with a [success] that is not
    [OK] and always in [op_get_observatory_metadata]; in
    [op_set_observatory] the new configuration) and publishing raises:
    then the exception leaves the handler with the implicit transaction
    current.  When the agent state does not admit the operation, the
    handler answers [INCORRECT_STATE] by [reply_ok] and a [return] that
    comes before the [try:] block: the implicit transaction is still
    current after the reply, its timer armed and [_in_protected_function]
    set, where the claim has it ended. *)
Theorem implicit_transaction_after_reply (uuid4 : nat -> N) (op : Operation)
    (body : Body) (publish : Publishing) (a : Agent) :
  Inv a ->
  let token := uuid_str (uuid4 (uuid_draws a)) in
  let verified :=
    _verify_transaction uuid4 "create" (optype op)
      (set_in_protected_function true a) in
  let outcome := (run_op uuid4 op "create" body publish a).1 in
  let a' := (run_op uuid4 op "create" body publish a).2 in
  let published :=
    match body with
    | body_raises => true
    | body_returns success _ =>
        bool_decide (op = op_set_observatory) ||
        bool_decide (op = op_get_observatory_metadata) ||
        match success with
        | Some code => negb (bool_decide (code = InstErrorCode.OK))
        | None => true
        end
    end in
  let ended :=
    transaction_id a' = None /\
    _transaction_timeout_call a' = None /\
    reactor_calls a' = reactor_calls a /\
    _in_protected_function a' = false in
  match transaction_id a with
  | Some current =>
      verified.1 = InstErrorCode.LOCKED_RESOURCE /\
      outcome =
        replied (mkReply (Some InstErrorCode.LOCKED_RESOURCE) None None) /\
      transaction_id a' = Some current
  | None =>
      verified.1 = InstErrorCode.OK /\
      transaction_id verified.2 = Some token /\
      if state_is_legal op (fsm_current_state a) then
        match publish with
        | publish_returns => ended
        | publish_raises =>
            if published then
              outcome = raised /\
              transaction_id a' = Some token /\
              _transaction_timeout_call a' = Some (reactor_next_call a) /\
              _in_protected_function a' = true
            else ended
        end
      else
        outcome =
          replied
            (mkReply (Some InstErrorCode.INCORRECT_STATE) None (Some token)) /\
        transaction_id a' = Some token /\
        _transaction_timeout_call a' = Some (reactor_next_call a) /\
        is_Some (reactor_calls a' !! reactor_next_call a) /\
        _in_protected_function a' = true
  end.
Proof.
  intros [Ht Hd] token verified outcome a' published ended.
  assert (Hab : finally_aborted op body publish =
                match publish with
                | publish_raises => published
                | publish_returns => false
                end).
  { subst published. destruct publish; [reflexivity|].
    destruct body as [[code|] result|]; [| |reflexivity];
      destruct op; try reflexivity;
      unfold finally_aborted, may_publish, else_success,
        InstErrorCode.is_error, InstErrorCode.is_ok; simpl;
      rewrite ?orb_false_r, ?orb_true_r; reflexivity. }
  subst token verified outcome a' ended. clearbody published.
  destruct (transaction_id a) as [current|] eqn:Htid.
  { unfold run_op, op_enter, _verify_transaction, _start_transaction.
    simpl. rewrite Htid. simpl. done. }
  assert (Hp : _pending_transactions a = []).
  { destruct (_pending_transactions a) eqn:E; [reflexivity|].
    destruct (ok_pending_locked _ _ _ _ Hd) as [x Hx]; [done | congruence]. }
  assert (Hnext : reactor_calls a !! reactor_next_call a = None).
  { destruct (reactor_calls a !! reactor_next_call a) eqn:E; [|reflexivity].
    assert (reactor_next_call a < reactor_next_call a); [|lia].
    apply (ok_calls_fresh _ _ _ _ _ _ Ht). eauto. }
  clear Ht Hd.
  destruct a as [pid condemned client current timed_out timeout_call pending
                 max_acq min_exp default_exp max_exp protected state calls
                 next count fired draws].
  simpl in Htid, Hp, Hnext. subst current pending.
  unfold run_op, op_enter, _verify_transaction, _start_transaction.
  simpl. split; [reflexivity|]. split; [reflexivity|].
  destruct (state_is_legal op state); simpl.
  - destruct (finally_aborted op body publish) eqn:Hfin.
    + rewrite op_leave_aborted by exact Hfin.
      destruct publish; [discriminate Hab|]. rewrite <- Hab. done.
    + assert (Hended :
        match publish with
        | publish_returns => True
        | publish_raises => published = false
        end) by (destruct publish; [exact I|now symmetry]).
      clear Hab.
      match goal with
      | |- context [op_leave uuid4 op "create" ?r body publish ?a1] =>
          set (a1' := a1);
          pose proof (op_cleanup_ends uuid4 "create" _ a1' eq_refl eq_refl)
            as Hclean;
          destruct (op_leave_agent uuid4 op "create" r body publish a1' _
                      Hfin Hclean) as [Hagent _];
          rewrite Hagent;
          destruct (_end_transaction_current uuid4 _ a1' eq_refl)
            as (_ & _ & _ & _ & Htok & Hcall & Hcalls & _)
      end.
      assert (Hcalls' :
        reactor_calls
          (set_in_protected_function false
             (_end_transaction uuid4 (uuid_str (uuid4 draws)) a1').2) = calls).
      { etransitivity; [exact Hcalls|].
        unfold without_expiration_timer, a1'. simpl.
        rewrite delete_insert_eq. apply delete_id. exact Hnext. }
      destruct publish; [|rewrite Hended]; done.
  - rewrite lookup_insert_eq. repeat split. eauto.
Qed.

(** The claim fails at [op_get_device] called with ['create'] on the agent
    as [plc_init] leaves it, in [UNINITIALIZED]. *)
Lemma implicit_transaction_after_reply_witness :
  let tid := "00000000-0000-0000-0000-000000000007" in
  let ran :=
    run_op sample_uuid4 op_get_device "create" (body_returns None None)
      publish_returns plc_init in
  Inv plc_init /\
  ran.1 =
    replied (mkReply (Some InstErrorCode.INCORRECT_STATE) None (Some tid)) /\
  transaction_id ran.2 = Some tid /\
  _in_protected_function ran.2 = true.
Proof.
  intros tid ran.
  split; [exact Inv_plc_init|].
  pose proof (implicit_transaction_after_reply sample_uuid4 op_get_device
                (body_returns None None) publish_returns plc_init
                Inv_plc_init) as H.
  cbv zeta in H.
  assert (Hfree : transaction_id plc_init = None) by reflexivity.
  rewrite Hfree in H.
  assert (Hstate : state_is_legal op_get_device (fsm_current_state plc_init)
                   = false) by reflexivity.
  rewrite Hstate in H.
  destruct H as (_ & _ & H1 & H2 & _ & _ & H5).
  split; [exact H1|]. split; [exact H2 | exact H5].
Defined.


(** ** Expiration *)

Lemma acquisition_timeout_loop_transaction (fuel i : nat) (d : Deferred)
    (a : Agent) :
  let a' := acquisition_timeout_loop fuel i d a in
  transaction_id a' = transaction_id a /\
  _transaction_timed_out a' = _transaction_timed_out a /\
  _in_protected_function a' = _in_protected_function a.
Proof.
  revert i a; induction fuel as [|fuel IH]; intros i a; simpl; [done|].
  destruct (_pending_transactions a !! i) as [item|]; [|done].
  destruct (decide (pending_d item = d)); [|apply IH].
  match goal with
  | |- context [acquisition_timeout_loop fuel (S i) d ?b] =>
      destruct (IH (S i) b) as (-> & -> & ->)
  end.
  done.
Qed.

(** While the holder's operation runs on with the expired flag set, what
    other callers and the reactor do leaves the transaction and the flag
    alone. *)
Lemma bystander_step (uuid4 : nat -> N) (tid : string) (e : Event)
    (a : Agent) :
  Inv a -> transaction_id a = Some tid -> _transaction_timed_out a = true ->
  bystander tid e ->
  transaction_id (step uuid4 e a) = Some tid /\
  _transaction_timed_out (step uuid4 e a) = true.
Proof.
  intros [Ht Hd] Htid Hto Hby. destruct e; simpl in *; try contradiction.
  - unfold _request_transaction. simpl. rewrite Htid.
    destruct (_ =? _)%N; simpl; done.
  - rewrite _end_transaction_other by congruence. done.
  - unfold reactor_fire.
    destruct (reactor_calls a !! c) as [[delay [|d]]|] eqn:Hc; [| |done].
    + exfalso. apply (ok_expiration _ _ _ _ _ _ Ht) in Hc as [Hc _].
      apply (ok_timed_out _ _ _ _ _ _ Ht) in Hto as [_ Hto]. congruence.
    + unfold acquisition_timeout.
      match goal with
      | |- context [acquisition_timeout_loop ?f ?i d ?b] =>
          destruct (acquisition_timeout_loop_transaction f i d b)
            as (-> & -> & _)
      end.
      done.
Qed.



(** On an agent whose transaction is [tid], a protected operation called
    with another [transaction_id] fails [_verify_transaction]: it replies
    and returns, and leaves the agent as it was but for
    [_in_protected_function], which stays set. *)
Lemma refused_without_token (uuid4 : nat -> N) (op : Operation)
    (tid request_tid : string) (a : Agent) :
  Inv a -> transaction_id a = Some tid -> request_tid <> tid ->
  exists code,
    InstErrorCode.is_error code = true /\
    op_enter uuid4 op request_tid a =
      (entry_replied (mkReply (Some code) None None),
       set_in_protected_function true a).
Proof.
  intros [Ht _] Htid Hne.
  pose proof (ok_token _ _ _ _ _ _ Ht tid Htid) as Hlen.
  unfold op_enter, _verify_transaction, _start_transaction. simpl.
  rewrite Htid.
  repeat (case_bool_decide; simpl); simplify_eq;
    try (eexists; split; [|reflexivity]; reflexivity); try done.
Qed.

(** While the holder's operation runs on with the expired flag set, what
    other callers and the reactor do, the operations of callers without
    the token among it, leaves the transaction and the flag alone. *)
Lemma onlooker_step (uuid4 : nat -> N) (tid : string) (e : Event)
    (a : Agent) :
  Inv a -> transaction_id a = Some tid -> _transaction_timed_out a = true ->
  onlooker tid e ->
  transaction_id (step uuid4 e a) = Some tid /\
  _transaction_timed_out (step uuid4 e a) = true.
Proof.
  intros HI Htid Hto Hon. destruct e as [acq exp r|tid'|c|op tid'|tid'].
  - now apply bystander_step.
  - now apply bystander_step.
  - now apply bystander_step.
  - simpl in Hon |- *.
    destruct (refused_without_token uuid4 op tid tid' a HI Htid Hon)
      as (code & _ & ->).
    done.
  - contradiction.
Qed.

Lemma onlooker_run (uuid4 : nat -> N) (tid : string) (events : list Event)
    (a : Agent) :
  Inv a -> transaction_id a = Some tid -> _transaction_timed_out a = true ->
  Forall (onlooker tid) events ->
  Inv (run uuid4 events a) /\
  transaction_id (run uuid4 events a) = Some tid /\
  _transaction_timed_out (run uuid4 events a) = true.
Proof.
  revert a; induction events as [|e events IH]; intros a HI Htid Hto Hon;
    simpl; [done|].
  apply Forall_cons in Hon as [He Hon].
  destruct (onlooker_step uuid4 tid e a HI Htid Hto He) as [Htid' Hto'].
  apply IH; try assumption. now apply Inv_step.
Qed.

(** C4, as the code has it.  The expiration timer of the current
    transaction [tid] comes due on an agent that satisfies the invariant;
    [transaction_expired] decides by [_in_protected_function].

    With the flag set the transaction is not ended: it stays current, the
    queue and the deferreds are untouched, and [_transaction_timed_out] is
    set.  However long the operation runs on, that is, whatever other
    callers and the reactor do in the meantime, operations refused for
    want of the token among it, the transaction is still current and the
    flag still set when a handler comes to leave.  Its clean up then ends
    the transaction by [_end_transaction], resets both flags and grants
    the head of the queue, if any.  When the publication of an error
    raises in the [finally:] clause, as it may after an exception of the
    body, the clean up is not reached and the agent stays as it is.

    With the flag not set the timer ends the transaction at once by
    [_end_transaction], and the head of the queue, if any, is granted the
    next transaction.

    But the flag is also set when no operation runs: an operation called
    without the token replies its failure and returns with the flag set,
    and when the timer comes due after that it ends nothing either; the
    transaction stays current and those who wait stay in the queue. *)
Theorem transaction_expired_cases (uuid4 : nat -> N) (a : Agent)
    (call : DelayedCall) (delay : N) (tid : string) :
  Inv a ->
  transaction_id a = Some tid ->
  reactor_calls a !! call = Some (delay, cb_transaction_expired) ->
  let a1 := reactor_fire uuid4 call a in
  (if _in_protected_function a then
     transaction_id a1 = Some tid /\
     _transaction_timed_out a1 = true /\
     _transaction_timeout_call a1 = None /\
     _in_protected_function a1 = true /\
     _pending_transactions a1 = _pending_transactions a /\
     deferred_fired a1 = deferred_fired a /\
     forall events, Forall (onlooker tid) events ->
       let a2 := run uuid4 events a1 in
       let a3 :=
         set_in_protected_function false (_end_transaction uuid4 tid a2).2 in
       transaction_id a2 = Some tid /\
       _transaction_timed_out a2 = true /\
       (forall request_tid, op_cleanup uuid4 request_tid a2 = Some a3) /\
       (forall op request_tid reply body,
          (op_leave uuid4 op request_tid reply body publish_returns a2).2 =
            a3) /\
       (forall op request_tid reply,
          op_leave uuid4 op request_tid reply body_raises publish_raises a2 =
            (raised, a2)) /\
       (_end_transaction uuid4 tid a2).1 = InstErrorCode.OK /\
       _in_protected_function a3 = false /\
       _transaction_timed_out a3 = false /\
       match _pending_transactions a2 with
       | [] => transaction_id a3 = None
       | (d, _, _, _) :: rest =>
           let token := uuid_str (uuid4 (uuid_draws a2)) in
           transaction_id a3 = Some token /\
           _pending_transactions a3 = rest /\
           deferred_fired a3 =
             deferred_fired a2 ++ [(d, (InstErrorCode.OK, Some token))]
       end
   else
     a1 =
       (_end_transaction uuid4 tid
          (set_transaction_timeout_call None (cancel call a))).2 /\
     _transaction_timed_out a1 = false /\
     match _pending_transactions a with
     | [] => transaction_id a1 = None
     | (d, _, _, _) :: rest =>
         let token := uuid_str (uuid4 (uuid_draws a)) in
         transaction_id a1 = Some token /\
         _pending_transactions a1 = rest /\
         deferred_fired a1 =
           deferred_fired a ++ [(d, (InstErrorCode.OK, Some token))]
     end) /\
  (forall op request_tid body publish,
     request_tid <> tid ->
     let refused := run_op uuid4 op request_tid body publish a in
     let a1' := reactor_fire uuid4 call refused.2 in
     (exists code,
        InstErrorCode.is_error code = true /\
        refused.1 = replied (mkReply (Some code) None None)) /\
     refused.2 = set_in_protected_function true a /\
     transaction_id a1' = Some tid /\
     _transaction_timed_out a1' = true /\
     _transaction_timeout_call a1' = None /\
     _in_protected_function a1' = true /\
     reactor_calls a1' = delete call (reactor_calls a) /\
     _pending_transactions a1' = _pending_transactions a /\
     deferred_fired a1' = deferred_fired a).
Proof.
  intros HI Htid Hcall a1. split.
  - pose proof (Inv_reactor_fire uuid4 call a HI) as HI1.
    subst a1. rewrite (reactor_fire_expiration uuid4 a call delay Hcall) in *.
    unfold transaction_expired in *. simpl (_in_protected_function _) in *.
    destruct (_in_protected_function a) eqn:Hflag.
    + repeat (split; [done|]).
      intros events Hon.
      match goal with
      | |- context [run uuid4 events ?b] =>
          destruct (onlooker_run uuid4 tid events b HI1 Htid eq_refl Hon)
            as (HI2 & Htid2 & Hto2);
          set (a2 := run uuid4 events b) in *
      end.
      destruct (_end_transaction_current uuid4 tid a2 Htid2)
        as (Hok & Hto3 & _ & _ & Hcase).
      assert (Hclean : forall request_tid,
                op_cleanup uuid4 request_tid a2 =
                Some (set_in_protected_function false
                        (_end_transaction uuid4 tid a2).2)).
      { intros request_tid. unfold op_cleanup.
        rewrite Hto2, orb_true_r, Htid2. reflexivity. }
      split; [exact Htid2|]. split; [exact Hto2|].
      split; [exact Hclean|]. split.
      { intros op request_tid reply body.
        apply (op_leave_agent uuid4 op request_tid reply body publish_returns
                 a2 _ eq_refl (Hclean request_tid)). }
      split.
      { intros op request_tid reply. now apply op_leave_aborted. }
      split; [exact Hok|]. split; [reflexivity|]. split; [exact Hto3|].
      destruct (_pending_transactions a2)
        as [|[[[d c] exp_timeout] requester] rest].
      * destruct Hcase as (H1 & _). exact H1.
      * destruct Hcase as (H1 & _ & _ & H4 & H5).
        split; [exact H1|]. split; [exact H4 | exact H5].
    + simpl (transaction_id _). rewrite Htid.
      split; [reflexivity|].
      match goal with
      | |- context [_end_transaction uuid4 tid ?b] =>
          destruct (_end_transaction_current uuid4 tid b Htid)
            as (_ & Hto & _ & _ & Hcase)
      end.
      split; [exact Hto|]. simpl (_pending_transactions _) in Hcase.
      destruct (_pending_transactions a)
        as [|[[[d c] exp_timeout] requester] rest].
      * destruct Hcase as (H1 & _). exact H1.
      * destruct Hcase as (H1 & _ & _ & H4 & H5).
        split; [exact H1|]. split; [exact H4 | exact H5].
  - intros op request_tid body publish Hne refused a1'.
    destruct (refused_without_token uuid4 op tid request_tid a HI Htid Hne)
      as (code & Hcode & Henter).
    assert (Hrun : refused =
              (replied (mkReply (Some code) None None),
               set_in_protected_function true a)).
    { subst refused. unfold run_op. now rewrite Henter. }
    subst a1'. rewrite Hrun. cbn [fst snd].
    split; [eauto|]. split; [reflexivity|].
    rewrite (reactor_fire_expiration uuid4 (set_in_protected_function true a)
               call delay Hcall).
    unfold transaction_expired. simpl (_in_protected_function _).
    cbv iota. repeat (split; [done|]). done.
Qed.

(** The timer at an agent whose holder asked for ten seconds while a second
    caller waits.  With no operation called, the timer ends the
    transaction and the waiter is granted the next one.  But once a third
    caller's [op_get_device] with ['none'] was refused, the timer ends
    nothing: the holder's transaction stays current and the waiter stays
    in the queue. *)
Lemma transaction_expired_cases_witness :
  let tid := "00000000-0000-0000-0000-000000000007" in
  let a :=
    run sample_uuid4
      [ev_request_transaction None (Some 10%N) "first";
       ev_request_transaction (Some 30%N) None "second"] plc_init in
  let refused :=
    run_op sample_uuid4 op_get_device "none" (body_returns None None)
      publish_returns a in
  let a1' := reactor_fire sample_uuid4 0 refused.2 in
  Inv a /\
  transaction_id a = Some tid /\
  reactor_calls a !! 0 = Some (10%N, cb_transaction_expired) /\
  _pending_transactions a = [(1, 1, 300%N, "second")] /\
  transaction_id (reactor_fire sample_uuid4 0 a) =
    Some "00000000-0000-0001-0000-000000000007" /\
  _pending_transactions (reactor_fire sample_uuid4 0 a) = [] /\
  refused.1 =
    replied (mkReply (Some InstErrorCode.LOCKED_RESOURCE) None None) /\
  transaction_id a1' = Some tid /\
  _transaction_timed_out a1' = true /\
  _pending_transactions a1' = [(1, 1, 300%N, "second")] /\
  deferred_fired a1' = deferred_fired a.
Proof.
  intros tid a refused a1'.
  assert (HI : Inv a) by apply Inv_run, Inv_plc_init.
  assert (Htid : transaction_id a = Some tid) by reflexivity.
  assert (Hcall : reactor_calls a !! 0 = Some (10%N, cb_transaction_expired))
    by (vm_compute; reflexivity).
  assert (Hp : _pending_transactions a = [(1, 1, 300%N, "second")])
    by reflexivity.
  assert (Hflag : _in_protected_function a = false) by reflexivity.
  split; [exact HI|]. split; [exact Htid|]. split; [exact Hcall|].
  split; [exact Hp|].
  destruct (transaction_expired_cases sample_uuid4 a 0 10%N tid HI Htid Hcall)
    as [Hnow Hstale].
  rewrite Hflag, Hp in Hnow.
  destruct Hnow as (_ & _ & Htok & Hrest & _).
  split; [exact Htok|]. split; [exact Hrest|].
  destruct (Hstale op_get_device "none" (body_returns None None)
              publish_returns)
    as (_ & _ & H1 & H2 & _ & _ & _ & H3 & H4); [discriminate|].
  split; [reflexivity|].
  split; [exact H1|]. split; [exact H2|]. split; [|exact H4].
  fold refused a1' in H3. rewrite H3. exact Hp.
Defined.
(** ** Driver reset *)

(** The four handlers do not answer alike when the disconnect raises: in
    [OBSERVATORY_MODE] the answer to [RESET] is
    [DRIVER_DISCONNECT_FAILED], not [DRIVER_CONNECT_FAILED]. *)
Lemma reset_disconnect_failure_not_uniform :
  ~ (forall s handler a,
       s ∈ disconnecting_states -> _state_handlers s = Some handler ->
       fsm_current_state a = s -> is_Some (_driver_client a) ->
       (handler AgentEvent.RESET driver_raises a).1 =
         (InstErrorCode.DRIVER_CONNECT_FAILED, None, no_result)).
Proof.
  intros H.
  specialize (H AgentState.OBSERVATORY_MODE state_handler_observatory_mode
                observatory_agent).
  discriminate H; [|reflexivity|reflexivity|eexists; reflexivity].
  unfold disconnecting_states. set_solver.
Qed.

(** C9, as the code has it.  In the states whose handler disconnects the
    driver on [RESET] ([IDLE], [STOPPED], [OBSERVATORY_MODE],
    [DIRECT_ACCESS_MODE]), a disconnect that raises is answered with
    [DRIVER_CONNECT_FAILED] in three of them, but in [OBSERVATORY_MODE]
    with [DRIVER_DISCONNECT_FAILED], where the claim has
    [DRIVER_CONNECT_FAILED] throughout; there is no next state.  A
    disconnect that replies with an error is answered with that error, and
    there is no next state either; only a disconnect that replies [OK]
    condemns the driver, and then the next state is [UNINITIALIZED] when
    [_driver_pid] is [None], and otherwise [INACTIVE] with
    [AGENT_DEINIT_FAILED]. *)
Theorem reset_disconnects_then_condemns (s : AgentState.t)
    (handler : AgentEvent.t -> DriverReply -> Agent -> HandlerResult * Agent)
    (driver : DriverReply) (a : Agent) :
  _state_handlers s = Some handler ->
  s ∈ disconnecting_states /\
  handler AgentEvent.RESET driver a =
  match client_disconnect driver a with
  | driver_raises =>
      ((if decide (s = AgentState.OBSERVATORY_MODE)
        then InstErrorCode.DRIVER_DISCONNECT_FAILED
        else InstErrorCode.DRIVER_CONNECT_FAILED, None, no_result), a)
  | driver_replies success =>
      if InstErrorCode.is_ok success then
        match _driver_pid (_condemn_driver a) with
        | None =>
            ((InstErrorCode.OK, Some AgentState.UNINITIALIZED, no_result),
             _condemn_driver a)
        | Some _ =>
            ((InstErrorCode.AGENT_DEINIT_FAILED, Some AgentState.INACTIVE,
              no_result), _condemn_driver a)
        end
      else ((success, None, no_result), a)
  end.
Proof.
  intros Hs.
  assert (Hok : forall success, InstErrorCode.is_ok success = true ->
                  success = InstErrorCode.OK).
  { intros success H. unfold InstErrorCode.is_ok in H.
    now apply bool_decide_eq_true in H. }
  destruct s; try discriminate Hs; injection Hs as <-.
  all: split; [unfold disconnecting_states; set_solver|].
  all: simpl; unfold reset.
  all: destruct (client_disconnect driver a) as [|success];
    [reflexivity|].
  all: destruct (InstErrorCode.is_ok success) eqn:E; [|reflexivity].
  all: rewrite (Hok success E); reflexivity.
Qed.

(** The claim fails at the handler of [OBSERVATORY_MODE], on an agent
    with a driver whose disconnect raises. *)
Lemma reset_disconnects_then_condemns_witness :
  _state_handlers AgentState.OBSERVATORY_MODE =
    Some state_handler_observatory_mode /\
  state_handler_observatory_mode AgentEvent.RESET driver_raises
    observatory_agent =
    ((InstErrorCode.DRIVER_DISCONNECT_FAILED, None, no_result),
     observatory_agent).
Proof.
  split; [reflexivity|].
  exact (proj2 (reset_disconnects_then_condemns AgentState.OBSERVATORY_MODE
                  state_handler_observatory_mode driver_raises
                  observatory_agent eq_refl)).
Defined.

(** C10.  After [_condemn_driver], [_driver_pid] is [None]: with a driver
    it appends the pid to [_condemned_drivers] and clears the pid and the
    client, without one it does nothing.  So in each of the four handlers a
    [RESET] whose disconnect replies [OK] always leads to [UNINITIALIZED]
    with [OK], on the agent [_condemn_driver] leaves; the result
    [AGENT_DEINIT_FAILED] with [INACTIVE] never comes about. *)
Theorem _condemn_driver_clears_pid (a : Agent) :
  _driver_pid (_condemn_driver a) = None /\
  match _driver_pid a with
  | Some pid =>
      _condemned_drivers (_condemn_driver a) = _condemned_drivers a ++ [pid] /\
      _driver_client (_condemn_driver a) = None
  | None => _condemn_driver a = a
  end /\
  forall s handler success driver,
    _state_handlers s = Some handler ->
    client_disconnect driver a = driver_replies success ->
    InstErrorCode.is_ok success = true ->
    handler AgentEvent.RESET driver a =
      ((InstErrorCode.OK, Some AgentState.UNINITIALIZED, no_result),
       _condemn_driver a) /\
    forall event driver',
      (handler event driver' a).1.1 <>
        (InstErrorCode.AGENT_DEINIT_FAILED, Some AgentState.INACTIVE).
Proof.
  assert (Hpid : forall b, _driver_pid (_condemn_driver b) = None).
  { intros b. unfold _condemn_driver.
    destruct (_driver_pid b) eqn:E; [reflexivity | exact E]. }
  split; [apply Hpid|]. split.
  { unfold _condemn_driver. destruct (_driver_pid a); [split|]; reflexivity. }
  assert (Hreset : forall failed driver',
            (reset failed driver' a).1.1 <>
              (InstErrorCode.AGENT_DEINIT_FAILED, Some AgentState.INACTIVE)).
  { intros failed driver'. unfold reset.
    destruct (client_disconnect driver' a) as [|success']; [discriminate|].
    destruct (InstErrorCode.is_ok success'); [|discriminate].
    rewrite Hpid. discriminate. }
  assert (Hinactive : forall driver',
            (go_inactive driver' a).1.1 <>
              (InstErrorCode.AGENT_DEINIT_FAILED, Some AgentState.INACTIVE)).
  { intros driver'. unfold go_inactive.
    destruct (client_disconnect driver' a) as [|success']; [discriminate|].
    destruct (InstErrorCode.is_ok success') eqn:E; [|discriminate].
    unfold InstErrorCode.is_ok in E. apply bool_decide_eq_true in E.
    subst success'. discriminate. }
  intros s handler success driver Hs Hdriver Hok.
  unfold InstErrorCode.is_ok in Hok. apply bool_decide_eq_true in Hok.
  subst success.
  destruct s; try discriminate Hs; injection Hs as <-.
  all: split;
    [simpl; unfold reset; rewrite Hdriver; simpl; rewrite Hpid; reflexivity|].
  all: intros event driver'; destruct event; simpl;
    try discriminate; try apply Hreset; apply Hinactive.
Qed.

(** * Further properties *)

(** ** First come, first served *)

(** X1.  First come, first served.  Along every run from [plc_init], a
    grant that a step fires is for the token that is current after the
    step, and it goes either to the head of the queue, which then leaves
    the queue, or to the request the step brings, and then only when the
    agent was free and nobody waited.  The queue itself changes only at
    its two ends or by the loss of one entry: the entries that stay keep
    their order. *)
Theorem grants_go_to_the_head (uuid4 : nat -> N) (events : list Event)
    (e : Event) :
  let a := run uuid4 events plc_init in
  let a' := step uuid4 e a in
  (forall d token,
     (d, (InstErrorCode.OK, Some token)) ∈ deferred_fired a' ->
     (d, (InstErrorCode.OK, Some token)) ∉ deferred_fired a ->
     transaction_id a' = Some token /\
     ((d = deferred_count a /\ _pending_transactions a = [] /\
       transaction_id a = None /\ _pending_transactions a' = []) \/
      exists call exp_timeout requester,
        _pending_transactions a =
          (d, call, exp_timeout, requester) :: _pending_transactions a')) /\
  ((exists new, _pending_transactions a' = _pending_transactions a ++ new /\
      length new <= 1) \/
   (exists l1 item l2, _pending_transactions a = l1 ++ item :: l2 /\
      _pending_transactions a' = l1 ++ l2)).
Proof.
  intros a a'.
  assert (HI : Inv a) by apply Inv_run, Inv_plc_init.
  pose proof (step_effect uuid4 e a HI) as Heffect.
  fold a' in Heffect. cbv zeta in Heffect.
  assert (Hlast : forall (l : list (nat * Grant)) x y, x ∈ l ++ [y] -> x ∉ l -> x = y).
  { intros l x y Hin Hnot. apply elem_of_app in Hin as [Hin|Hin];
      [contradiction|]. now apply list_elem_of_singleton in Hin. }
  destruct Heffect as [[Hf Hp]|[(v & Hf & Hp & Hv)|[(call & exp_timeout &
    requester & Hf & Hp)|[(d0 & call & exp_timeout & requester & token0 & Hp
    & Hf & Htok)|(l1 & l2 & d0 & call & exp_timeout & requester & Hp & Hp'
    & Hf)]]]].
  - split; [|left; exists []; rewrite app_nil_r; split; [exact Hp | simpl; lia]].
    intros d token Hin Hnot. rewrite Hf in Hin. contradiction.
  - split; [|left; exists []; rewrite app_nil_r; split; [exact Hp | simpl; lia]].
    intros d token Hin Hnot. rewrite Hf in Hin.
    apply Hlast in Hin; [|exact Hnot].
    destruct Hv as [->|(token' & -> & Hfree & Htok)]; [discriminate|].
    injection Hin as -> ->. split; [exact Htok|]. left.
    destruct HI as [_ Hd].
    assert (Hempty : _pending_transactions a = []).
    { destruct (_pending_transactions a) eqn:E; [reflexivity|].
      destruct (ok_pending_locked _ _ _ _ Hd) as [x Hx]; [done|congruence]. }
    rewrite Hp. done.
  - split; [|left; eexists; split; [exact Hp | simpl; lia]].
    intros d token Hin Hnot. rewrite Hf in Hin. contradiction.
  - split.
    + intros d token Hin Hnot. rewrite Hf in Hin.
      apply Hlast in Hin; [|exact Hnot]. injection Hin as -> ->.
      split; [exact Htok|]. right. eauto.
    + right. exists [], (d0, call, exp_timeout, requester),
        (_pending_transactions a'). split; [exact Hp | reflexivity].
  - split.
    + intros d token Hin Hnot. rewrite Hf in Hin.
      apply Hlast in Hin; [|exact Hnot]. discriminate.
    + right. eauto.
Qed.

(** ** Timer delays *)

Lemma clamp_exp_timeout_bounds (e : N) (a : Agent) :
  (_min_exp_timeout a <= _max_exp_timeout a)%N ->
  (_min_exp_timeout a <= clamp_exp_timeout (Some e) a
   <= _max_exp_timeout a)%N.
Proof.
  intros Hle. unfold clamp_exp_timeout.
  destruct (N.ltb_spec (_max_exp_timeout a) e); [lia|].
  destruct (N.ltb_spec e (_min_exp_timeout a)); lia.
Qed.

Lemma clamp_acq_timeout_bound (t : option N) (a : Agent) :
  (clamp_acq_timeout t a <= _max_acq_timeout a)%N.
Proof.
  unfold clamp_acq_timeout. destruct t as [t|]; [|lia].
  destruct (N.ltb_spec (_max_acq_timeout a) t); lia.
Qed.

Lemma _end_transaction_setup (uuid4 : nat -> N) (tid : string) (a : Agent) :
  let a' := (_end_transaction uuid4 tid a).2 in
  timeouts a' = timeouts a /\
  forall c x, reactor_calls a' !! c = Some x ->
    reactor_calls a !! c = Some x \/
    exists e, x = (clamp_exp_timeout (Some e) a, cb_transaction_expired).
Proof.
  intros a'. subst a'.
  destruct (decide (transaction_id a = Some tid)) as [Hcur|Hne].
  2: { rewrite _end_transaction_other by exact Hne. split; [reflexivity|].
       intros c x Hc. now left. }
  split.
  - destruct a as [pid condemned client current timed_out timeout_call
                   pending max_acq min_exp default_exp max_exp protected
                   state calls next count fired draws].
    simpl in Hcur. subst current. unfold _end_transaction, _start_transaction.
    simpl. destruct (decide (Some tid = Some tid)) as [_|?]; [|contradiction].
    destruct timeout_call;
      destruct pending as [|[[[d call] exp_timeout] requester] rest];
      reflexivity.
  - destruct (_end_transaction_current uuid4 tid a Hcur)
      as (_ & _ & _ & _ & Hcase).
    assert (Hwo : forall c x, without_expiration_timer a !! c = Some x ->
              reactor_calls a !! c = Some x).
    { intros c x. unfold without_expiration_timer.
      destruct (_transaction_timeout_call a); [|done].
      intros Hc. now apply lookup_delete_Some in Hc. }
    destruct (_pending_transactions a)
      as [|[[[d call] exp_timeout] requester] rest].
    + destruct Hcase as (_ & _ & -> & _). intros c x Hc. left. now apply Hwo.
    + destruct Hcase as (_ & _ & -> & _). intros c x Hc.
      destruct (decide (c = reactor_next_call a)) as [->|Hne].
      * rewrite lookup_insert_eq in Hc. injection Hc as <-. right. eauto.
      * rewrite lookup_insert_ne in Hc by done.
        apply lookup_delete_Some in Hc as [_ Hc]. left. now apply Hwo.
Qed.

Lemma acquisition_timeout_loop_setup (fuel i : nat) (d : Deferred)
    (a : Agent) :
  let a' := acquisition_timeout_loop fuel i d a in
  timeouts a' = timeouts a /\ reactor_calls a' = reactor_calls a.
Proof.
  revert i a; induction fuel as [|fuel IH]; intros i a; simpl; [done|].
  destruct (_pending_transactions a !! i) as [item|]; [|done].
  destruct (decide (pending_d item = d)); [|apply IH].
  match goal with
  | |- context [acquisition_timeout_loop fuel (S i) d ?b] =>
      destruct (IH (S i) b) as (-> & ->)
  end.
  done.
Qed.

(** A step keeps the timeouts, and the delayed calls it adds are an
    expiration timer with a clamped delay or an acquisition timer with a
    clamped delay other than 0. *)
Lemma step_setup (uuid4 : nat -> N) (e : Event) (a : Agent) :
  let a' := step uuid4 e a in
  timeouts a' = timeouts a /\
  forall c x, reactor_calls a' !! c = Some x ->
    reactor_calls a !! c = Some x \/
    (exists e, x = (clamp_exp_timeout (Some e) a, cb_transaction_expired)) \/
    (exists t d, x = (clamp_acq_timeout t a, cb_acquisition_timeout d) /\
       clamp_acq_timeout t a <> 0%N).
Proof.
  intros a'. subst a'.
  assert (Hend : forall tid b,
            timeouts b = timeouts a ->
            (forall c x, reactor_calls b !! c = Some x ->
               reactor_calls a !! c = Some x) ->
            let b' := (_end_transaction uuid4 tid b).2 in
            timeouts b' = timeouts a /\
            forall c x, reactor_calls b' !! c = Some x ->
              reactor_calls a !! c = Some x \/
              (exists e, x = (clamp_exp_timeout (Some e) a,
                              cb_transaction_expired)) \/
              (exists t d, x = (clamp_acq_timeout t a,
                                cb_acquisition_timeout d) /\
                 clamp_acq_timeout t a <> 0%N)).
  { intros tid b Hb Hsub b'. subst b'.
    destruct (_end_transaction_setup uuid4 tid b) as [Ht Hc].
    split; [congruence|]. intros c x Hx.
    apply Hc in Hx as [Hx|[e' ->]]; [left; now apply Hsub|].
    right. left. exists e'. unfold clamp_exp_timeout.
    unfold timeouts in Hb. injection Hb as _ -> _ ->. reflexivity. }
  destruct e; simpl.
  - unfold _request_transaction, _start_transaction. simpl.
    destruct (transaction_id a); simpl.
    + destruct (_ =? _)%N eqn:E; simpl; (split; [reflexivity|]);
        intros c x Hc; [now left|].
      destruct (decide (c = reactor_next_call a)) as [->|Hne].
      * rewrite lookup_insert_eq in Hc. injection Hc as <-. right. right.
        exists acq_timeout, (deferred_count a). split; [reflexivity|].
        now apply N.eqb_neq in E.
      * rewrite lookup_insert_ne in Hc by done. now left.
    + split; [reflexivity|]. intros c x Hc.
      destruct (decide (c = reactor_next_call a)) as [->|Hne].
      * rewrite lookup_insert_eq in Hc. injection Hc as <-. right. left.
        eauto.
      * rewrite lookup_insert_ne in Hc by done. now left.
  - apply Hend; [reflexivity|done].
  - unfold reactor_fire.
    destruct (reactor_calls a !! c) as [[delay [|d]]|] eqn:Hc.
    + unfold transaction_expired. simpl.
      assert (Hdel : forall c' x, delete c (reactor_calls a) !! c' = Some x ->
                reactor_calls a !! c' = Some x).
      { intros c' x Hx. now apply lookup_delete_Some in Hx. }
      destruct (_in_protected_function a); simpl.
      { split; [reflexivity|]. intros c' x Hx. left. now apply Hdel. }
      destruct (transaction_id a) as [tid|]; simpl.
      * apply Hend; [reflexivity|exact Hdel].
      * split; [reflexivity|]. intros c' x Hx. left. now apply Hdel.
    + unfold acquisition_timeout.
      match goal with
      | |- context [acquisition_timeout_loop ?f ?i d ?b] =>
          destruct (acquisition_timeout_loop_setup f i d b) as (-> & ->)
      end.
      split; [reflexivity|]. simpl. intros c' x Hx. left.
      now apply lookup_delete_Some in Hx.
    + split; [reflexivity|]. intros c' x Hx. now left.
  - destruct a as [pid condemned client current timed_out timeout_call
                   pending max_acq min_exp default_exp max_exp protected
                   state calls next count fired draws].
    unfold op_enter, _verify_transaction, _start_transaction.
    set (k := clamp_exp_timeout _ _). simpl.
    repeat (case_match; simpl in *; try done); simplify_eq; simpl;
      (split; [reflexivity|]); intros c x Hc; try (now left).
    all: destruct (decide (c = next)) as [->|Hne];
      [rewrite lookup_insert_eq in Hc; injection Hc as <-; right; left;
       exists default_exp; reflexivity
      |rewrite lookup_insert_ne in Hc by done; now left].
  - unfold op_cleanup.
    destruct (_ || _); [|simpl; split; [reflexivity|]; intros; now left].
    destruct (transaction_id a) as [current|];
      [|simpl; split; [reflexivity|]; intros; now left].
    simpl. apply (Hend current a); [reflexivity|done].
Qed.

(** X2.  Along every run from [plc_init] the timeouts stay as [plc_init]
    sets them, and every delayed call of the reactor is within them: an
    expiration timer lasts between 1 and 1800 seconds, whatever
    expiration timeout was asked for, and an acquisition timer more than
    0 and at most 60 seconds. *)
Theorem timer_delays_in_bounds (uuid4 : nat -> N) (events : list Event) :
  let a := run uuid4 events plc_init in
  timeouts a = (60, 1, 300, 1800)%N /\
  forall c delay f,
    reactor_calls a !! c = Some (delay, f) ->
    match f with
    | cb_transaction_expired => (1 <= delay <= 1800)%N
    | cb_acquisition_timeout _ => (0 < delay <= 60)%N
    end.
Proof.
  intros a. subst a.
  assert (H : forall events a,
            timeouts a = (60, 1, 300, 1800)%N ->
            (forall c x, reactor_calls a !! c = Some x -> delay_in_bounds a x) ->
            timeouts (run uuid4 events a) = (60, 1, 300, 1800)%N /\
            forall c x, reactor_calls (run uuid4 events a) !! c = Some x ->
              delay_in_bounds (run uuid4 events a) x).
  { clear events. induction events as [|e events IH]; intros a Ht Hb;
      simpl; [done|].
    destruct (step_setup uuid4 e a) as [Ht' Hc].
    assert (Hsame : forall x, delay_in_bounds a x ->
              delay_in_bounds (step uuid4 e a) x).
    { intros x. unfold delay_in_bounds. unfold timeouts in Ht'.
      injection Ht' as -> -> _ ->. done. }
    apply IH; [congruence|].
    intros c x Hx. apply Hsame.
    apply Hc in Hx as [Hx|[[e' ->]|(t & d & -> & Hne)]]; [now apply (Hb c)| |].
    - unfold delay_in_bounds. simpl. apply clamp_exp_timeout_bounds.
      unfold timeouts in Ht. injection Ht as _ -> _ ->. lia.
    - unfold delay_in_bounds. simpl.
      pose proof (clamp_acq_timeout_bound t a). lia. }
  destruct (H events plc_init eq_refl) as [Ht Hb].
  { intros c x Hx. simpl in Hx. rewrite lookup_empty in Hx. discriminate. }
  split; [exact Ht|]. intros c delay f Hc. apply Hb in Hc.
  unfold delay_in_bounds in Hc. simpl in Hc. unfold timeouts in Ht.
  injection Ht as H1 H2 _ H4.
  destruct f; [rewrite H2, H4 in Hc|rewrite H1 in Hc]; exact Hc.
Qed.

(** ** A rejected operation and the expiration timer *)



(** ** Driver life cycle *)

Lemma filter_all {A : Type} (P : A -> Prop) `{!forall x, Decision (P x)}
    (l : list A) :
  (forall x, x ∈ l -> P x) -> filter P l = l.
Proof.
  induction l as [|x l IH]; intros Hall; [done|].
  rewrite filter_cons_True by (apply Hall; left).
  rewrite IH; [done|]. intros y Hy. apply Hall. now right.
Qed.

Lemma filter_none {A : Type} (P : A -> Prop) `{!forall x, Decision (P x)}
    (l : list A) :
  (forall x, x ∈ l -> ~ P x) -> filter P l = [].
Proof.
  induction l as [|x l IH]; intros Hall; [done|].
  rewrite filter_cons_False by (apply Hall; left).
  apply IH. intros y Hy. apply Hall. now right.
Qed.

Lemma _stop_condemned_drivers_loop_filter (condemned : list nat)
    (items new_children shut : list ProcessDesc) :
  _stop_condemned_drivers_loop condemned items new_children shut =
  (new_children ++ filter (fun c => proc_id c ∉ condemned) items,
   shut ++ filter (fun c => proc_id c ∈ condemned) items).
Proof.
  revert new_children shut.
  induction items as [|item items IH]; intros new_children shut; simpl.
  - now rewrite !app_nil_r.
  - rewrite !filter_cons.
    destruct (decide (proc_id item ∈ condemned)) as [Hin|Hout].
    + rewrite IH. rewrite decide_False by (intros H; now apply H).
      now rewrite <- app_assoc.
    + rewrite IH. rewrite decide_True by done. now rewrite <- app_assoc.
Qed.

Lemma _stop_condemned_drivers_filter (p : InstrumentAgent) :
  let p' := _stop_condemned_drivers p in
  child_procs p' =
    filter (fun c => proc_id c ∉ _condemned_drivers (core p)) (child_procs p) /\
  shutdown_child_calls p' =
    shutdown_child_calls p ++
    filter (fun c => proc_id c ∈ _condemned_drivers (core p)) (child_procs p) /\
  core p' = core p.
Proof.
  unfold _stop_condemned_drivers.
  rewrite _stop_condemned_drivers_loop_filter. done.
Qed.

(** X4.  [_stop_condemned_drivers] shuts down the children whose process
    id is condemned, in the order of [child_procs], and keeps the others
    in their order.  It leaves [_condemned_drivers] as it is; a child that
    was shut down is gone from [child_procs], so that a second call shuts
    down nothing and changes nothing. *)
Theorem _stop_condemned_drivers_once (p : InstrumentAgent) :
  let p' := _stop_condemned_drivers p in
  child_procs p' =
    filter (fun c => proc_id c ∉ _condemned_drivers (core p)) (child_procs p) /\
  shutdown_child_calls p' =
    shutdown_child_calls p ++
    filter (fun c => proc_id c ∈ _condemned_drivers (core p)) (child_procs p) /\
  core p' = core p /\
  (forall c, c ∈ child_procs p' -> proc_id c ∉ _condemned_drivers (core p')) /\
  _stop_condemned_drivers p' = p'.
Proof.
  intros p'.
  destruct (_stop_condemned_drivers_filter p) as (H1 & H2 & H3).
  fold p' in H1, H2, H3.
  assert (H4 : forall c, c ∈ child_procs p' ->
            proc_id c ∉ _condemned_drivers (core p)).
  { intros c Hc. rewrite H1 in Hc. now apply list_elem_of_filter in Hc. }
  split; [exact H1|]. split; [exact H2|]. split; [exact H3|]. split.
  - intros c Hc. rewrite H3. now apply H4.
  - clearbody p'. unfold _stop_condemned_drivers.
    rewrite _stop_condemned_drivers_loop_filter. cbn [fst snd]. rewrite H3.
    rewrite (filter_all _ (child_procs p')) by exact H4.
    rewrite (filter_none _ (child_procs p')).
    + rewrite app_nil_r. now destruct p'.
    + intros c Hc Hin. now apply (H4 c).
Qed.

Lemma remove_child_middle (item : ProcessDesc) (l1 l2 : list ProcessDesc) :
  item ∉ l1 -> remove_child item (l1 ++ item :: l2) = l1 ++ l2.
Proof.
  induction l1 as [|x l1 IH]; intros Hout; simpl.
  - now rewrite decide_True.
  - rewrite decide_False.
    + rewrite IH; [done|]. intros H. apply Hout. now right.
    + intros ->. apply Hout. left.
Qed.

(** The loop of [_stop_driver] from position [i] on, when the process ids
    of the children differ and no child before [i] is the driver. *)
Lemma _stop_driver_loop_filter (fuel i pid : nat)
    (children shut : list ProcessDesc) :
  NoDup (proc_id <$> children) ->
  length children <= i + fuel ->
  (forall j c, j < i -> children !! j = Some c -> proc_id c <> pid) ->
  _stop_driver_loop fuel i pid children shut =
  (filter (fun c => proc_id c <> pid) children,
   shut ++ filter (fun c => proc_id c = pid) children).
Proof.
  revert i children shut.
  induction fuel as [|fuel IH]; intros i children shut Hnd Hlen Hbefore.
  - simpl.
    assert (Hall : forall c, c ∈ children -> proc_id c <> pid).
    { intros c Hc. apply list_elem_of_lookup in Hc as [j Hj].
      apply (Hbefore j); [|exact Hj]. apply lookup_lt_Some in Hj. lia. }
    rewrite filter_all by exact Hall.
    rewrite filter_none; [now rewrite app_nil_r|].
    intros c Hc Heq. now apply (Hall c).
  - simpl. destruct (children !! i) as [item|] eqn:Hi.
    2: { apply lookup_ge_None in Hi.
         assert (Hall : forall c, c ∈ children -> proc_id c <> pid).
         { intros c Hc. apply list_elem_of_lookup in Hc as [j Hj].
           apply (Hbefore j); [|exact Hj]. apply lookup_lt_Some in Hj. lia. }
         rewrite filter_all by exact Hall.
         rewrite filter_none; [now rewrite app_nil_r|].
         intros c Hc Heq. now apply (Hall c). }
    destruct (decide (proc_id item = pid)) as [Heq|Hne].
    + destruct (list_elem_of_split_length children i item Hi)
        as (l1 & l2 & -> & Hl1).
      rewrite fmap_app, fmap_cons in Hnd.
      apply NoDup_app in Hnd as (Hnd1 & Hdisj & Hnd2).
      apply NoDup_cons in Hnd2 as [Hitem Hnd2].
      assert (Hl1' : forall c, c ∈ l1 -> proc_id c <> pid).
      { intros c Hc Hpid. apply (Hdisj (proc_id c)).
        - apply list_elem_of_fmap. eauto.
        - rewrite Hpid, <- Heq. left. }
      assert (Hl2' : forall c, c ∈ l2 -> proc_id c <> pid).
      { intros c Hc Hpid. apply Hitem. rewrite Heq, <- Hpid.
        apply list_elem_of_fmap. eauto. }
      rewrite remove_child_middle.
      2: { intros Hin. now apply (Hl1' item). }
      rewrite IH.
      * rewrite !filter_app, !filter_cons.
        rewrite (decide_False (P := proc_id item <> pid)) by (intros H; now apply H).
        rewrite (decide_True (P := proc_id item = pid)) by exact Heq.
        rewrite (filter_none (fun c => proc_id c = pid) l1)
          by (intros c Hc; now apply Hl1').
        rewrite (filter_none (fun c => proc_id c = pid) l2)
          by (intros c Hc; now apply Hl2').
        simpl. now rewrite app_nil_r.
      * rewrite fmap_app. apply NoDup_app. split_and!.
        -- exact Hnd1.
        -- intros x Hx Hx2. apply (Hdisj x Hx). now right.
        -- exact Hnd2.
      * rewrite length_app in *. simpl in Hlen. lia.
      * intros j c Hj Hc.
        apply list_elem_of_lookup_2 in Hc.
        apply elem_of_app in Hc as [Hc|Hc]; [now apply Hl1'|now apply Hl2'].
    + apply IH; [exact Hnd|lia|].
      intros j c Hj Hc. destruct (decide (j = i)) as [->|Hji].
      * rewrite Hi in Hc. now injection Hc as <-.
      * apply (Hbefore j); [lia|exact Hc].
Qed.

(** X5.  [_stop_driver] takes elements out of [child_procs] while its
    loop runs over that list.  When the process ids of the children
    differ, the loop still does what it is meant to do: the child that
    runs the driver is shut down and removed, every other child stays in
    place, and [_driver_pid] and [_driver_client] are cleared.  The driver
    is not condemned. *)
Theorem _stop_driver_removes_the_driver (p : InstrumentAgent) (pid : nat) :
  NoDup (proc_id <$> child_procs p) ->
  _driver_pid (core p) = Some pid ->
  let p' := _stop_driver p in
  child_procs p' = filter (fun c => proc_id c <> pid) (child_procs p) /\
  shutdown_child_calls p' =
    shutdown_child_calls p ++
    filter (fun c => proc_id c = pid) (child_procs p) /\
  length (filter (fun c => proc_id c = pid) (child_procs p)) <= 1 /\
  _driver_pid (core p') = None /\
  _driver_client (core p') = None /\
  _condemned_drivers (core p') = _condemned_drivers (core p).
Proof.
  intros Hnd Hpid p'. subst p'. unfold _stop_driver. rewrite Hpid.
  rewrite _stop_driver_loop_filter; [|exact Hnd|lia|intros j c Hj; lia].
  simpl. repeat (split; [reflexivity|]). split; [|done].
  clear Hpid. induction (child_procs p) as [|c l IH]; [simpl; lia|].
  rewrite fmap_cons in Hnd. apply NoDup_cons in Hnd as [Hc Hnd].
  rewrite filter_cons. destruct (decide (proc_id c = pid)) as [Heq|Hne].
  - rewrite filter_none; [simpl; lia|].
    intros x Hx Hpid. apply Hc. rewrite Heq, <- Hpid.
    apply list_elem_of_fmap. eauto.
  - now apply IH.
Qed.

(** The property at a process with two children, the second of them the
    driver. *)
Lemma _stop_driver_removes_the_driver_witness :
  let logger := mkProcessDesc 7 "logger" in
  let driver := mkProcessDesc 42 "driver" in
  let p := set_children [logger; driver] [] (set_core idle_agent process_init) in
  NoDup (proc_id <$> child_procs p) /\
  child_procs (_stop_driver p) = [logger] /\
  shutdown_child_calls (_stop_driver p) = [driver].
Proof.
  intros logger driver p.
  assert (Hnd : NoDup (proc_id <$> child_procs p)).
  { simpl. apply NoDup_cons. split; [|apply NoDup_singleton].
    intros H. apply list_elem_of_singleton in H. discriminate. }
  split; [exact Hnd|].
  destruct (_stop_driver_removes_the_driver p 42 Hnd eq_refl)
    as (H1 & H2 & _).
  split; [exact H1 | exact H2].
Defined.

(** ** Driver and client *)

Lemma _stop_driver_core (p : InstrumentAgent) :
  _driver_pid (core (_stop_driver p)) = None /\
  (_driver_client (core (_stop_driver p)) = None \/
   _driver_pid (core p) = None /\ _stop_driver p = p).
Proof.
  unfold _stop_driver. destruct (_driver_pid (core p)) eqn:Hpid; simpl.
  - split; [reflexivity|now left].
  - split; [exact Hpid|now right].
Qed.

Lemma driver_paired_stop_driver (p : InstrumentAgent) :
  driver_paired p -> driver_paired (_stop_driver p).
Proof.
  intros Hp. destruct (_stop_driver_core p) as [H1 [H2|[_ H2]]].
  - unfold driver_paired. rewrite H1, H2. done.
  - now rewrite H2.
Qed.

Lemma driver_paired_start_driver (spawn : SpawnOutcome)
    (client : ClientOutcome) (p : InstrumentAgent) :
  driver_paired p -> driver_paired (_start_driver spawn client p).2.
Proof.
  intros Hp. unfold _start_driver.
  destruct (described p); [|exact Hp].
  destruct spawn as [| |pid children]; try exact Hp.
  destruct client as [| |c]; simpl.
  - unfold driver_paired, _stop_driver. simpl. done.
  - unfold driver_paired, _stop_driver. simpl. done.
  - unfold driver_paired. simpl. split; eauto.
Qed.

Lemma reset_core (failed : InstErrorCode.t) (driver : DriverReply)
    (a : Agent) :
  let r := reset failed driver a in
  (r.2 = a /\ r.1.1.2 = None) \/
  (r.2 = _condemn_driver a /\ r.1.1.1 = InstErrorCode.OK /\
   driver = driver_replies InstErrorCode.OK /\
   r.1.1.2 = Some AgentState.UNINITIALIZED).
Proof.
  unfold reset, client_disconnect.
  destruct (_driver_client a); [|left; done].
  destruct driver as [|success]; [left; done|].
  unfold InstErrorCode.is_ok. case_bool_decide as Hok; [|left; done].
  subst success. right. unfold _condemn_driver.
  destruct (_driver_pid a) eqn:Hpid; simpl; [done|].
  rewrite Hpid. done.
Qed.

Lemma go_inactive_core (driver : DriverReply) (a : Agent) :
  let r := go_inactive driver a in
  r.2 = a /\ (is_Some r.1.1.2 -> InstErrorCode.is_ok r.1.1.1 = true /\
                                 r.1.1.2 = Some AgentState.INACTIVE).
Proof.
  unfold go_inactive, client_disconnect.
  destruct (_driver_client a); [|split; [done|intros [? [=]]]].
  destruct driver as [|success]; [split; [done|intros [? [=]]]|].
  destruct (InstErrorCode.is_ok success) eqn:Hok; simpl.
  - done.
  - split; [done|intros [? [=]]].
Qed.

(** What the handlers of the four active states do to the agent, and when
    they give a next state. *)
Lemma active_handler_core (s : AgentState.t)
    (h : AgentEvent.t -> DriverReply -> Agent -> HandlerResult * Agent)
    (event : AgentEvent.t) (driver : DriverReply) (a : Agent) :
  _state_handlers s = Some h ->
  let r := h event driver a in
  (r.2 = a \/ r.2 = _condemn_driver a) /\
  (forall next, r.1.1.2 = Some next ->
     InstErrorCode.is_ok r.1.1.1 = true /\
     event <> AgentEvent.ENTER /\ event <> AgentEvent.EXIT /\
     next <> AgentState.POWERED_DOWN /\ next <> AgentState.UNKNOWN).
Proof.
  intros Hs.
  assert (Hreset : forall failed,
            let r := reset failed driver a in
            (r.2 = a \/ r.2 = _condemn_driver a) /\
            (forall next, r.1.1.2 = Some next ->
               InstErrorCode.is_ok r.1.1.1 = true /\
               next <> AgentState.POWERED_DOWN /\ next <> AgentState.UNKNOWN)).
  { intros failed r. subst r.
    destruct (reset_core failed driver a) as [[-> ->]|(-> & -> & _ & ->)].
    - split; [now left|]. intros next [=].
    - split; [now right|]. intros next [= <-]. done. }
  assert (Hgo : let r := go_inactive driver a in
            (r.2 = a \/ r.2 = _condemn_driver a) /\
            (forall next, r.1.1.2 = Some next ->
               InstErrorCode.is_ok r.1.1.1 = true /\
               next <> AgentState.POWERED_DOWN /\ next <> AgentState.UNKNOWN)).
  { intros r. subst r. destruct (go_inactive_core driver a) as [-> Hnext].
    split; [now left|]. intros next Hn.
    destruct Hnext as [Hok Heq]; [rewrite Hn; eauto|].
    rewrite Hn in Heq. injection Heq as ->. done. }
  destruct s; simpl in Hs; try discriminate; injection Hs as <-;
    destruct event; simpl;
    try (split; [now left|]; intros next [=]; subst; done).
  all: match goal with
       | |- context [reset ?failed _ _] =>
           destruct (Hreset failed) as [H1 H2]
       | |- context [go_inactive _ _] => destruct Hgo as [H1 H2]
       end;
    (split; [exact H1|]); intros next Hn; destruct (H2 next Hn) as (? & ? & ?);
    done.
Qed.

(** X6.  The driver process and its client are set and cleared together:
    a handler of any of the seven states, on any event and whatever the
    driver and the container do, also when the handler raises, leaves an
    agent that has both [_driver_pid] and [_driver_client] or neither,
    if that was so before. *)
Theorem handlers_keep_driver_paired (s : AgentState.t)
    (h : AgentEvent.t -> Driver -> InstrumentAgent ->
         Handled * InstrumentAgent)
    (event : AgentEvent.t) (driver : Driver) (p : InstrumentAgent) :
  _state_handlers_of_process s = Some h ->
  driver_paired p ->
  driver_paired (h event driver p).2.
Proof.
  intros Hs Hp.
  assert (Hcore : forall h0, _state_handlers s = Some h0 ->
            driver_paired (on_core h0 event driver p).2).
  { intros h0 Hh0. unfold on_core. simpl.
    destruct (active_handler_core s h0 event (disconnect driver) (core p) Hh0)
      as [[->| ->] _].
    - exact Hp.
    - unfold driver_paired, _condemn_driver. simpl.
      destruct (_driver_pid (core p)) eqn:Hpid; simpl; [done|exact Hp]. }
  destruct s; simpl in Hs; try discriminate; try injection Hs as <-;
    try (now apply Hcore).
  - destruct event; exact Hp.
  - destruct event; try exact Hp.
    unfold state_handler_uninitialized.
    pose proof (driver_paired_start_driver (spawn_child driver)
                  (construct_client driver) (_stop_condemned_drivers p) Hp)
      as Hstart.
    destruct (_start_driver _ _ _) as [[|] p']; simpl in *; [exact Hstart|].
    destruct (_driver_pid (core p')); exact Hstart.
  - destruct event; try exact Hp.
    + unfold state_handler_inactive. simpl.
      destruct (_driver_client (core p)) eqn:Hc;
        destruct (get_capabilities driver); exact Hp.
    + unfold state_handler_inactive.
      pose proof (driver_paired_stop_driver p Hp) as Hstop.
      destruct (_driver_pid (core (_stop_driver p))); exact Hstop.
    + unfold state_handler_inactive.
      destruct (client_disconnect _ _) as [|success]; [exact Hp|].
      destruct (InstErrorCode.is_ok success); [|exact Hp].
      destruct (connect driver) as [|success']; [exact Hp|].
      destruct (InstErrorCode.is_ok success'); exact Hp.
Qed.

(** The property at the [RESET] of an idle agent whose driver
    disconnects. *)
Lemma handlers_keep_driver_paired_witness :
  let p := set_core idle_agent process_init in
  let driver :=
    mkDriver (driver_replies InstErrorCode.OK) driver_raises driver_raises
      None spawn_raises client_raises in
  driver_paired p /\
  driver_paired (on_core state_handler_idle AgentEvent.RESET driver p).2.
Proof.
  intros p driver.
  assert (Hp : driver_paired p) by (unfold driver_paired; simpl; done).
  split; [exact Hp|].
  exact (handlers_keep_driver_paired AgentState.IDLE
           (on_core state_handler_idle) AgentEvent.RESET driver p eq_refl Hp).
Defined.

(** ** Transitions *)

(** A handler of the four active states answers [AGENT_DEINIT_FAILED]
    only when that is the driver's own reply to the disconnect, and then
    without next state: the branch of [RESET] for a driver left over
    after [_condemn_driver] is never taken. *)
Lemma active_handler_deinit (s : AgentState.t)
    (h : AgentEvent.t -> DriverReply -> Agent -> HandlerResult * Agent)
    (event : AgentEvent.t) (driver : DriverReply) (a : Agent) :
  _state_handlers s = Some h ->
  (h event driver a).1.1.1 = InstErrorCode.AGENT_DEINIT_FAILED ->
  driver = driver_replies InstErrorCode.AGENT_DEINIT_FAILED /\
  (h event driver a).1.1.2 = None.
Proof.
  intros Hs.
  assert (Hpid : _driver_pid (_condemn_driver a) = None).
  { unfold _condemn_driver. destruct (_driver_pid a) eqn:E; [reflexivity|].
    exact E. }
  assert (Hreset : forall failed,
            failed <> InstErrorCode.AGENT_DEINIT_FAILED ->
            (reset failed driver a).1.1.1 = InstErrorCode.AGENT_DEINIT_FAILED ->
            driver = driver_replies InstErrorCode.AGENT_DEINIT_FAILED /\
            (reset failed driver a).1.1.2 = None).
  { intros failed Hfailed. unfold reset, client_disconnect.
    destruct (_driver_client a); [|simpl; congruence].
    destruct driver as [|success]; [simpl; congruence|].
    destruct (InstErrorCode.is_ok success) eqn:Hok.
    - rewrite Hpid. simpl. intros ->. discriminate Hok.
    - simpl. intros ->. done. }
  assert (Hgo : (go_inactive driver a).1.1.1 =
                  InstErrorCode.AGENT_DEINIT_FAILED ->
                driver = driver_replies InstErrorCode.AGENT_DEINIT_FAILED /\
                (go_inactive driver a).1.1.2 = None).
  { unfold go_inactive, client_disconnect.
    destruct (_driver_client a); [|simpl; congruence].
    destruct driver as [|success]; [simpl; congruence|].
    destruct (InstErrorCode.is_ok success) eqn:Hok; simpl; intros ->;
      [discriminate Hok|done]. }
  destruct s; simpl in Hs; try discriminate; injection Hs as <-;
    destruct event; simpl; try discriminate; try exact Hgo;
    apply Hreset; discriminate.
Qed.

(** X7.  A state handler names a next state only together with a
    success that [is_ok], never on [ENTER] or [EXIT], and the next state
    is never [POWERED_DOWN] or [UNKNOWN].  In particular the test for a
    driver left over after [_condemn_driver] or [_stop_driver] never
    fails: a handler answers [AGENT_DEINIT_FAILED] only when that is the
    driver's own reply to [disconnect], [configure] or [connect], and then
    without next state; and [RESET] in [INACTIVE] always answers [OK] with
    [UNINITIALIZED], on the agent as [_stop_driver] leaves it, without
    driver. *)
Theorem next_state_only_on_success (s : AgentState.t)
    (h : AgentEvent.t -> Driver -> InstrumentAgent ->
         Handled * InstrumentAgent)
    (event : AgentEvent.t) (driver : Driver) (p : InstrumentAgent) :
  _state_handlers_of_process s = Some h ->
  (forall success next payload p',
     h event driver p = (Some (success, Some next, payload), p') ->
     InstErrorCode.is_ok success = true /\
     event <> AgentEvent.ENTER /\ event <> AgentEvent.EXIT /\
     next <> AgentState.POWERED_DOWN /\ next <> AgentState.UNKNOWN) /\
  (forall next payload p',
     h event driver p =
       (Some (InstErrorCode.AGENT_DEINIT_FAILED, next, payload), p') ->
     next = None /\
     driver_replies InstErrorCode.AGENT_DEINIT_FAILED ∈
       [disconnect driver; configure driver; connect driver]) /\
  (s = AgentState.INACTIVE -> event = AgentEvent.RESET ->
   (h event driver p).1 =
     Some (InstErrorCode.OK, Some AgentState.UNINITIALIZED, payload_none) /\
   (h event driver p).2 = _stop_driver p /\
   _driver_pid (core (h event driver p).2) = None).
Proof.
  intros Hs.
  split; [|split].
  - intros success next payload p' Hh.
    assert (Hcore : forall h0, _state_handlers s = Some h0 ->
              on_core h0 event driver p =
                (Some (success, Some next, payload), p') ->
              InstErrorCode.is_ok success = true /\
              event <> AgentEvent.ENTER /\ event <> AgentEvent.EXIT /\
              next <> AgentState.POWERED_DOWN /\ next <> AgentState.UNKNOWN).
    { intros h0 Hh0 Hon. unfold on_core in Hon.
      destruct (active_handler_core s h0 event (disconnect driver) (core p) Hh0)
        as [_ Hnext].
      injection Hon as Hsuccess Hn _ _. rewrite <- Hsuccess.
      now apply Hnext. }
    destruct s; simpl in Hs; try discriminate; try injection Hs as <-;
      try (now apply (Hcore _ eq_refl)).
    + destruct event; simpl in Hh; discriminate.
    + destruct event; simpl in Hh; try discriminate.
      * unfold state_handler_uninitialized in Hh.
        destruct (_start_driver _ _ _) as [[|] p0]; [discriminate|].
        destruct (_driver_pid (core p0)); [|discriminate].
        injection Hh as <- <- _ _. done.
      * injection Hh as <- <- _ _. done.
    + destruct event; simpl in Hh; try discriminate.
      * destruct (_driver_client (core p)); destruct (get_capabilities driver);
          discriminate.
      * injection Hh as <- <- _ _. done.
      * unfold state_handler_inactive in Hh.
        destruct (_stop_driver_core p) as [Hpid _]. rewrite Hpid in Hh.
        injection Hh as <- <- _ _. done.
      * destruct (client_disconnect _ _) as [|s1]; [discriminate|].
        destruct (InstErrorCode.is_ok s1); [|discriminate].
        destruct (connect driver) as [|s2]; [discriminate|].
        destruct (InstErrorCode.is_ok s2) eqn:Hok; [|discriminate].
        injection Hh as <- <- _ _. done.
  - intros next payload p' Hh.
    assert (Hcore : forall h0, _state_handlers s = Some h0 ->
              on_core h0 event driver p =
                (Some (InstErrorCode.AGENT_DEINIT_FAILED, next, payload), p') ->
              next = None /\
              driver_replies InstErrorCode.AGENT_DEINIT_FAILED ∈
                [disconnect driver; configure driver; connect driver]).
    { intros h0 Hh0 Hon. unfold on_core in Hon.
      injection Hon as Hsuccess Hn _ _.
      destruct (active_handler_deinit s h0 event (disconnect driver) (core p)
                  Hh0 Hsuccess) as [Hd Hnone].
      split; [congruence|]. rewrite Hd. left. }
    destruct s; simpl in Hs; try discriminate; try injection Hs as <-;
      try (now apply (Hcore _ eq_refl)).
    + destruct event; simpl in Hh; discriminate.
    + destruct event; simpl in Hh; try discriminate.
      unfold state_handler_uninitialized in Hh.
      destruct (_start_driver _ _ _) as [[|] p0]; [discriminate|].
      destruct (_driver_pid (core p0)); discriminate.
    + destruct event; simpl in Hh; try discriminate.
      * destruct (_driver_client (core p)); destruct (get_capabilities driver);
          discriminate.
      * unfold state_handler_inactive in Hh.
        destruct (_stop_driver_core p) as [Hpid _]. rewrite Hpid in Hh.
        discriminate.
      * unfold client_disconnect in Hh.
        destruct (_driver_client (core p)); [|discriminate].
        destruct (configure driver) as [|s1] eqn:Hcfg; [discriminate|].
        destruct (InstErrorCode.is_ok s1) eqn:Hok1.
        -- destruct (connect driver) as [|s2] eqn:Hcon; [discriminate|].
           destruct (InstErrorCode.is_ok s2) eqn:Hok2;
             injection Hh as -> <- _ _; [discriminate Hok2|].
           split; [reflexivity|]. right. right. left.
        -- injection Hh as -> <- _ _.
           split; [reflexivity|]. right. left.
  - intros -> ->. simpl in Hs. injection Hs as <-. simpl.
    destruct (_stop_driver_core p) as [Hpid _]. rewrite Hpid. simpl.
    done.
Qed.

(** The property at [GO_ACTIVE] and at [RESET] in [INACTIVE], with a
    driver that configures and connects. *)
Lemma next_state_only_on_success_witness :
  let p := set_core inactive_agent process_init in
  let driver :=
    mkDriver driver_raises (driver_replies InstErrorCode.OK)
      (driver_replies InstErrorCode.OK) None spawn_raises client_raises in
  state_handler_inactive AgentEvent.GO_ACTIVE driver p =
    (Some (InstErrorCode.OK, Some AgentState.IDLE, payload_none), p) /\
  InstErrorCode.is_ok InstErrorCode.OK = true /\
  (state_handler_inactive AgentEvent.RESET driver p).1 =
    Some (InstErrorCode.OK, Some AgentState.UNINITIALIZED, payload_none).
Proof.
  intros p driver.
  assert (Hh : state_handler_inactive AgentEvent.GO_ACTIVE driver p =
            (Some (InstErrorCode.OK, Some AgentState.IDLE, payload_none), p))
    by reflexivity.
  split; [exact Hh|]. split.
  - exact (proj1 (proj1 (next_state_only_on_success AgentState.INACTIVE
                    state_handler_inactive AgentEvent.GO_ACTIVE driver p
                    eq_refl) InstErrorCode.OK AgentState.IDLE payload_none p
                    Hh)).
  - exact (proj1 (proj2 (proj2 (next_state_only_on_success
                    AgentState.INACTIVE state_handler_inactive
                    AgentEvent.RESET driver p eq_refl)) eq_refl eq_refl)).
Defined.

(** X8.  [INITIALIZE] in [UNINITIALIZED], on an agent without driver.
    The handler leads to [INACTIVE] exactly when the descriptions are
    complete, the driver process is spawned and its client is built, and
    then [_driver_pid] and [_driver_client] are those two.  It raises
    when the spawn or the construction of the client raises something
    other than an [ImportError].  In every other case it answers
    [AGENT_INIT_FAILED].  Whenever it does not lead to [INACTIVE] the
    agent is left without driver and without client. *)
Theorem initialize_starts_driver (driver : Driver) (p : InstrumentAgent) :
  _driver_pid (core p) = None ->
  _driver_client (core p) = None ->
  let r := state_handler_uninitialized AgentEvent.INITIALIZE driver p in
  match r.1 with
  | Some (success, next, payload) =>
      payload = payload_none /\
      ((success = InstErrorCode.OK /\ next = Some AgentState.INACTIVE /\
        described p = true /\
        exists pid children client,
          spawn_child driver = spawned pid children /\
          construct_client driver = client_constructed client /\
          _driver_pid (core r.2) = Some pid /\
          _driver_client (core r.2) = Some client /\
          child_procs r.2 = children) \/
       (success = InstErrorCode.AGENT_INIT_FAILED /\ next = None /\
        (described p = false \/ spawn_child driver = spawn_import_error \/
         construct_client driver = client_import_error) /\
        _driver_pid (core r.2) = None /\ _driver_client (core r.2) = None))
  | None =>
      described p = true /\
      (spawn_child driver = spawn_raises \/
       construct_client driver = client_raises) /\
      _driver_pid (core r.2) = None /\ _driver_client (core r.2) = None
  end.
Proof.
  intros Hpid Hclient r. subst r.
  unfold state_handler_uninitialized.
  assert (Hd : described (_stop_condemned_drivers p) = described p)
    by reflexivity.
  assert (H1 : _driver_pid (core (_stop_condemned_drivers p)) = None)
    by exact Hpid.
  assert (H2 : _driver_client (core (_stop_condemned_drivers p)) = None)
    by exact Hclient.
  set (q := _stop_condemned_drivers p) in *. clearbody q.
  unfold _start_driver. rewrite Hd.
  destruct (described p).
  2: { cbn [fst snd]. rewrite H1. cbn [fst snd]. rewrite H1, H2.
       split; [done|]. right. auto 6. }
  destruct (spawn_child driver) as [| |pid children] eqn:Hspawn.
  - cbn [fst snd]. rewrite H1. cbn [fst snd]. rewrite H1, H2.
    split; [done|]. right. auto 6.
  - cbn [fst snd]. auto.
  - destruct (construct_client driver) as [| |client] eqn:Hc.
    + match goal with
      | |- context [_stop_driver ?q] =>
          destruct (_stop_driver_core q) as [Hp [Hcl|[Hq _]]];
          [|simpl in Hq; discriminate]
      end.
      cbn [fst snd]. rewrite Hp. cbn [fst snd]. rewrite Hp, Hcl.
      split; [done|]. right. auto 6.
    + match goal with
      | |- context [_stop_driver ?q] =>
          destruct (_stop_driver_core q) as [Hp [Hcl|[Hq _]]];
          [|simpl in Hq; discriminate]
      end.
      cbn [fst snd]. rewrite Hp, Hcl. auto.
    + simpl. split; [done|]. left. repeat (split; [done|]).
      exists pid, children, client. done.
Qed.

(** The property at an agent started with complete descriptions, and a
    container that spawns the driver as process 42. *)
Lemma initialize_starts_driver_witness :
  let driver :=
    mkDriver driver_raises driver_raises driver_raises None
      (spawned 42 [mkProcessDesc 42 "driver"]) (client_constructed 43) in
  let r :=
    state_handler_uninitialized AgentEvent.INITIALIZE driver
      described_process in
  _driver_pid (core described_process) = None /\
  _driver_client (core described_process) = None /\
  r.1 = Some (InstErrorCode.OK, Some AgentState.INACTIVE, payload_none) /\
  _driver_pid (core r.2) = Some 42.
Proof.
  intros driver r.
  split; [reflexivity|]. split; [reflexivity|].
  pose proof (initialize_starts_driver driver described_process eq_refl
                eq_refl) as H.
  cbv zeta in H. fold r in H.
  assert (Hr : r.1 = Some (InstErrorCode.OK, Some AgentState.INACTIVE,
                           payload_none)) by reflexivity.
  rewrite Hr in H. split; [exact Hr|].
  destruct H as [_ [(_ & _ & _ & pid & children & client & Hs & _ & Hp & _)
                   |(Hno & _)]].
  - injection Hs as <- _. exact Hp.
  - discriminate.
Defined.

(** ** From [RESET] to the next [INITIALIZE] *)

Lemma _stop_driver_loop_shut (fuel i pid : nat)
    (children shut : list ProcessDesc) (child : ProcessDesc) :
  child ∈ shut -> child ∈ (_stop_driver_loop fuel i pid children shut).2.
Proof.
  revert i children shut.
  induction fuel as [|fuel IH]; intros i children shut Hin; simpl;
    [exact Hin|].
  destruct (children !! i) as [item|]; [|exact Hin].
  destruct (decide (proc_id item = pid)); [|now apply IH].
  apply IH. apply elem_of_app. now left.
Qed.

(** X9.  The driver that a [RESET] in one of the four active states
    condemns is still running when the handler returns: its process is in
    [child_procs] and no [shutdown_child] was made.  It is shut down by
    the next [INITIALIZE] in [UNINITIALIZED], before a new driver is
    spawned and whatever becomes of that. *)
Theorem condemned_driver_stopped_on_initialize (s : AgentState.t)
    (h : AgentEvent.t -> DriverReply -> Agent -> HandlerResult * Agent)
    (driver driver' : Driver) (p : InstrumentAgent) (pid : nat)
    (child : ProcessDesc) :
  _state_handlers s = Some h ->
  _driver_pid (core p) = Some pid ->
  is_Some (_driver_client (core p)) ->
  disconnect driver = driver_replies InstErrorCode.OK ->
  child ∈ child_procs p ->
  proc_id child = pid ->
  let r1 := on_core h AgentEvent.RESET driver p in
  let r2 :=
    state_handler_uninitialized AgentEvent.INITIALIZE driver' r1.2 in
  r1.1 = Some (InstErrorCode.OK, Some AgentState.UNINITIALIZED, payload_none) /\
  child_procs r1.2 = child_procs p /\
  shutdown_child_calls r1.2 = shutdown_child_calls p /\
  pid ∈ _condemned_drivers (core r1.2) /\
  child ∈ shutdown_child_calls r2.2 /\
  pid ∈ _condemned_drivers (core r2.2).
Proof.
  intros Hs Hpid [client Hclient] Hdis Hchild Hid r1 r2.
  assert (Hreset : forall failed,
            reset failed (disconnect driver) (core p) =
            ((InstErrorCode.OK, Some AgentState.UNINITIALIZED, no_result),
             set_driver None (_condemned_drivers (core p) ++ [pid]) None
               (core p))).
  { intros failed. unfold reset, client_disconnect, _condemn_driver.
    rewrite Hclient, Hdis, Hpid. reflexivity. }
  assert (Hr1 : r1 =
            (Some (InstErrorCode.OK, Some AgentState.UNINITIALIZED,
                   payload_none),
             set_core
               (set_driver None (_condemned_drivers (core p) ++ [pid]) None
                  (core p)) p)).
  { subst r1. unfold on_core.
    destruct s; simpl in Hs; try discriminate; injection Hs as <-; simpl;
      now rewrite Hreset. }
  clearbody r1. subst r1. cbn [fst snd] in *.
  split; [reflexivity|]. split; [reflexivity|]. split; [reflexivity|].
  split; [simpl; apply elem_of_app; right; left|].
  set (p1 := set_core _ p) in *.
  destruct (_stop_condemned_drivers_filter p1) as (Hch & Hshut & Hcore).
  set (p2 := _stop_condemned_drivers p1) in *.
  assert (Hin : child ∈ shutdown_child_calls p2).
  { rewrite Hshut. apply elem_of_app. right. apply list_elem_of_filter.
    split; [|exact Hchild]. simpl. apply elem_of_app. right. rewrite Hid.
    left. }
  assert (Hcond : pid ∈ _condemned_drivers (core p2)).
  { rewrite Hcore. simpl. apply elem_of_app. right. left. }
  subst r2. unfold state_handler_uninitialized. fold p2.
  assert (Hstart : forall spawn client',
            child ∈ shutdown_child_calls (_start_driver spawn client' p2).2 /\
            pid ∈ _condemned_drivers (core (_start_driver spawn client' p2).2)).
  { intros spawn client'. unfold _start_driver.
    destruct (described p2); [|done].
    destruct spawn as [| |pid' children]; [done|done|].
    assert (Hstop : forall q,
              child ∈ shutdown_child_calls q ->
              pid ∈ _condemned_drivers (core q) ->
              child ∈ shutdown_child_calls (_stop_driver q) /\
              pid ∈ _condemned_drivers (core (_stop_driver q))).
    { intros q Hq1 Hq2. unfold _stop_driver.
      destruct (_driver_pid (core q)) as [x|]; [|done].
      split; [|exact Hq2]. now apply _stop_driver_loop_shut. }
    destruct client' as [| |c]; cbn [fst snd];
      [apply Hstop; [exact Hin|exact Hcond]..|].
    split; [exact Hin|exact Hcond]. }
  destruct (Hstart (spawn_child driver') (construct_client driver'))
    as [Ha Hb].
  destruct (_start_driver _ _ p2) as [[|] p3]; simpl in *; [done|].
  destruct (_driver_pid (core p3)); done.
Qed.

(** The property at the [RESET] of an idle agent. *)
Lemma condemned_driver_stopped_on_initialize_witness :
  let child := mkProcessDesc 42 "driver" in
  let p := set_children [child] [] (set_core idle_agent process_init) in
  let driver :=
    mkDriver (driver_replies InstErrorCode.OK) driver_raises driver_raises
      None spawn_import_error client_import_error in
  let r1 := on_core state_handler_idle AgentEvent.RESET driver p in
  let r2 :=
    state_handler_uninitialized AgentEvent.INITIALIZE driver r1.2 in
  child ∈ child_procs p /\
  shutdown_child_calls r1.2 = [] /\
  child ∈ shutdown_child_calls r2.2.
Proof.
  intros child p driver r1 r2.
  assert (Hchild : child ∈ child_procs p) by (simpl; left).
  split; [exact Hchild|].
  destruct (condemned_driver_stopped_on_initialize AgentState.IDLE
              state_handler_idle driver driver p 42 child eq_refl eq_refl
              (ex_intro _ 42 eq_refl) eq_refl Hchild eq_refl)
    as (_ & _ & H1 & _ & H2 & _).
  split; [exact H1 | exact H2].
Defined.

(** ** Device capabilities *)

Lemma read_capabilities_lookup (result : list (string * Capability))
    (acc : gmap string Capability) (key : string) (val : Capability) :
  NoDup result.*1 ->
  (forall k, k ∈ result.*1 -> acc !! k = None) ->
  foldl (fun caps item =>
           if InstErrorCode.is_ok item.2.1 then <[item.1 := item.2]> caps
           else caps) acc result !! key = Some val <->
  acc !! key = Some val \/
  ((key, val) ∈ result /\ InstErrorCode.is_ok val.1 = true).
Proof.
  revert acc. induction result as [|[k v] result IH]; intros acc Hnd Hacc;
    simpl.
  - split; [now left|]. intros [H|[H _]]; [exact H|]. inversion H.
  - rewrite fmap_cons in Hnd. apply NoDup_cons in Hnd as [Hk Hnd].
    rewrite IH; [|exact Hnd|].
    + destruct (InstErrorCode.is_ok v.1) eqn:Hok.
      * destruct (decide (key = k)) as [->|Hne].
        -- rewrite lookup_insert_eq. split.
           ++ intros [[= <-]|[Hin Hv]].
              ** right. split; [left|exact Hok].
              ** exfalso. apply Hk. apply list_elem_of_fmap.
                 exists (k, val). done.
           ++ intros [Hin|[Hin Hv]].
              ** rewrite Hacc in Hin by (simpl; left). discriminate.
              ** apply elem_of_cons in Hin as [[= <-]|Hin]; [now left|].
                 exfalso. apply Hk. apply list_elem_of_fmap.
                 exists (k, val). done.
        -- rewrite lookup_insert_ne by done. split.
           ++ intros [H|[Hin Hv]]; [now left|]. right. split; [now right|done].
           ++ intros [H|[Hin Hv]]; [now left|].
              apply elem_of_cons in Hin as [[= -> ->]|Hin]; [done|].
              right. done.
      * split.
        -- intros [H|[Hin Hv]]; [now left|]. right. split; [now right|done].
        -- intros [H|[Hin Hv]]; [now left|].
           apply elem_of_cons in Hin as [[= -> ->]|Hin]; [congruence|].
           right. done.
    + intros k' Hk'. destruct (InstErrorCode.is_ok v.1).
      * rewrite lookup_insert_ne; [apply Hacc; simpl; now right|].
        simpl. intros ->. contradiction.
      * apply Hacc. simpl. now right.
Qed.

(** X10.  On [ENTER] the handler of [INACTIVE] forgets the capabilities
    it had and reads them from the driver.  It returns the whole reply of
    the driver as its result, and keeps in [_device_capabilities] exactly
    the entries of the reply whose code [is_ok]. *)
Theorem inactive_enter_reads_capabilities (driver : Driver)
    (p : InstrumentAgent) (result : list (string * Capability)) :
  is_Some (_driver_client (core p)) ->
  get_capabilities driver = Some result ->
  NoDup result.*1 ->
  let r := state_handler_inactive AgentEvent.ENTER driver p in
  r.1 = Some (InstErrorCode.OK, None, payload_capabilities result) /\
  forall key val,
    _device_capabilities r.2 !! key = Some val <->
    (key, val) ∈ result /\ InstErrorCode.is_ok val.1 = true.
Proof.
  intros [client Hclient] Hget Hnd r. subst r.
  unfold state_handler_inactive. simpl. rewrite Hclient, Hget. simpl.
  split; [reflexivity|]. intros key val. unfold read_capabilities.
  rewrite read_capabilities_lookup; [|exact Hnd|intros; apply lookup_empty].
  rewrite lookup_empty. split; [intros [[=]|H]; exact H|now right].
Qed.

(** The property at a reply with one capability that is granted and one
    that is not. *)
Lemma inactive_enter_reads_capabilities_witness :
  let result :=
    [("commands", (InstErrorCode.OK, "start, stop"));
     ("channels", (InstErrorCode.INVALID_CAPABILITY, "none"))] in
  let driver :=
    mkDriver driver_raises driver_raises driver_raises (Some result)
      spawn_raises client_raises in
  let p := set_core inactive_agent process_init in
  NoDup result.*1 /\
  _device_capabilities
    (state_handler_inactive AgentEvent.ENTER driver p).2 !! "commands"
  = Some (InstErrorCode.OK, "start, stop").
Proof.
  intros result driver p.
  assert (Hnd : NoDup result.*1).
  { simpl. apply NoDup_cons. split; [|apply NoDup_singleton].
    intros H. apply list_elem_of_singleton in H. discriminate. }
  split; [exact Hnd|].
  destruct (inactive_enter_reads_capabilities driver p result
              (ex_intro _ 42 eq_refl) eq_refl Hnd) as [_ H].
  apply H. split; [left|reflexivity].
Defined.

(** ** Observatory parameters *)

(** What one turn of the loop of [op_set_observatory] leaves alone: the
    transaction, the queue, the timers, and the least time a transaction
    is open; and the most time stays above the least. *)
Lemma set_observatory_arg_core (time_sources connection_methods : list string)
    (arg : Arg) (val : PyValue) (st : SetLoop) :
  let a := core (set_agent st) in
  let a' := core (set_agent
            (set_observatory_arg time_sources connection_methods arg val st)) in
  _min_exp_timeout a' = _min_exp_timeout a /\
  ((_min_exp_timeout a <= _max_exp_timeout a)%N ->
   (_min_exp_timeout a' <= _max_exp_timeout a')%N) /\
  transaction_id a' = transaction_id a /\
  _pending_transactions a' = _pending_transactions a /\
  reactor_calls a' = reactor_calls a /\
  _in_protected_function a' = _in_protected_function a.
Proof.
  destruct arg as [name|x|name]; [done| |done].
  destruct x; destruct val as [z|s|keys| |]; simpl; try done;
    repeat case_match; simpl; try done.
  split; [done|]. split; [|done]. intros _.
  match goal with H : (_ <? _)%Z = true |- _ => apply Z.ltb_lt in H end.
  lia.
Qed.

Lemma set_observatory_body_core (time_sources connection_methods : list string)
    (params : list (Arg * PyValue)) (p : InstrumentAgent) :
  core (op_set_observatory_body time_sources connection_methods params p).2 =
  core (set_agent
          (set_observatory_loop time_sources connection_methods params p)).
Proof.
  unfold op_set_observatory_body. simpl.
  destruct (InstErrorCode.is_error _);
    destruct (set_successes _); reflexivity.
Qed.

(** X11.  [op_set_observatory] never moves the least time a transaction
    is open, and accepts a greatest time only above it.  So whatever
    parameters a caller sets, the range of the expiration timeout stays a
    range, and every timeout asked for afterwards is clamped into it.
    The transaction, the queue and the timers are not touched. *)
Theorem set_observatory_keeps_expiration_range
    (time_sources connection_methods : list string)
    (params : list (Arg * PyValue)) (p : InstrumentAgent) :
  (_min_exp_timeout (core p) <= _max_exp_timeout (core p))%N ->
  let a := core p in
  let a' :=
    core (op_set_observatory_body time_sources connection_methods params
            p).2 in
  _min_exp_timeout a' = _min_exp_timeout a /\
  (_min_exp_timeout a' <= _max_exp_timeout a')%N /\
  (forall e,
     (_min_exp_timeout a' <= clamp_exp_timeout (Some e) a'
      <= _max_exp_timeout a')%N) /\
  transaction_id a' = transaction_id a /\
  _pending_transactions a' = _pending_transactions a /\
  reactor_calls a' = reactor_calls a /\
  _in_protected_function a' = _in_protected_function a.
Proof.
  intros Hle a a'. subst a a'. rewrite set_observatory_body_core.
  unfold set_observatory_loop.
  assert (H : forall st,
            let a := core (set_agent st) in
            let a' :=
              core (set_agent
                      (foldl
                         (fun st item =>
                            set_observatory_arg time_sources
                              connection_methods item.1 item.2 st) st
                         params)) in
            (_min_exp_timeout a <= _max_exp_timeout a)%N ->
            _min_exp_timeout a' = _min_exp_timeout a /\
            (_min_exp_timeout a' <= _max_exp_timeout a')%N /\
            transaction_id a' = transaction_id a /\
            _pending_transactions a' = _pending_transactions a /\
            reactor_calls a' = reactor_calls a /\
            _in_protected_function a' = _in_protected_function a).
  { induction params as [|[arg val] params IH]; intros st a0 a' Hst;
      [done|].
    subst a0 a'. simpl.
    destruct (set_observatory_arg_core time_sources connection_methods arg
                val st) as (H1 & H2 & H3 & H4 & H5 & H6).
    destruct (IH (set_observatory_arg time_sources connection_methods arg val
                    st) (H2 Hst))
      as (I1 & I2 & I3 & I4 & I5 & I6).
    repeat split; congruence. }
  destruct (H (mkSetLoop p [] false false) Hle) as (H1 & H2 & H3).
  split; [exact H1|]. split; [exact H2|]. split; [|exact H3].
  intros e. now apply clamp_exp_timeout_bounds.
Qed.

(** The property at a request that sets a greatest time of 10 seconds,
    below the default of 300. *)
Lemma set_observatory_keeps_expiration_range_witness :
  let params := [(parameter AgentParameter.MAX_EXP_TIMEOUT, py_int 10)] in
  let a' := core (op_set_observatory_body [] [] params process_init).2 in
  (_min_exp_timeout (core process_init)
   <= _max_exp_timeout (core process_init))%N /\
  (_min_exp_timeout a' <= clamp_exp_timeout (Some 300%N) a'
   <= _max_exp_timeout a')%N /\
  _max_exp_timeout a' = 10%N /\
  _default_exp_timeout a' = 300%N.
Proof.
  intros params a'.
  assert (Hle : (_min_exp_timeout (core process_init)
                 <= _max_exp_timeout (core process_init))%N)
    by (vm_compute; discriminate).
  split; [exact Hle|].
  destruct (set_observatory_keeps_expiration_range [] [] params process_init
              Hle) as (_ & _ & H & _).
  split; [exact (H 300%N)|]. split; reflexivity.
Defined.

Lemma dict_set_fresh {K V : Type} `{EqDecision K} (k : K) (v : V)
    (d : list (K * V)) :
  k ∉ d.*1 -> dict_set k v d = d ++ [(k, v)].
Proof.
  induction d as [|[k0 v0] d IH]; simpl; intros Hk; [done|].
  rewrite decide_False by (intros ->; apply Hk; left).
  rewrite IH; [done|]. intros Hin. apply Hk. now right.
Qed.

Lemma dict_set_other {K V : Type} `{EqDecision K} (k k' : K) (v v' : V)
    (d : list (K * V)) :
  k' <> k -> (k', v') ∈ dict_set k v d <-> (k', v') ∈ d.
Proof.
  intros Hne. induction d as [|[k0 v0] d IH]; simpl.
  - split; intros Hin; [|inversion Hin].
    apply list_elem_of_singleton in Hin. congruence.
  - destruct (decide (k0 = k)) as [->|Hk0]; rewrite !elem_of_cons.
    + split; (intros [Heq|Hin]; [congruence|now right]).
    + rewrite IH. done.
Qed.

Lemma dict_set_keys {K V : Type} `{EqDecision K} (k k' : K) (v : V)
    (d : list (K * V)) :
  k' ∈ (dict_set k v d).*1 <-> k' = k \/ k' ∈ d.*1.
Proof.
  induction d as [|[k0 v0] d IH]; simpl.
  - rewrite list_elem_of_singleton. split; [now left|].
    intros [H1|H1]; [done|inversion H1].
  - destruct (decide (k0 = k)) as [->|Hk0]; simpl; rewrite !elem_of_cons.
    + tauto.
    + rewrite IH. tauto.
Qed.

(** What one turn of the loop of [op_set_observatory] does to [result]
    and to [set_errors]. *)
Lemma set_observatory_arg_result
    (time_sources connection_methods : list string) (arg : Arg)
    (val : PyValue) (st : SetLoop) :
  let st' := set_observatory_arg time_sources connection_methods arg val st in
  (set_result st' = set_result st /\ set_errors st' = set_errors st) \/
  exists code,
    set_result st' = dict_set arg code (set_result st) /\
    set_errors st' =
      set_errors st ||
      (bool_decide (code <> InstErrorCode.OK) &&
       bool_decide (arg <> parameter AgentParameter.CONNECTION_METHOD)).
Proof.
  assert (Hstored : forall q,
            set_result (stored arg q st) =
              dict_set arg InstErrorCode.OK (set_result st) /\
            set_errors (stored arg q st) = set_errors st || false)
    by (intros q; simpl; now rewrite orb_false_r).
  assert (Hnoted : set_result (noted arg InstErrorCode.OK st) =
              dict_set arg InstErrorCode.OK (set_result st) /\
            set_errors (noted arg InstErrorCode.OK st) = set_errors st || false)
    by (simpl; now rewrite orb_false_r).
  assert (Hrefused : forall code,
            set_result (refused arg code st) =
              dict_set arg code (set_result st) /\
            set_errors (refused arg code st) = set_errors st || true)
    by (intros code; simpl; now rewrite orb_true_r).
  destruct arg as [name|x|name]; [right|
|left; done].
  - exists InstErrorCode.INVALID_PARAMETER. apply Hrefused.
  - destruct x; try (left; done);
      destruct val as [z|s|keys| |]; simpl;
      repeat case_match;
      first
        [ right; exists InstErrorCode.OK; apply Hstored
        | right; exists InstErrorCode.OK; apply Hnoted
        | right; exists InstErrorCode.INVALID_PARAM_VALUE; apply Hrefused
        | right; exists InstErrorCode.INVALID_PARAM_VALUE; simpl;
          now rewrite orb_false_r ].
Qed.

Lemma set_observatory_loop_result
    (time_sources connection_methods : list string)
    (params : list (Arg * PyValue)) (st : SetLoop) :
  NoDup params.*1 ->
  (forall k, k ∈ params.*1 -> k ∉ (set_result st).*1) ->
  (set_errors st = true <-> exists entry, entry ∈ set_result st /\ bad_entry entry) ->
  let st' :=
    foldl (fun st item =>
             set_observatory_arg time_sources connection_methods item.1
               item.2 st) st params in
  (forall k, k ∈ (set_result st').*1 ->
     k ∈ (set_result st).*1 \/ k ∈ params.*1) /\
  (set_errors st' = true <->
   exists entry, entry ∈ set_result st' /\ bad_entry entry).
Proof.
  revert st. induction params as [|[arg val] params IH];
    intros st Hnd Hfresh Hinv; simpl.
  - split; [intros k Hk; now left|exact Hinv].
  - rewrite fmap_cons in Hnd. apply NoDup_cons in Hnd as [Harg Hnd].
    assert (Hargf : arg ∉ (set_result st).*1) by (apply Hfresh; left).
    pose proof (set_observatory_arg_result time_sources connection_methods
                  arg val st) as Hstep.
    set (st1 := set_observatory_arg time_sources connection_methods arg val
                  st) in *.
    cbv zeta in Hstep.
    assert (Hkeys : forall k, k ∈ (set_result st1).*1 ->
              k = arg \/ k ∈ (set_result st).*1).
    { intros k Hk. destruct Hstep as [[Heq _]|(code & Heq & _)];
        rewrite Heq in Hk; [now right|].
      now apply dict_set_keys in Hk. }
    destruct (IH st1 Hnd) as [IH1 IH2].
    + intros k Hk Hin. apply Hkeys in Hin as [->|Hin]; [contradiction|].
      apply (Hfresh k); [now right|exact Hin].
    + destruct Hstep as [[-> ->]|(code & -> & ->)]; [exact Hinv|].
      rewrite dict_set_fresh by exact Hargf.
      rewrite orb_true_iff, andb_true_iff, !bool_decide_eq_true, Hinv.
      split.
      * intros [(entry & Hin & Hbad)|[Hc Ha]].
        -- exists entry. split; [apply elem_of_app; now left|exact Hbad].
        -- exists (arg, code). split; [apply elem_of_app; right; left|].
           split; assumption.
      * intros (entry & Hin & Hbad).
        apply elem_of_app in Hin as [Hin|Hin]; [left; eauto|].
        apply list_elem_of_singleton in Hin. subst entry. right. exact Hbad.
    + split; [|exact IH2].
      intros k Hk. apply IH1 in Hk as [Hk|Hk]; [|right; now right].
      apply Hkeys in Hk as [->|Hk]; [right; left|now left].
Qed.

(** X12.  The reply of [op_set_observatory] to a request with the
    parameters [params].  Every entry of ['result'] is for a key of the
    request.  ['success'] is [GET_OBSERVATORY_ERR], the code of
    [op_get_observatory], when some entry is not [OK], and [OK]
    otherwise, with one exception: a [CONNECTION_METHOD] that is refused
    is entered as [INVALID_PARAM_VALUE] and does not count as an
    error. *)
Theorem set_observatory_success
    (time_sources connection_methods : list string)
    (params : list (Arg * PyValue)) (p : InstrumentAgent) :
  NoDup params.*1 ->
  let r := op_set_observatory_body time_sources connection_methods params p in
  let success := r.1.1 in
  let result := r.1.2 in
  (forall arg code, (arg, code) ∈ result -> arg ∈ params.*1) /\
  ((success = InstErrorCode.GET_OBSERVATORY_ERR /\
    exists arg code,
      (arg, code) ∈ result /\ code <> InstErrorCode.OK /\
      arg <> parameter AgentParameter.CONNECTION_METHOD) \/
   (success = InstErrorCode.OK /\
    forall arg code,
      (arg, code) ∈ result ->
      code = InstErrorCode.OK \/
      arg = parameter AgentParameter.CONNECTION_METHOD)).
Proof.
  intros Hnd r success result. subst success result r.
  unfold op_set_observatory_body, set_observatory_loop. cbn [fst snd].
  destruct (set_observatory_loop_result time_sources connection_methods params
              (mkSetLoop p [] false false) Hnd) as [Hkeys Herr].
  { intros k _ Hin. inversion Hin. }
  { simpl. split; [discriminate|]. intros (entry & Hin & _). inversion Hin. }
  cbv zeta in Hkeys, Herr.
  match goal with
  | |- context [set_result ?s] => set (st := s) in *
  end.
  split.
  - intros arg code Hin.
    destruct (Hkeys arg) as [Hk|Hk]; [|inversion Hk|exact Hk].
    apply list_elem_of_fmap. exists (arg, code). done.
  - destruct (set_errors st) eqn:Hse.
    + left. split; [reflexivity|].
      destruct (proj1 Herr eq_refl) as ([arg code] & Hin & Hc & Ha).
      exists arg, code. done.
    + right. split; [reflexivity|]. intros arg code Hin.
      destruct (decide (code = InstErrorCode.OK)) as [Hc|Hc]; [now left|].
      destruct (decide (arg = parameter AgentParameter.CONNECTION_METHOD))
        as [Ha|Ha]; [now right|].
      assert (Htrue : false = true); [|discriminate].
      apply Herr. exists (arg, code). done.
Qed.

(** The property at a request with a time below zero and a connection
    method that does not exist: the first makes the request fail. *)
Lemma set_observatory_success_witness :
  let params :=
    [(parameter AgentParameter.MAX_ACQ_TIMEOUT, py_int (-1));
     (parameter AgentParameter.CONNECTION_METHOD, py_str "carrier pigeon")] in
  let r := op_set_observatory_body [] [] params process_init in
  NoDup params.*1 /\
  r.1.1 = InstErrorCode.GET_OBSERVATORY_ERR /\
  forall arg code, (arg, code) ∈ r.1.2 -> arg ∈ params.*1.
Proof.
  intros params r.
  assert (Hnd : NoDup params.*1).
  { simpl. apply NoDup_cons. split; [|apply NoDup_singleton].
    intros H. apply list_elem_of_singleton in H. discriminate. }
  split; [exact Hnd|].
  destruct (set_observatory_success [] [] params process_init Hnd)
    as [Hkeys _].
  split; [reflexivity|exact Hkeys].
Defined.

Lemma get_observatory_published (x : AgentParameter.t)
    (data : list (string * list Sample)) (log : list LogEvent)
    (p : InstrumentAgent) :
  op_get_observatory_body [parameter x] (set_published data log p) =
  op_get_observatory_body [parameter x] p.
Proof. reflexivity. Qed.

(** A turn of the loop of [op_set_observatory] for another key leaves
    what [op_get_observatory] reports for the parameter [x]. *)
Lemma set_observatory_arg_other
    (time_sources connection_methods : list string) (x : AgentParameter.t)
    (arg : Arg) (val : PyValue) (st : SetLoop) :
  arg <> parameter x ->
  x <> AgentParameter.ALL ->
  op_get_observatory_body [parameter x]
    (set_agent
       (set_observatory_arg time_sources connection_methods arg val st)) =
  op_get_observatory_body [parameter x] (set_agent st).
Proof.
  intros Hne Hall. destruct arg as [name|y|name]; [done| |done].
  destruct y; destruct val as [z|s|keys| |]; simpl; try done;
    repeat case_match; try done;
    destruct x; try done; congruence.
Qed.

(** A turn for the parameter [x] itself that enters [OK]. *)
Lemma set_observatory_arg_own
    (time_sources connection_methods : list string) (x : AgentParameter.t)
    (val : PyValue) (st : SetLoop) :
  let st' :=
    set_observatory_arg time_sources connection_methods (parameter x) val
      st in
  parameter x ∉ (set_result st).*1 ->
  (parameter x, InstErrorCode.OK) ∈ set_result st' ->
  op_get_observatory_body [parameter x] (set_agent st') =
  (InstErrorCode.OK, [(parameter x, (InstErrorCode.OK, val))]).
Proof.
  intros st' Hfresh Hin. subst st'.
  assert (Hno : forall q, (parameter x, InstErrorCode.OK) ∈
                  set_result (mkSetLoop q (set_result st) (set_errors st)
                                (set_successes st)) -> False).
  { intros q Hq. apply Hfresh. apply list_elem_of_fmap.
    exists (parameter x, InstErrorCode.OK). done. }
  assert (Hbad : forall code, code <> InstErrorCode.OK ->
            (parameter x, InstErrorCode.OK) ∈
              dict_set (parameter x) code (set_result st) -> False).
  { intros code Hc Hq. rewrite dict_set_fresh in Hq by exact Hfresh.
    apply elem_of_app in Hq as [Hq|Hq].
    - apply Hfresh. apply list_elem_of_fmap.
      exists (parameter x, InstErrorCode.OK). done.
    - apply list_elem_of_singleton in Hq. congruence. }
  destruct x; destruct val as [z|s|keys| |]; simpl in *;
    try (exfalso; apply Hfresh; apply list_elem_of_fmap;
         eexists (_, InstErrorCode.OK); split; [reflexivity|exact Hin]);
    try (exfalso; now apply (Hbad InstErrorCode.INVALID_PARAM_VALUE));
    repeat case_match; simpl in *;
    try (exfalso; now apply (Hbad InstErrorCode.INVALID_PARAM_VALUE));
    try reflexivity.
  all: unfold op_get_observatory_body, get_observatory_arg, get_if; simpl.
  all: try (match goal with
            | H : decide _ = right ?n |- _ =>
                clear H; apply dec_stable in n; subst
            end; reflexivity).
  all: repeat match goal with
         | H : (_ <=? _)%Z = true |- _ => apply Z.leb_le in H
         | H : (_ <? _)%Z = true |- _ => apply Z.ltb_lt in H
         | H : _ && _ = true |- _ => apply andb_true_iff in H as [? ?]
         end;
       rewrite Z2N.id by lia; reflexivity.
Qed.

Lemma set_observatory_loop_other
    (time_sources connection_methods : list string) (x : AgentParameter.t)
    (params : list (Arg * PyValue)) (st : SetLoop) :
  parameter x ∉ params.*1 ->
  let st' :=
    foldl (fun st item =>
             set_observatory_arg time_sources connection_methods item.1
               item.2 st) st params in
  (x <> AgentParameter.ALL ->
   op_get_observatory_body [parameter x] (set_agent st') =
   op_get_observatory_body [parameter x] (set_agent st)) /\
  (forall code, (parameter x, code) ∈ set_result st' ->
                (parameter x, code) ∈ set_result st).
Proof.
  revert st. induction params as [|[arg val] params IH]; intros st Hout;
    simpl; [done|].
  assert (Harg : arg <> parameter x) by (intros ->; apply Hout; left).
  destruct (IH (set_observatory_arg time_sources connection_methods arg val
                  st)) as [IH1 IH2].
  { intros Hin. apply Hout. now right. }
  split.
  - intros Hall. rewrite IH1 by exact Hall.
    now apply set_observatory_arg_other.
  - intros code Hin. apply IH2 in Hin.
    destruct (set_observatory_arg_result time_sources connection_methods arg
                val st) as [[Heq _]|(code' & Heq & _)];
      rewrite Heq in Hin; [exact Hin|].
    apply dict_set_other in Hin; [exact Hin|congruence].
Qed.

(** X13.  What [op_set_observatory] stores is what [op_get_observatory]
    reports: when the reply to a request that gives the parameter [x] the
    value [val] has [OK] for [x], a request for [x] afterwards is
    answered [OK] with [val], whatever else the first request set. *)
Theorem set_then_get_observatory
    (time_sources connection_methods : list string)
    (params : list (Arg * PyValue)) (p : InstrumentAgent)
    (x : AgentParameter.t) (val : PyValue) :
  NoDup params.*1 ->
  (parameter x, val) ∈ params ->
  let r := op_set_observatory_body time_sources connection_methods params p in
  (parameter x, InstErrorCode.OK) ∈ r.1.2 ->
  op_get_observatory_body [parameter x] r.2 =
  (InstErrorCode.OK, [(parameter x, (InstErrorCode.OK, val))]).
Proof.
  intros Hnd Hin r Hok. subst r.
  apply list_elem_of_split in Hin as (l1 & l2 & ->).
  rewrite fmap_app, fmap_cons in Hnd.
  apply NoDup_app in Hnd as (Hnd1 & Hdisj & Hnd2).
  apply NoDup_cons in Hnd2 as [Hx2 Hnd2].
  assert (Hx1 : parameter x ∉ l1.*1).
  { intros H1. apply (Hdisj _ H1). left. }
  unfold op_set_observatory_body, set_observatory_loop in *.
  cbn [fst snd] in *. rewrite foldl_app in *. cbn [foldl fst snd] in *.
  set (st1 := foldl _ (mkSetLoop p [] false false) l1) in *.
  destruct (set_observatory_loop_result time_sources connection_methods l1
              (mkSetLoop p [] false false) Hnd1) as [Hkeys _].
  { intros k _ H0. inversion H0. }
  { simpl. split; [discriminate|]. intros (entry & H0 & _). inversion H0. }
  cbv zeta in Hkeys. fold st1 in Hkeys.
  assert (Hfresh : parameter x ∉ (set_result st1).*1).
  { intros H1. apply Hkeys in H1 as [H1|H1]; [inversion H1|contradiction]. }
  destruct (set_observatory_loop_other time_sources connection_methods x l2
              (set_observatory_arg time_sources connection_methods
                 (parameter x) val st1) Hx2) as [Hsame Hentry].
  cbv zeta in Hsame, Hentry.
  set (st3 := foldl _ (set_observatory_arg _ _ _ _ st1) l2) in *.
  apply Hentry in Hok.
  destruct (decide (x = AgentParameter.ALL)) as [->|Hall].
  { exfalso. apply Hfresh. apply list_elem_of_fmap.
    exists (parameter AgentParameter.ALL, InstErrorCode.OK). done. }
  pose proof (set_observatory_arg_own time_sources connection_methods x val
                st1 Hfresh Hok) as Hown.
  rewrite <- Hown, <- Hsame by exact Hall.
  destruct (InstErrorCode.is_error _); destruct (set_successes st3);
    reflexivity.
Qed.

(** The property at a request that sets two of the timeouts. *)
Lemma set_then_get_observatory_witness :
  let params :=
    [(parameter AgentParameter.MAX_EXP_TIMEOUT, py_int 600);
     (parameter AgentParameter.DEFAULT_EXP_TIMEOUT, py_int 450)] in
  let r := op_set_observatory_body [] [] params process_init in
  NoDup params.*1 /\
  (parameter AgentParameter.DEFAULT_EXP_TIMEOUT, InstErrorCode.OK) ∈ r.1.2 /\
  op_get_observatory_body [parameter AgentParameter.DEFAULT_EXP_TIMEOUT] r.2 =
  (InstErrorCode.OK,
   [(parameter AgentParameter.DEFAULT_EXP_TIMEOUT,
     (InstErrorCode.OK, py_int 450))]).
Proof.
  intros params r.
  assert (Hnd : NoDup params.*1).
  { simpl. apply NoDup_cons. split; [|apply NoDup_singleton].
    intros H. apply list_elem_of_singleton in H. discriminate. }
  assert (Hok : (parameter AgentParameter.DEFAULT_EXP_TIMEOUT,
                 InstErrorCode.OK) ∈ r.1.2) by (right; left).
  split; [exact Hnd|]. split; [exact Hok|].
  apply (set_then_get_observatory [] [] params process_init
           AgentParameter.DEFAULT_EXP_TIMEOUT (py_int 450) Hnd).
  - right. left.
  - exact Hok.
Defined.

(** X14.  A request of [op_get_observatory] for [ALL] is answered [OK]
    with the ten parameters of [_get_parameters], each with the value
    that [_get_parameters] lists for it. *)
Theorem get_observatory_all (p : InstrumentAgent) :
  let r := op_get_observatory_body [parameter AgentParameter.ALL] p in
  r.1 = InstErrorCode.OK /\
  length r.2 = 10 /\
  forall x val,
    (parameter x, (InstErrorCode.OK, val)) ∈ r.2 <->
    (x, val) ∈ _get_parameters p.
Proof.
  intros r. subst r. split; [reflexivity|]. split; [reflexivity|].
  intros x val.
  unfold op_get_observatory_body, get_observatory_arg, get_if,
    _get_parameters.
  simpl. rewrite !elem_of_cons, !elem_of_nil.
  split; intros H; repeat destruct H as [H|H]; try contradiction;
    injection H as -> ->; tauto.
Qed.

(** ** Data samples *)

Lemma _is_child_process_loop_spec (name : string) (procs : list ProcessDesc) :
  _is_child_process_loop name procs false = true <->
  exists proc, proc ∈ procs /\ proc_name proc = name.
Proof.
  induction procs as [|proc procs IH]; simpl.
  - split; [discriminate|]. intros (proc & Hin & _). inversion Hin.
  - destruct (decide (proc_name proc = name)) as [Heq|Hne].
    + split; [|done]. intros _. exists proc. split; [left|exact Heq].
    + rewrite IH. split.
      * intros (c & Hin & Hc). exists c. split; [now right|exact Hc].
      * intros (c & Hin & Hc). apply elem_of_cons in Hin as [->|Hin];
          [contradiction|]. eauto.
Qed.

(** What a message of the driver leaves alone, and what it does with its
    sample. *)
Lemma op_driver_event_occurred_sample (e : DriverEvent) (p : InstrumentAgent) :
  let p' := (op_driver_event_occurred e p).2 in
  core p' = core p /\
  child_procs p' = child_procs p /\
  _data_buffer_limit p' = _data_buffer_limit p /\
  if sample_taken p e then
    (data_published p' = data_published p /\
     _data_buffer p' = _data_buffer p ++ [value e] /\
     (N.of_nat (length (_data_buffer p')) <= _data_buffer_limit p)%N) \/
    (data_published p' =
       data_published p ++ [(transducer e, _data_buffer p ++ [value e])] /\
     _data_buffer p' = [] /\
     (_data_buffer_limit p < N.of_nat (length (_data_buffer p ++ [value e])))%N)
    \/
    (data_published p' = data_published p ++ [(transducer e, [value e])] /\
     _data_buffer p' = _data_buffer p)
  else
    data_published p' = data_published p /\ _data_buffer p' = _data_buffer p.
Proof.
  unfold op_driver_event_occurred, sample_taken.
  destruct (_is_child_process (sender_name e) p); simpl; [|done].
  destruct (event_type e) eqn:Htype; simpl.
  - destruct (_driver_client (core p)) as [client|] eqn:Hclient; simpl;
      [|done].
    destruct (get_status e) as [|success streaming]; [done|].
    destruct streaming as [[|]|]; destruct (InstErrorCode.is_ok success);
      simpl; try done.
    + destruct (N.ltb_spec (_data_buffer_limit p)
                  (N.of_nat (length (_data_buffer p ++ [value e]))));
        simpl.
      * repeat (split; [done|]). right. left. done.
      * repeat (split; [done|]). left. done.
    + repeat (split; [done|]). right. right. done.
  - destruct (_driver_client (core p)); destruct (get_config e) as [|s r];
      try done.
    destruct (InstErrorCode.is_ok s && (0 <? length r)); done.
  - done.
  - destruct (0 <? length (_data_buffer p)); done.
  - done.
  - done.
Qed.

Lemma sample_taken_same (p p' : InstrumentAgent) (e : DriverEvent) :
  core p' = core p -> child_procs p' = child_procs p ->
  sample_taken p' e = sample_taken p e.
Proof.
  intros Hcore Hchildren. unfold sample_taken, _is_child_process.
  now rewrite Hcore, Hchildren.
Qed.

(** X15.  [op_driver_event_occurred] refuses a message with [reply_err]
    exactly when no child process has the name of the sender, and then
    leaves the agent as it is.  A message that is not refused changes
    neither the transactions nor the children nor the limit of the
    buffer. *)
Theorem driver_event_from_child_only (e : DriverEvent) (p : InstrumentAgent) :
  let r := op_driver_event_occurred e p in
  (r.1 = event_refused <->
   ~ exists proc, proc ∈ child_procs p /\ proc_name proc = sender_name e) /\
  (r.1 = event_refused -> r.2 = p) /\
  core r.2 = core p /\
  child_procs r.2 = child_procs p /\
  _data_buffer_limit r.2 = _data_buffer_limit p.
Proof.
  intros r.
  destruct (op_driver_event_occurred_sample e p) as (Hcore & Hch & Hlim & _).
  fold r in Hcore, Hch, Hlim.
  split; [|split; [|done]].
  - rewrite <- _is_child_process_loop_spec.
    fold (_is_child_process (sender_name e) p).
    subst r. unfold op_driver_event_occurred.
    destruct (_is_child_process (sender_name e) p); simpl.
    + split; [|intros H; now destruct H].
      destruct (event_type e); simpl;
        repeat case_match; simpl; discriminate.
    + split; [intros _ H; discriminate|done].
  - subst r. unfold op_driver_event_occurred.
    destruct (_is_child_process (sender_name e) p); simpl; [|done].
    destruct (event_type e); simpl; repeat case_match; simpl; discriminate.
Qed.

(** X16.  No sample is lost and none is published twice.  After any
    messages of the driver, the samples that [_data_publisher] has
    published, together with those that wait in [_data_buffer], are the
    samples there were before and the samples of the messages that were
    taken in: a [DATA_RECEIVED] of a child process for which the driver
    told its observatory state.  The samples may change places, since a
    sample that arrives outside streaming mode is published ahead of
    those that wait in the buffer. *)
Theorem samples_published_once (events : list DriverEvent)
    (p : InstrumentAgent) :
  let p' := driver_events events p in
  concat (data_published p').*2 ++ _data_buffer p' ≡ₚ
  concat (data_published p).*2 ++ _data_buffer p ++
  (value <$> filter (fun e => sample_taken p e = true) events).
Proof.
  revert p. induction events as [|e events IH]; intros p; simpl.
  - now rewrite app_nil_r.
  - destruct (op_driver_event_occurred_sample e p)
      as (Hcore & Hchildren & _ & Hsample).
    cbv zeta in Hsample.
    set (p1 := (op_driver_event_occurred e p).2) in *.
    specialize (IH p1). cbv zeta in IH. unfold driver_events in IH.
    rewrite IH.
    rewrite (list_filter_iff (fun e0 => sample_taken p1 e0 = true)
               (fun e0 => sample_taken p e0 = true))
      by (intros e0; now rewrite (sample_taken_same p p1)).
    rewrite filter_cons.
    destruct (sample_taken p e) eqn:Htaken.
    + rewrite decide_True by done. rewrite fmap_cons.
      destruct Hsample as [(-> & -> & _)|[(-> & -> & _)|(-> & ->)]].
      * rewrite <- !app_assoc. done.
      * rewrite fmap_app, concat_app. simpl. rewrite !app_nil_r.
        rewrite <- !app_assoc. done.
      * rewrite fmap_app, concat_app. simpl. rewrite <- !app_assoc.
        apply Permutation_app_head. simpl.
        rewrite (Permutation_middle (_data_buffer p)). done.
    + rewrite decide_False by discriminate.
      destruct Hsample as [-> ->]. done.
Qed.

(** X17.  The buffer holds at most [_data_buffer_limit] samples once a
    message is through, if it did before; and every block of samples that
    [_data_publisher] publishes is a single sample or one sample more than
    the limit. *)
Theorem data_buffer_bounded (events : list DriverEvent)
    (p : InstrumentAgent) :
  (N.of_nat (length (_data_buffer p)) <= _data_buffer_limit p)%N ->
  let p' := driver_events events p in
  (N.of_nat (length (_data_buffer p')) <= _data_buffer_limit p)%N /\
  exists blocks,
    data_published p' = data_published p ++ blocks /\
    forall block, block ∈ blocks ->
      length block.2 = 1 \/
      N.of_nat (length block.2) = (_data_buffer_limit p + 1)%N.
Proof.
  revert p. induction events as [|e events IH]; intros p Hlen; simpl.
  - split; [exact Hlen|]. exists []. split; [now rewrite app_nil_r|].
    intros block Hin. inversion Hin.
  - destruct (op_driver_event_occurred_sample e p)
      as (_ & _ & Hlimit & Hsample).
    cbv zeta in Hlimit, Hsample.
    set (p1 := (op_driver_event_occurred e p).2) in *.
    assert (Hstep : (N.of_nat (length (_data_buffer p1))
                     <= _data_buffer_limit p1)%N /\
              exists blocks,
                data_published p1 = data_published p ++ blocks /\
                forall block, block ∈ blocks ->
                  length block.2 = 1 \/
                  N.of_nat (length block.2) = (_data_buffer_limit p + 1)%N).
    { rewrite Hlimit. destruct (sample_taken p e).
      - destruct Hsample as [(Hpub & Hbuf & Hle)|[(Hpub & Hbuf & Hlt)
                            |(Hpub & Hbuf)]].
        + split; [exact Hle|]. exists []. split; [now rewrite app_nil_r|].
          intros block Hin. inversion Hin.
        + split; [rewrite Hbuf; simpl; lia|].
          exists [(transducer e, _data_buffer p ++ [value e])].
          split; [exact Hpub|]. intros block Hin.
          apply list_elem_of_singleton in Hin. subst block. right. simpl.
          rewrite length_app in *. simpl in *. lia.
        + split; [now rewrite Hbuf|].
          exists [(transducer e, [value e])]. split; [exact Hpub|].
          intros block Hin. apply list_elem_of_singleton in Hin.
          subst block. now left.
      - destruct Hsample as [Hpub Hbuf]. split; [now rewrite Hbuf|].
        exists []. split; [now rewrite app_nil_r|].
        intros block Hin. inversion Hin. }
    destruct Hstep as [Hlen1 (blocks1 & Hpub1 & Hblocks1)].
    destruct (IH p1 Hlen1) as [Hlen' (blocks & Hpub & Hblocks)].
    unfold driver_events in *. rewrite Hlimit in *.
    split; [exact Hlen'|].
    exists (blocks1 ++ blocks). split.
    + now rewrite Hpub, Hpub1, app_assoc.
    + intros block Hin. apply elem_of_app in Hin as [Hin|Hin]; eauto.
Qed.

(** The property at three samples of a streaming driver and a limit of
    two. *)
Lemma data_buffer_bounded_witness :
  let child := mkProcessDesc 42 "driver" in
  let p :=
    set_data_buffer [] 2 None
      (set_children [child] [] (set_core idle_agent process_init)) in
  let sample v :=
    mkDriverEvent "driver" DriverAnnouncement.DATA_RECEIVED "ctd" v
      (status_replies InstErrorCode.OK (Some true)) config_raises in
  let p' := driver_events [sample "s1"; sample "s2"; sample "s3"] p in
  (N.of_nat (length (_data_buffer p)) <= _data_buffer_limit p)%N /\
  (N.of_nat (length (_data_buffer p')) <= _data_buffer_limit p)%N /\
  data_published p' = [("ctd", ["s1"; "s2"; "s3"])].
Proof.
  intros child p sample p'.
  assert (Hlen : (N.of_nat (length (_data_buffer p))
                  <= _data_buffer_limit p)%N) by (vm_compute; discriminate).
  split; [exact Hlen|].
  destruct (data_buffer_bounded [sample "s1"; sample "s2"; sample "s3"] p
              Hlen) as [H _].
  split; [exact H|reflexivity].
Defined.

(** ** The client and the acquisition timeout *)

(** X18.  [InstrumentAgentClient.start_transaction] outwaits the agent.
    A request either has its deferred fired before
    [_request_transaction] returns, or it waits in
    [_pending_transactions] with an acquisition timer that comes due at
    least 10 seconds before the timeout of the remote call that the
    client makes for the same [acq_timeout]. *)
Theorem client_outwaits_acquisition (uuid4 : nat -> N)
    (acq_timeout exp_timeout : option N) (requester : string) (a : Agent) :
  let r := _request_transaction uuid4 acq_timeout exp_timeout requester a in
  (exists grant, deferred_fired r.2 = deferred_fired a ++ [(r.1, grant)]) \/
  (exists call delay,
     reactor_calls r.2 !! call = Some (delay, cb_acquisition_timeout r.1) /\
     is_pending r.1 r.2 /\
     deferred_fired r.2 = deferred_fired a /\
     (delay <= _max_acq_timeout a)%N /\
     (delay + 10 <= start_transaction_rpc_timeout acq_timeout)%N).
Proof.
  intros r. subst r. unfold _request_transaction, _start_transaction.
  simpl. destruct (transaction_id a) as [tid|] eqn:Htid; simpl.
  - destruct (N.eqb_spec (clamp_acq_timeout acq_timeout a) 0) as [Hz|Hnz];
      simpl.
    + left. eauto.
    + right. exists (reactor_next_call a), (clamp_acq_timeout acq_timeout a).
      split; [apply lookup_insert_eq|].
      split.
      { unfold is_pending, waiting. simpl. rewrite fmap_app.
        apply elem_of_app. right. left. }
      split; [reflexivity|].
      split; [apply clamp_acq_timeout_bound|].
      unfold clamp_acq_timeout, start_transaction_rpc_timeout in *.
      destruct acq_timeout as [t|]; [|contradiction].
      destruct (N.ltb_spec (_max_acq_timeout a) t);
        destruct (N.ltb_spec 0 t); lia.
  - left. eauto.
Qed.

(** ** Connection state *)

(** X19.  The agent reports [CONNECTED] exactly in the four states whose
    handler disconnects the driver.  There [GO_INACTIVE] is answered by
    what the disconnect comes to: the code of the driver's reply, with
    [INACTIVE] for next state when the code [is_ok] and without next state
    otherwise, and [DRIVER_CONNECT_FAILED] without next state when the
    disconnect raises or the agent has no client; the agent stays as it
    is.  In every other state no event makes the handler disconnect: two
    drivers that differ in their answer to a disconnect only are handled
    alike. *)
Theorem connected_states_disconnect (p : InstrumentAgent) :
  (_get_connection_state p = AgentConnectionState.CONNECTED <->
   fsm_current_state (core p) ∈ disconnecting_states) /\
  (_get_connection_state p = AgentConnectionState.CONNECTED ->
   exists h, _state_handlers_of_process (fsm_current_state (core p)) = Some h /\
     forall driver,
       h AgentEvent.GO_INACTIVE driver p =
         (Some
            match _driver_client (core p), disconnect driver with
            | Some _, driver_replies success =>
                (success,
                 if bool_decide (success = InstErrorCode.OK)
                 then Some AgentState.INACTIVE else None,
                 payload_none)
            | _, _ =>
                (InstErrorCode.DRIVER_CONNECT_FAILED, None, payload_none)
            end,
          p)) /\
  (_get_connection_state p <> AgentConnectionState.CONNECTED ->
   forall h driver1 driver2,
     _state_handlers_of_process (fsm_current_state (core p)) = Some h ->
     configure driver1 = configure driver2 ->
     connect driver1 = connect driver2 ->
     get_capabilities driver1 = get_capabilities driver2 ->
     spawn_child driver1 = spawn_child driver2 ->
     construct_client driver1 = construct_client driver2 ->
     forall event, h event driver1 p = h event driver2 p).
Proof.
  assert (Hsame : set_core (core p) p = p) by (now destruct p).
  unfold _get_connection_state, disconnecting_states.
  destruct (fsm_current_state (core p)) eqn:Hs; simpl.
  all: split; [rewrite !elem_of_cons, elem_of_nil; split; intros H;
                 try discriminate; try tauto;
                 repeat destruct H as [H|H]; try discriminate; done|].
  all: split; [intros H; try discriminate|intros H; try contradiction].
  all: try (eexists; split; [reflexivity|]; intros driver;
            unfold on_core; simpl;
            unfold go_inactive, client_disconnect;
            destruct (_driver_client (core p));
            [destruct (disconnect driver) as [|s0];
             [|unfold InstErrorCode.is_ok;
               destruct (bool_decide (s0 = InstErrorCode.OK))]|];
            simpl; rewrite Hsame; reflexivity).
  all: intros h driver1 driver2 Hh Hcfg Hcon Hcap Hsp Hcl event;
    try discriminate; injection Hh as <-; destruct event; simpl;
    try reflexivity.
  all: try (rewrite Hsp, Hcl; reflexivity).
  all: try (rewrite Hcap; reflexivity).
  all: rewrite Hcfg, Hcon; reflexivity.
Qed.

(** ** A transaction left behind *)





